(** * Logistics AI assistant: segmentation, field extraction, confidence and
      guardrails

    A shallow embedding of the hand-written heuristics of the backend
    ([document_processor.py], [extractor.py], [guardrails.py]) together with
    the properties the specification states about them.

    Conventions of the embedding.
    - A Python [str] is a [list ascii]; a character stands for the code point
      of the same number, so the texts covered are those over code points
      0..255.  The character tables below ([isspace], [lower_char], ...) are
      the values of Python's predicates on that range.
    - A Python [int] is a [Z]; [len] returns a [Z].
    - A Python [float] is a binary64 primitive float; [min], [max], [round]
      and the comparisons are the ones CPython computes, NaN included.
    - A raised exception is the [Raise] case of [res]. *)

From Stdlib Require Import ZArith List Bool Ascii String Lia.
From Stdlib Require Import Floats DecimalString.
From Stdlib Require Import Permutation Sorted.
From stdpp Require gmap strings.
Import ListNotations.

Set Warnings "-inexact-float".
Local Open Scope string_scope.
Local Open Scope list_scope.
Local Open Scope Z_scope.

(** [length] is the one of lists throughout. *)
Abbreviation length := List.length (only parsing).

(** ** Python values *)

Module Py.

Definition str := list ascii.

(** A string literal of the source. *)
Definition lit (s : string) : str := list_ascii_of_string s.

Inductive exn :=
| ValueError (msg : string)
| AttributeError (msg : string).

Inductive res (A : Type) :=
| Ok (a : A)
| Raise (e : exn).
Arguments Ok {A} a.
Arguments Raise {A} e.

Definition bind {A B} (m : res A) (f : A -> res B) : res B :=
  match m with
  | Ok a => f a
  | Raise e => Raise e
  end.

Definition len {A} (l : list A) : Z := Z.of_nat (length l).

(** *** Character tables (code points 0..255) *)

Definition code (c : ascii) : N := N_of_ascii c.

Definition between (lo hi : N) (c : ascii) : bool :=
  ((lo <=? code c) && (code c <=? hi))%N.

(** [str.isspace] on one character, also the class [\s] of [re]:
    TAB..CR, FS..US, space, NEL and the no-break space. *)
Definition isspace (c : ascii) : bool :=
  between 9 13 c || between 28 32 c || (code c =? 133)%N || (code c =? 160)%N.

(** [str.isdecimal], also the class [\d] of [re]. *)
Definition isdecimal (c : ascii) : bool := between 48 57 c.

Definition isupper_char (c : ascii) : bool :=
  between 65 90 c || between 192 214 c || between 216 222 c.

Definition islower_char (c : ascii) : bool :=
  between 97 122 c || (code c =? 170)%N || (code c =? 181)%N
  || (code c =? 186)%N || between 223 246 c || between 248 255 c.

(** [str.isalnum] or the underscore: the class [\w] of [re]. *)
Definition isword (c : ascii) : bool :=
  isupper_char c || islower_char c || isdecimal c
  || between 178 179 c || (code c =? 185)%N || between 188 190 c
  || (code c =? 95)%N.

Definition lower_char (c : ascii) : ascii :=
  if isupper_char c then ascii_of_N (code c + 32) else c.

(** The upper-case partner inside the range, when there is one (the partners
    of 181 and 255 lie outside it and 223 has none). *)
Definition upper_char (c : ascii) : ascii :=
  if between 97 122 c || between 224 246 c || between 248 254 c
  then ascii_of_N (code c - 32) else c.

(** *** String methods *)

Definition lower (s : str) : str := map lower_char s.

(** [s.isupper()]: some cased character, and no lower-case one. *)
Definition isupper (s : str) : bool :=
  existsb isupper_char s && negb (existsb islower_char s).

Fixpoint lstrip (s : str) : str :=
  match s with
  | c :: s' => if isspace c then lstrip s' else s
  | [] => []
  end.

Definition rstrip (s : str) : str := rev (lstrip (rev s)).

Definition strip (s : str) : str := rstrip (lstrip s).

(** [s.split(sep)] for a one-character separator. *)
Fixpoint split_on (sep : ascii) (s : str) : list str :=
  match s with
  | [] => [[]]
  | c :: s' =>
      if Ascii.eqb c sep then [] :: split_on sep s'
      else match split_on sep s' with
           | h :: t => (c :: h) :: t
           | [] => [[c]]
           end
  end.

(** [sep.join(parts)]. *)
Fixpoint join (sep : str) (parts : list str) : str :=
  match parts with
  | [] => []
  | [p] => p
  | p :: rest => p ++ sep ++ join sep rest
  end.

(** [s.split()]: the maximal runs of non-blank characters. *)
Fixpoint split_ws_from (cur : str) (s : str) : list str :=
  match s with
  | [] => match cur with [] => [] | _ => [rev cur] end
  | c :: s' =>
      if isspace c
      then match cur with
           | [] => split_ws_from [] s'
           | _ => rev cur :: split_ws_from [] s'
           end
      else split_ws_from (c :: cur) s'
  end.

Definition split_ws (s : str) : list str := split_ws_from [] s.

Fixpoint startswith (s pre : str) : bool :=
  match pre, s with
  | [], _ => true
  | p :: pre', c :: s' => Ascii.eqb c p && startswith s' pre'
  | _ :: _, [] => false
  end.

(** [sub in s]. *)
Fixpoint contains (sub s : str) : bool :=
  startswith s sub ||
  match s with
  | [] => false
  | _ :: s' => contains sub s'
  end.

(** [s.count(c)] for a one-character argument. *)
Definition count_char (c : ascii) (s : str) : Z :=
  len (List.filter (Ascii.eqb c) s).

(** An index of a slice, brought into [0, len]. *)
Definition slice_index (n : Z) (i : Z) : Z :=
  if i <? 0 then Z.max 0 (i + n) else Z.min i n.

(** [s[i:j]]. *)
Definition slice {A} (s : list A) (i j : Z) : list A :=
  let lo := slice_index (len s) i in
  let hi := slice_index (len s) j in
  firstn (Z.to_nat (hi - lo)) (skipn (Z.to_nat lo) s).

(** [range(start, stop, step)], materialised. *)
Definition range (start stop step : Z) : res (list Z) :=
  if step =? 0 then Raise (ValueError "range() arg 3 must not be zero")
  else
    let count :=
      if 0 <? step
      then (if start <? stop then (stop - start + step - 1) / step else 0)
      else (if stop <? start then (start - stop - step - 1) / (- step) else 0) in
    Ok (map (fun k => start + Z.of_nat k * step) (seq 0 (Z.to_nat count))).

End Py.

(** ** The part of Python's [re] the backend uses

    Patterns are written as syntax trees; the matcher is the backtracking one:
    alternatives are tried left to right, a greedy repetition tries the longest
    run first and a lazy one the shortest, and [search] returns the leftmost
    match.  Quantifiers other than [?] apply to a single character or class,
    which is all the patterns of the backend need, and makes the matcher
    structurally recursive. *)

Module Re.
Import Py.

Record flags := { ignorecase : bool; multiline : bool }.

Definition NOFLAGS : flags := {| ignorecase := false; multiline := false |}.
Definition IGNORECASE : flags := {| ignorecase := true; multiline := false |}.

(** A member of a bracketed class. *)
Inductive item :=
| IChar (c : ascii)
| IRange (lo hi : ascii)
| ISpace
| IDigit
| IWord.

(** What matches exactly one character. *)
Inductive atom :=
| ALit (c : ascii)
| AAny
| ASet (negated : bool) (items : list item).

Inductive regex :=
| REmpty
| RAtom (a : atom)
| RSeq (r1 r2 : regex)
| RAlt (r1 r2 : regex)
| ROpt (r : regex)
| RRep (greedy : bool) (lo : nat) (hi : option nat) (a : atom)
| RGroup (i : nat) (r : regex)
| RBol
| REol
| RWordB
| RBehind (a : atom).

Definition item_match (it : item) (c : ascii) : bool :=
  match it with
  | IChar x => Ascii.eqb c x
  | IRange lo hi => ((code lo <=? code c) && (code c <=? code hi))%N
  | ISpace => isspace c
  | IDigit => isdecimal c
  | IWord => isword c
  end.

Definition atom_match (fl : flags) (a : atom) (c : ascii) : bool :=
  match a with
  | ALit x =>
      if ignorecase fl then Ascii.eqb (lower_char c) (lower_char x)
      else Ascii.eqb c x
  | AAny => negb (Ascii.eqb c "010"%char)
  | ASet negated items =>
      xorb negated
        (existsb (fun it =>
           item_match it c
           || (ignorecase fl
               && (item_match it (lower_char c) || item_match it (upper_char c))))
           items)
  end.

Definition captures := list (nat * str).

Definition orelse {A} (x y : option A) : option A :=
  match x with
  | Some _ => x
  | None => y
  end.

Definition hi_allows (hi : option nat) : bool :=
  match hi with
  | Some O => false
  | _ => true
  end.

Section Matcher.
Context {R : Type}.
Variable fl : flags.

(** A continuation receives the character before the position, the text from
    the position on and the groups captured so far. *)
Definition cont := option ascii -> str -> captures -> option R.

Fixpoint rep_atom (greedy : bool) (a : atom) (lo : nat) (hi : option nat)
    (prev : option ascii) (s : str) (caps : captures) (k : cont) : option R :=
  let stop := match lo with O => k prev s caps | S _ => None end in
  let more :=
    match s with
    | c :: s' =>
        if hi_allows hi && atom_match fl a c
        then rep_atom greedy a (Nat.pred lo) (option_map Nat.pred hi)
               (Some c) s' caps k
        else None
    | [] => None
    end in
  if greedy then orelse more stop else orelse stop more.

Definition at_bol (prev : option ascii) : bool :=
  match prev with
  | None => true
  | Some c => multiline fl && Ascii.eqb c "010"%char
  end.

Definition at_eol (s : str) : bool :=
  match s with
  | [] => true
  | c :: s' =>
      Ascii.eqb c "010"%char
      && (multiline fl || match s' with [] => true | _ => false end)
  end.

Definition word_before (prev : option ascii) : bool :=
  match prev with Some c => isword c | None => false end.

Definition word_after (s : str) : bool :=
  match s with c :: _ => isword c | [] => false end.

Fixpoint rmatch (r : regex) (prev : option ascii) (s : str) (caps : captures)
    (k : cont) : option R :=
  match r with
  | REmpty => k prev s caps
  | RAtom a =>
      match s with
      | c :: s' => if atom_match fl a c then k (Some c) s' caps else None
      | [] => None
      end
  | RSeq r1 r2 =>
      rmatch r1 prev s caps (fun p' s' c' => rmatch r2 p' s' c' k)
  | RAlt r1 r2 => orelse (rmatch r1 prev s caps k) (rmatch r2 prev s caps k)
  | ROpt r1 => orelse (rmatch r1 prev s caps k) (k prev s caps)
  | RRep greedy lo hi a => rep_atom greedy a lo hi prev s caps k
  | RGroup i r1 =>
      rmatch r1 prev s caps (fun p' s' c' =>
        k p' s' ((i, firstn (length s - length s') s) :: c'))
  | RBol => if at_bol prev then k prev s caps else None
  | REol => if at_eol s then k prev s caps else None
  | RWordB =>
      if xorb (word_before prev) (word_after s) then k prev s caps else None
  | RBehind a =>
      match prev with
      | Some c => if atom_match fl a c then k prev s caps else None
      | None => None
      end
  end.

End Matcher.

(** A match object: where the match starts, its text, what follows it, and
    the captured groups (the latest capture of a group first). *)
Record match_obj := {
  m_start : nat;
  m_text : str;
  m_after : str;
  m_groups : captures
}.

(** [m.group(i)] for [i >= 1]; [None] when the group took no part. *)
Fixpoint group_in (caps : captures) (i : nat) : option str :=
  match caps with
  | [] => None
  | (j, g) :: rest => if Nat.eqb i j then Some g else group_in rest i
  end.

Definition group (m : match_obj) (i : nat) : option str :=
  group_in (m_groups m) i.

Definition match_here (fl : flags) (r : regex) (prev : option ascii) (s : str)
    (start : nat) : option match_obj :=
  rmatch fl r prev s []
    (fun _ s' caps =>
       Some {| m_start := start;
               m_text := firstn (length s - length s') s;
               m_after := s';
               m_groups := caps |}).

(** [re.match(r, s, flags)]. *)
Definition pmatch (fl : flags) (r : regex) (s : str) : option match_obj :=
  match_here fl r None s 0.

Fixpoint search_from (fl : flags) (r : regex) (prev : option ascii) (s : str)
    (start : nat) : option match_obj :=
  match match_here fl r prev s start with
  | Some m => Some m
  | None =>
      match s with
      | [] => None
      | c :: s' => search_from fl r (Some c) s' (S start)
      end
  end.

(** [re.search(r, s, flags)]. *)
Definition search (fl : flags) (r : regex) (s : str) : option match_obj :=
  search_from fl r None s 0.

(** The successive non-overlapping matches, left to right.  Every step
    leaves a strictly shorter text, so [S (length s)] steps always suffice.
    After an empty match the scan moves on by one character (no pattern the
    backend iterates matches the empty string). *)
Fixpoint finditer_steps (steps : nat) (fl : flags) (r : regex)
    (prev : option ascii) (s : str) (start : nat) : list match_obj :=
  match steps with
  | O => []
  | S steps' =>
      match search_from fl r prev s start with
      | None => []
      | Some m =>
          m ::
          match m_text m with
          | [] =>
              match m_after m with
              | [] => []
              | c :: rest =>
                  finditer_steps steps' fl r (Some c) rest (S (m_start m))
              end
          | c :: t =>
              finditer_steps steps' fl r (Some (List.last t c)) (m_after m)
                (m_start m + length (m_text m))
          end
      end
  end.

(** [re.finditer(r, s, flags)]. *)
Definition finditer (fl : flags) (r : regex) (s : str) : list match_obj :=
  finditer_steps (S (length s)) fl r None s 0.

Fixpoint has_group (r : regex) : bool :=
  match r with
  | RGroup _ _ => true
  | RSeq r1 r2 | RAlt r1 r2 => has_group r1 || has_group r2
  | ROpt r1 => has_group r1
  | _ => false
  end.

(** [re.findall(r, s, flags)] for a pattern with at most one group: the
    group when the pattern has one, the whole match otherwise. *)
Definition findall (fl : flags) (r : regex) (s : str) : list str :=
  map (fun m =>
         if has_group r
         then match group m 1 with Some g => g | None => [] end
         else m_text m)
      (finditer fl r s).

Fixpoint split_at (s : str) (pos : nat) (ms : list match_obj) : list str :=
  match ms with
  | [] => [skipn pos s]
  | m :: ms' =>
      firstn (m_start m - pos) (skipn pos s)
      :: split_at s (m_start m + length (m_text m)) ms'
  end.

(** [re.split(r, s)] for a pattern without groups. *)
Definition split (fl : flags) (r : regex) (s : str) : list str :=
  split_at s 0 (finditer fl r s).

(** *** Writing patterns *)

Definition chars (s : string) : regex :=
  fold_right (fun c r => RSeq (RAtom (ALit c)) r) REmpty
    (list_ascii_of_string s).

Fixpoint seqs (l : list regex) : regex :=
  match l with
  | [] => REmpty
  | [r] => r
  | r :: l' => RSeq r (seqs l')
  end.

Fixpoint alts (l : list regex) : regex :=
  match l with
  | [] => REmpty
  | [r] => r
  | r :: l' => RAlt r (alts l')
  end.

Definition words (l : list string) : regex := alts (map chars l).

Definition SPACE : atom := ASet false [ISpace].
Definition DIGIT : atom := ASet false [IDigit].
Definition zero_or_more (a : atom) : regex := RRep true 0 None a.
Definition one_or_more (a : atom) : regex := RRep true 1 None a.
Definition a_char (c : ascii) : regex := RAtom (ALit c).

End Re.

(** ** [document_processor.py]: the segmenter *)

Module DocumentProcessor.
Import Py Re.

(** Truth value of a list or string: non-empty. *)
Definition truthy {A} (l : list A) : bool :=
  match l with
  | [] => false
  | _ :: _ => true
  end.

Definition NL : ascii := "010"%char.

(** [^(first\s+(?:rest_1|...|rest_n))] *)
Definition header (first : string) (rest : list string) : regex :=
  seqs [RBol; RGroup 1 (seqs [chars first; one_or_more SPACE; words rest])].

(** [^(w_1|...|w_n)\s] *)
Definition keyword_then_space (ws : list string) : regex :=
  seqs [RBol; RGroup 1 (words ws); RAtom SPACE].

(** Every pattern carries the inline flag [(?i)]. *)
Definition SECTION_PATTERNS : list regex :=
  [ header "shipment" ["details"; "information"; "summary"];
    header "shipper" ["information"; "details"; "name"];
    header "consignee" ["information"; "details"; "name"];
    header "carrier" ["information"; "details"; "name"];
    header "rate" ["confirmation"; "details"; "summary"];
    header "pickup" ["details"; "information"; "date"; "time"];
    header "delivery" ["details"; "information"; "date"; "time"];
    seqs [RBol; RGroup 1 (seqs [chars "bill"; one_or_more SPACE; chars "of";
                                one_or_more SPACE; chars "lading"])];
    header "freight" ["charges"; "details"; "bill"];
    header "special" ["instructions"; "notes"; "requirements"];
    header "equipment" ["type"; "details"; "requirements"];
    seqs [RBol; RGroup 1 (seqs [chars "terms"; one_or_more SPACE; chars "and";
                                one_or_more SPACE; chars "conditions"])];
    header "payment" ["terms"; "details"];
    seqs [RBol; RGroup 1 (words ["insurance"; "claims"; "liability"])];
    keyword_then_space ["commodity"; "cargo"; "goods"];
    keyword_then_space ["origin"; "destination"];
    keyword_then_space ["weight"; "dimensions"];
    seqs [RBol; RRep true 1 (Some 3%nat) (ALit "#"); RAtom SPACE] ].

Definition _is_section_boundary (line : str) : bool :=
  let line_stripped := strip line in
  if negb (truthy line_stripped) then false
  else if existsb (fun pattern =>
                     match pmatch IGNORECASE pattern line_stripped with
                     | Some _ => true
                     | None => false
                     end) SECTION_PATTERNS
  then true
  else if isupper line_stripped
          && (3 <? len line_stripped) && (len line_stripped <? 80)
  then true
  else false.

(** [(?<=[.!?])\s+] *)
Definition SENTENCE_END : regex :=
  RSeq (RBehind (ASet false [IChar "."; IChar "!"; IChar "?"])) (one_or_more SPACE).

(** A [for] loop whose body may raise. *)
Fixpoint for_each {A S} (body : S -> A -> res S) (items : list A) (st : S)
    : res S :=
  match items with
  | [] => Ok st
  | x :: rest => bind (body st x) (for_each body rest)
  end.

(** Step 1, one line: the state is [(sections, current_section)]. *)
Definition section_step (st : list str * list str) (line : str)
    : list str * list str :=
  let '(sections, current_section) := st in
  if _is_section_boundary line && truthy current_section
  then (sections ++ [join [NL] current_section], [line])
  else (sections, current_section ++ [line]).

Definition split_sections (lines : list str) : list str :=
  let '(sections, current_section) := fold_left section_step lines ([], []) in
  if truthy current_section
  then sections ++ [join [NL] current_section]
  else sections.

(** One window of the character-level split. *)
Definition window (sentence : str) (chunk_size : Z) (i : Z) : str :=
  slice sentence i (i + chunk_size).

Definition emit_window (sentence : str) (chunk_size : Z) (chunks : list str)
    (i : Z) : list str :=
  let sub := window sentence chunk_size i in
  if truthy (strip sub) then chunks ++ [strip sub] else chunks.

(** The loop [for i in range(0, len(sentence), chunk_size - chunk_overlap)]. *)
Definition hard_split (sentence : str) (chunk_size chunk_overlap : Z)
    (chunks : list str) : res (list str) :=
  bind (range 0 (len sentence) (chunk_size - chunk_overlap))
       (fun starts => Ok (fold_left (emit_window sentence chunk_size) starts chunks)).

(** Step 2, one sentence: the state is [(chunks, current_chunk)]. *)
Definition pack_sentence (chunk_size chunk_overlap : Z)
    (st : list str * str) (sentence : str) : res (list str * str) :=
  let '(chunks, current_chunk) := st in
  if len current_chunk + len sentence + 1 <=? chunk_size
  then Ok (chunks,
           current_chunk
           ++ (if truthy current_chunk then lit " " else lit "") ++ sentence)
  else
    let chunks :=
      if truthy current_chunk then chunks ++ [strip current_chunk] else chunks in
    if chunk_size <? len sentence
    then bind (hard_split sentence chunk_size chunk_overlap chunks)
              (fun chunks' => Ok (chunks', lit ""))
    else Ok (chunks, sentence).

(** Step 2, one section. *)
Definition chunk_section (chunk_size chunk_overlap : Z) (chunks : list str)
    (section : str) : res (list str) :=
  let section := strip section in
  if negb (truthy section) then Ok chunks
  else if len section <=? chunk_size then Ok (chunks ++ [section])
  else
    let sentences := split NOFLAGS SENTENCE_END section in
    bind (for_each (pack_sentence chunk_size chunk_overlap) sentences
            (chunks, lit ""))
         (fun '(chunks, current_chunk) =>
            if truthy (strip current_chunk)
            then Ok (chunks ++ [strip current_chunk])
            else Ok chunks).

Definition intelligent_chunk (text : str) (chunk_size chunk_overlap : Z)
    : res (list str) :=
  if negb (truthy (strip text)) then Ok []
  else
    let lines := split_on NL text in
    let sections := split_sections lines in
    bind (for_each (chunk_section chunk_size chunk_overlap) sections [])
         (fun chunks => Ok (List.filter (fun c => 20 <=? len c) chunks)).

(** The defaults of the signature. *)
Definition DEFAULT_CHUNK_SIZE : Z := 512.
Definition DEFAULT_CHUNK_OVERLAP : Z := 64.

(** [process_and_store], the indexing of the chunks: chunk [i] of the list is
    stored with [chunk_index = i] for [i in range(len(chunks))]. *)
Record Chunk := { text : str; index : Z }.

Definition chunk_indices (chunks : list str) : res (list Z) :=
  range 0 (len chunks) 1.

Definition indexed_chunks (chunks : list str) : res (list Chunk) :=
  bind (chunk_indices chunks)
       (fun idx =>
          Ok (map (fun '(t, i) => {| text := t; index := i |})
                  (combine chunks idx))).

End DocumentProcessor.

(** ** Python floats

    Arithmetic and comparisons are the binary64 primitives.  What CPython
    computes through decimal conversion ([round], [float(str)], the [.2f]
    format, [int / int]) is built on [of_ratio], the correctly rounded
    quotient of two integers. *)

Module PyFloat.
Import Py.
Local Open Scope float_scope.

(** [max(a, b)]: [b] replaces [a] only when it compares greater. *)
Definition py_max (a b : float) : float := if a <? b then b else a.

(** [min(a, b)]: [b] replaces [a] only when it compares smaller. *)
Definition py_min (a b : float) : float := if b <? a then b else a.

(** The float nearest to [num / den] (ties to even), for [0 <= num]; the sign
    is given apart so that zero keeps it. *)
Definition of_ratio (negative : bool) (num : Z) (den : positive) : float :=
  match num with
  | Zpos p =>
      SF2Prim (SFdiv prec emax (S754_finite negative p 0)
                 (S754_finite false den 0))
  | _ => if negative then neg_zero else zero
  end.

(** [float(n)] for an integer. *)
Definition of_int (n : Z) : float := of_ratio (n <? 0)%Z (Z.abs n) 1.

(** [a / b] for integers [0 <= a] and [0 < b]. *)
Definition int_truediv (a b : Z) : float := of_ratio false a (Z.to_pos b).

(** The integer nearest to [num / den], ties to even ([0 <= num], [0 < den]). *)
Definition round_half_even (num den : Z) : Z :=
  let q := (num / den)%Z in
  let r := (num mod den)%Z in
  if (2 * r <? den)%Z then q
  else if (den <? 2 * r)%Z then (q + 1)%Z
  else if Z.even q then q else (q + 1)%Z.

(** The integer nearest to [m * 2^e * scale]. *)
Definition scaled_nearest (m : positive) (e : Z) (scale : Z) : Z :=
  if (0 <=? e)%Z then (Zpos m * 2 ^ e * scale)%Z
  else round_half_even (Zpos m * scale) (2 ^ (- e)).

(** [round(x, ndigits)]: the decimal with [ndigits] places nearest to the
    exact value of [x], read back as a float; zeros, infinities and NaN are
    returned as they are. *)
Definition py_round (x : float) (ndigits : nat) : float :=
  match Prim2SF x with
  | S754_finite s m e =>
      let scale := (10 ^ Z.of_nat ndigits)%Z in
      of_ratio s (scaled_nearest m e scale) (Z.to_pos scale)
  | _ => x
  end.

Definition digits_of (n : Z) : str :=
  list_ascii_of_string (NilZero.string_of_uint (N.to_uint (Z.to_N n))).

Definition zero_pad (width : nat) (s : str) : str :=
  repeat "0"%char (width - length s) ++ s.

(** [f"{x:.Nf}"] for [N = ndigits > 0]. *)
Definition format_fixed (x : float) (ndigits : nat) : str :=
  let sign (s : bool) := if s then lit "-" else lit "" in
  match Prim2SF x with
  | S754_nan => lit "nan"
  | S754_infinity s => sign s ++ lit "inf"
  | S754_zero s => sign s ++ lit "0." ++ repeat "0"%char ndigits
  | S754_finite s m e =>
      let scale := (10 ^ Z.of_nat ndigits)%Z in
      let n := scaled_nearest m e scale in
      sign s ++ digits_of (n / scale) ++ lit "."
      ++ zero_pad ndigits (digits_of (n mod scale))
  end.

Fixpoint digits_value (acc : Z) (s : str) : option Z :=
  match s with
  | [] => Some acc
  | c :: s' =>
      if isdecimal c
      then digits_value (10 * acc + (Z.of_N (code c) - 48))%Z s'
      else None
  end.

Fixpoint span_digits (s : str) : str * str :=
  match s with
  | c :: s' =>
      if isdecimal c
      then let '(d, rest) := span_digits s' in (c :: d, rest)
      else ([], s)
  | [] => ([], [])
  end.

(** [float(s)] on plain decimal numerals: blanks around, an optional sign,
    digits with at most one point and at least one digit.  [None] is the
    [ValueError] the callers catch.  (Exponents, [inf], [nan] and underscores
    are left out: no text a capture group of the backend hands to [float] can
    hold their characters.) *)
Definition py_float (s : str) : option float :=
  let s := strip s in
  let '(negative, body) :=
    match s with
    | "-"%char :: r => (true, r)
    | "+"%char :: r => (false, r)
    | _ => (false, s)
    end in
  let '(ip, rest) := span_digits body in
  match rest with
  | [] =>
      match ip with
      | [] => None
      | _ => option_map (fun n => of_ratio negative n 1) (digits_value 0 ip)
      end
  | "."%char :: fp =>
      match ip ++ fp with
      | [] => None
      | ds =>
          option_map
            (fun n => of_ratio negative n (Z.to_pos (10 ^ len fp)))
            (digits_value 0 ds)
      end
  | _ => None
  end.

End PyFloat.

(** ** [guardrails.py]: confidence scoring and guardrails *)

Module Guardrails.
Import Py Re PyFloat DocumentProcessor.
Import stdpp.base stdpp.gmap stdpp.strings.
Local Open Scope float_scope.

(** [sum(xs)] over floats: the additions from left to right, starting from
    0.  (CPython 3.12 and later also carry a compensation term for the
    rounding errors; nothing stated below depends on the digits of a sum.) *)
Definition fsum (xs : list float) : float := fold_left PrimFloat.add xs 0.

Definition compute_retrieval_confidence (similarity_scores : list float) : float :=
  match similarity_scores with
  | [] => 0
  | top_score :: others =>
      let mean_score := fsum similarity_scores / of_int (len similarity_scores) in
      let top_signal := py_min 1 (py_max 0 top_score) in
      let gap_signal :=
        match others with
        | second :: _ => let gap := top_score - second in py_min 1 (gap * of_int 5)
        | [] => 0.5
        end in
      let mean_signal := py_min 1 (py_max 0 mean_score) in
      let confidence := (0.5 * top_signal) + (0.2 * gap_signal) + (0.3 * mean_signal) in
      py_round (py_min 1 (py_max 0 confidence)) 4
  end.

Definition stopwords : gset str :=
  list_to_set (map lit
    [ "the"; "and"; "for"; "are"; "but"; "not"; "you"; "all"; "can"; "had";
      "her"; "was"; "one"; "our"; "out"; "has"; "have"; "been"; "from";
      "they"; "this"; "that"; "with"; "will"; "would"; "there"; "their";
      "what"; "about"; "which"; "when"; "make"; "than"; "them"; "some";
      "time"; "very"; "your"; "just"; "know"; "take"; "come"; "could";
      "into"; "year"; "also"; "back"; "after"; "only"; "most"; "other";
      "over"; "such"; "does"; "should"; "being"; "found"; "based";
      "document"; "information"; "please"; "note"; "mentioned"; "according" ]%string).

(** [\b[a-z]{4,}\b] *)
Definition WORD4 : regex :=
  seqs [RWordB; RRep true 4 None (ASet false [IRange "a" "z"]); RWordB].

(** [sig_words]: the words of the lowered answer that are no stopwords. *)
Definition significant_words (answer : str) : list str :=
  let answer_lower := lower answer in
  let words := findall NOFLAGS WORD4 answer_lower in
  List.filter (fun w => negb (bool_decide (w ∈ stopwords))) words.

Definition compute_answer_coverage (answer : str) (source_texts : list str) : float :=
  if negb (truthy answer) || negb (truthy source_texts) then 0
  else
    let combined_sources := lower (Py.join (lit " ") source_texts) in
    let sig_words := significant_words answer in
    if negb (truthy sig_words) then 0.5
    else
      let covered := len (List.filter (fun w => contains w combined_sources) sig_words) in
      let coverage := int_truediv covered (len sig_words) in
      py_round coverage 4.

(** A retrieved chunk, as [retrieve_chunks] builds it. *)
Record chunk := {
  text : str;
  chunk_index : Z;
  similarity_score : float
}.

(** [set(words)], listed in the order of first occurrence.  (Python leaves the
    order in which a set is traversed open; it only decides in which order
    the fractions below are added up.) *)
Definition distinct (ws : list str) : list str :=
  List.rev (fold_left (fun seen w => if existsb (fun v => bool_decide (v = w)) seen
                                     then seen else w :: seen) ws []).

Definition compute_chunk_agreement (chunks : list chunk) (answer : str) : float :=
  if negb (truthy chunks) || negb (truthy answer) then 0
  else
    let answer_lower := lower answer in
    let key_terms := distinct (findall NOFLAGS WORD4 answer_lower) in
    if negb (truthy key_terms) then 0.5
    else
      let chunk_texts := map (fun c => lower (text c)) chunks in
      let term_chunk_counts :=
        map (fun term =>
               let count := len (List.filter (contains term) chunk_texts) in
               int_truediv count (len chunk_texts))
            key_terms in
      let avg_agreement := fsum term_chunk_counts / of_int (len term_chunk_counts) in
      py_round avg_agreement 4.

Definition compute_composite_confidence (similarity_scores : list float)
    (answer : str) (source_texts : list str) (chunks : list chunk) : float :=
  let retrieval_conf := compute_retrieval_confidence similarity_scores in
  let coverage_conf := compute_answer_coverage answer source_texts in
  let agreement_conf := compute_chunk_agreement chunks answer in
  let composite :=
    (0.40 * retrieval_conf) + (0.35 * coverage_conf) + (0.25 * agreement_conf) in
  py_round (py_min 1 (py_max 0 composite)) 4.

Definition HALLUCINATION_PHRASES : list str :=
  map lit
    [ "as an ai"; "i don't have access"; "i cannot determine";
      "based on my training"; "as a language model"; "i'm not sure";
      "general knowledge"; "typically in logistics"; "usually";
      "in my experience"; "commonly" ]%string.

(** The warning sign and the dash of the fixed replies lie outside the range
    of [ascii]; the literals hold them as the bytes the source file has. *)
Definition NOT_CONFIDENT : str :=
  lit "⚠️ Not found in document — The system could not find a confident answer to this question in the uploaded document. The information may not be present, or the question may need to be rephrased.".

Definition NO_RELEVANT_CONTENT : str :=
  lit "⚠️ Not found in document — No relevant content was found that matches your question. The information may not be present in this document.".

Definition CAUTION : str :=
  lit "⚠️ The answer may not be fully grounded in the document. Please verify: ".

Definition NO_MEANINGFUL_ANSWER : str :=
  lit "⚠️ Not found in document — Could not generate a meaningful answer.".

Definition low_confidence_message (confidence threshold : float) : str :=
  lit "Confidence score (" ++ format_fixed confidence 2
  ++ lit ") is below the threshold (" ++ format_fixed threshold 2
  ++ lit "). The answer may not be reliably grounded in the document.".

Definition low_similarity_message (top : float) : str :=
  lit "Top retrieval similarity (" ++ format_fixed top 2
  ++ lit ") is very low. No relevant content was found in the document.".

Definition hallucination_message (phrase : str) : str :=
  lit "Potential hallucination detected: answer contains phrase '" ++ phrase
  ++ lit "'. The response may not be grounded in the document.".

Definition TOO_SHORT_MESSAGE : str :=
  lit "Answer is too short or empty — likely no relevant information found.".

(** The result triple [(triggered, guardrail_message, final_answer)]. *)
Definition decision : Type := bool * option str * str.

(** The loop over [HALLUCINATION_PHRASES], with what follows it as [rest]. *)
Fixpoint check_phrases (phrases : list str) (answer answer_lower : str)
    (rest : decision) : decision :=
  match phrases with
  | [] => rest
  | phrase :: phrases' =>
      if contains phrase answer_lower
      then (true, Some (hallucination_message phrase), CAUTION ++ answer)
      else check_phrases phrases' answer answer_lower rest
  end.

Definition DEFAULT_THRESHOLD : float := 0.45.

(** [similarity_scores and similarity_scores[0] < 0.25], with the score. *)
Definition low_similarity (similarity_scores : list float) : option float :=
  match similarity_scores with
  | top :: _ => if top <? 0.25 then Some top else None
  | [] => None
  end.

Definition check_guardrails (answer : str) (confidence : float)
    (similarity_scores : list float) (threshold : float) : decision :=
  if confidence <? threshold
  then (true, Some (low_confidence_message confidence threshold), NOT_CONFIDENT)
  else
    match low_similarity similarity_scores with
    | Some top => (true, Some (low_similarity_message top), NO_RELEVANT_CONTENT)
    | None =>
        check_phrases HALLUCINATION_PHRASES answer (lower answer)
          (if (len (strip answer) <? 10)%Z
           then (true, Some TOO_SHORT_MESSAGE, NO_MEANINGFUL_ANSWER)
           else (false, None, answer))
    end.

End Guardrails.

(** ** [extractor.py]: the junk judge, the label scanner and the rate *)

Module Extractor.
Import Py Re PyFloat DocumentProcessor.
Import stdpp.base stdpp.gmap stdpp.strings.
Local Open Scope Z_scope.

Definition skip_words : gset str :=
  list_to_set (map lit
    [ "information"; "details"; "section"; "data"; "summary";
      "n/a"; "na"; "none"; "null"; "tbd"; "---"; "===" ]%string).

Definition header_keywords : gset str :=
  list_to_set (map lit
    [ "carrier"; "mc"; "phone"; "equipment"; "agreed"; "amount";
      "size"; "feet"; "column"; "field"; "value"; "type"; "name";
      "address"; "city"; "state"; "zip"; "contact"; "email"; "fax" ]%string).

(** [^[\s\-]+$] *)
Definition DASHES_ONLY : regex :=
  seqs [RBol; one_or_more (ASet false [ISpace; IChar "-"]); REol].

(** The tests of [_is_junk_value], in the order the function makes them. *)

Definition too_short (val : str) : bool :=
  negb (truthy val) || (len (strip val) <? 2).

Definition is_skip_word (val : str) : bool :=
  let val_lower := strip (lower val) in
  bool_decide (val_lower ∈ skip_words).

Definition is_separator (val : str) : bool :=
  startswith val (lit "---") || startswith val (lit "===").

Definition is_dashes (val : str) : bool :=
  match pmatch NOFLAGS DASHES_ONLY val with
  | Some _ => true
  | None => false
  end.

(** [words = set(val_lower.split())] *)
Definition word_set (val : str) : gset str :=
  list_to_set (split_ws (strip (lower val))).

Definition header_overlap (val : str) : Z :=
  Z.of_nat (size (word_set val ∩ header_keywords)).

Definition is_header_row (val : str) : bool :=
  (3 <=? header_overlap val) && (4 <=? Z.of_nat (size (word_set val))).

Definition is_table_row (val : str) : bool :=
  contains (lit "|") val && (2 <=? count_char "|" val).

Definition _is_junk_value (val : str) : bool :=
  if too_short val then true
  else if is_skip_word val then true
  else if is_separator val then true
  else if is_dashes val then true
  else if is_header_row val then true
  else if is_table_row val then true
  else false.

Definition search_flags (multiline : bool) : flags :=
  {| ignorecase := true; multiline := multiline |}.

(** [val[:n]] *)
Definition upto (n : Z) (val : str) : str := slice val 0 n.

(** [m.group(1).strip()]; a group that took no part is [None], which has no
    [strip]. *)
Definition group1_stripped (m : match_obj) : res str :=
  match group m 1 with
  | Some g => Ok (strip g)
  | None => Raise (AttributeError "'NoneType' object has no attribute 'strip'")
  end.

Fixpoint _find_value_after_label (text : str) (label_patterns : list regex)
    (multiline : bool) : res (option str) :=
  match label_patterns with
  | [] => Ok None
  | pattern :: rest =>
      match search (search_flags multiline) pattern text with
      | Some m =>
          bind (group1_stripped m) (fun val =>
            if _is_junk_value val
            then _find_value_after_label text rest multiline
            else Ok (Some (upto 150 val)))
      | None => _find_value_after_label text rest multiline
      end
  end.

(** [\s*:\s*(.+?)(?:\n|$)], the end of a pattern for [Label: value]. *)
Definition LINE_VALUE : regex :=
  seqs [zero_or_more SPACE; a_char ":"; zero_or_more SPACE;
        RGroup 1 (RRep false 1 None AAny);
        RAlt (a_char NL) REol].

(** The label patterns of the shipper, in [_extract_with_regex]. *)
Definition shipper_patterns : list regex :=
  [ seqs [chars "shipper"; zero_or_more SPACE; ROpt (chars "name"); LINE_VALUE];
    seqs [chars "ship"; one_or_more SPACE; chars "from"; LINE_VALUE];
    seqs [chars "origin"; zero_or_more SPACE; ROpt (words ["name"; "company"]);
          LINE_VALUE];
    seqs [chars "pick"; zero_or_more SPACE; ROpt (a_char "-");
          zero_or_more SPACE; chars "up"; one_or_more SPACE;
          words ["location"; "company"; "name"]; LINE_VALUE] ].

(** *** The rate, in [_extract_with_regex] *)

(** [\s*[:=]?\s*\$?\s*] *)
Definition SEPARATOR : regex :=
  seqs [zero_or_more SPACE; ROpt (RAtom (ASet false [IChar ":"; IChar "="]));
        zero_or_more SPACE; ROpt (a_char "$"); zero_or_more SPACE].

(** [([\d,]+\.?\d{0,2})] *)
Definition NUMBER : regex :=
  RGroup 1 (seqs [one_or_more (ASet false [IDigit; IChar ","]); ROpt (a_char ".");
                  RRep true 0 (Some 2%nat) DIGIT]).

Definition rate_patterns : list regex :=
  [ seqs [ROpt (seqs [chars "carrier"; zero_or_more SPACE; chars "pay"; zero_or_more SPACE]);
          chars "total"; SEPARATOR; NUMBER; zero_or_more SPACE; chars "USD"];
    seqs [chars "total"; zero_or_more SPACE;
          alts [chars "rate"; seqs [chars "charge"; ROpt (a_char "s")];
                chars "due"; chars "amount"; chars "cost"];
          SEPARATOR; NUMBER];
    seqs [alts [chars "agreed"; chars "contracted";
                seqs [chars "all"; zero_or_more (ASet false [ISpace; IChar "-"]);
                      chars "in"]];
          zero_or_more SPACE; words ["rate"; "amount"; "price"]; SEPARATOR; NUMBER];
    seqs [chars "TOTAL"; zero_or_more SPACE; ROpt (chars "DUE"); SEPARATOR; NUMBER];
    seqs [chars "line"; zero_or_more SPACE; chars "haul"; zero_or_more SPACE;
          ROpt (chars "rate"); SEPARATOR; NUMBER];
    seqs [ROpt (seqs [chars "freight"; one_or_more SPACE]); chars "rate";
          SEPARATOR; NUMBER];
    seqs [chars "amount"; zero_or_more SPACE;
          ROpt (RAtom (ASet false [IChar ":"; IChar "="])); zero_or_more SPACE;
          a_char "$"; zero_or_more SPACE; NUMBER];
    seqs [ROpt (seqs [chars "agreed"; one_or_more SPACE]); chars "amount";
          zero_or_more SPACE; chars "(USD)"; zero_or_more SPACE; RRep false 0 None AAny;
          ROpt (a_char "$"); zero_or_more SPACE; NUMBER] ].

(** [\$\s*([\d,]+\.\d{2})] *)
Definition DOLLAR_AMOUNT : regex :=
  seqs [a_char "$"; zero_or_more SPACE;
        RGroup 1 (seqs [one_or_more (ASet false [IDigit; IChar ","]); a_char ".";
                        RRep true 2 (Some 2%nat) DIGIT])].

(** [s.replace(",", "")] *)
Definition without_commas (s : str) : str :=
  List.filter (fun c => negb (Ascii.eqb c ",")) s.

(** [10 < v < 1000000] *)
Definition plausible_rate (v : float) : bool :=
  ((of_int 10 <? v) && (v <? of_int 1000000))%float.

(** What one labelled pattern contributes: the captured text, cleaned. *)
Definition rate_candidate (pattern : regex) (text : str) : res (option str) :=
  match search IGNORECASE pattern text with
  | Some m =>
      match group m 1 with
      | Some g => Ok (Some (strip (without_commas g)))
      | None =>
          Raise (AttributeError "'NoneType' object has no attribute 'replace'")
      end
  | None => Ok None
  end.

(** [try: float(rate_val) ... except ValueError]: the candidate counts when
    it parses to a plausible number. *)
Definition accepted_rate (rate_val : str) : bool :=
  match py_float rate_val with
  | Some rate_num => plausible_rate rate_num
  | None => false
  end.

(** The loop over [rate_patterns]. *)
Fixpoint labelled_rate (patterns : list regex) (text : str) : res (option str) :=
  match patterns with
  | [] => Ok None
  | pattern :: rest =>
      bind (rate_candidate pattern text) (fun candidate =>
        match candidate with
        | Some rate_val =>
            if accepted_rate rate_val then Ok (Some rate_val)
            else labelled_rate rest text
        | None => labelled_rate rest text
        end)
  end.

(** [amounts]: the plausible values among the dollar amounts of the text. *)
Definition dollar_amounts (text : str) : list float :=
  flat_map (fun m =>
              match py_float (without_commas m) with
              | Some v => if plausible_rate v then [v] else []
              | None => []
              end)
           (findall NOFLAGS DOLLAR_AMOUNT text).

(** [max(amounts)] for a non-empty list. *)
Definition max_of (first : float) (others : list float) : float :=
  fold_left py_max others first.

(** The value [_extract_with_regex] leaves in [result["rate"]] ([None] when
    the key stays absent); no other part of the function writes that key. *)
Definition _extract_with_regex_rate (text : str) : res (option str) :=
  bind (labelled_rate rate_patterns text) (fun labelled =>
    match labelled with
    | Some rate_val => Ok (Some rate_val)
    | None =>
        match dollar_amounts text with
        | [] => Ok None
        | first :: others => Ok (Some (format_fixed (max_of first others) 2))
        end
    end).

End Extractor.

(** ** Notions the properties are stated with *)

Module Notions.
Import Py Re PyFloat DocumentProcessor.

(** A string is trimmed when neither end is blank. *)
Definition trimmed (s : str) : Prop := strip s = s.

(** Two windows share exactly [o] characters when the last [o] characters of
    the first are the first [o] characters of the second. *)
Definition overlaps_by (o : nat) (w1 w2 : str) : Prop :=
  (o <= length w1)%nat /\ (o <= length w2)%nat
  /\ skipn (length w1 - o) w1 = firstn o w2.

(** Of the chunks a hard split emits, every consecutive pair other than the
    last shares exactly [chunk_overlap] characters. *)
Definition every_pair_but_last_overlaps (sentence : str)
    (chunk_size chunk_overlap : Z) : Prop :=
  forall emitted cur,
    pack_sentence chunk_size chunk_overlap ([], lit "") sentence
    = Ok (emitted, cur) ->
    forall k, (S (S k) < length emitted)%nat ->
      overlaps_by (Z.to_nat chunk_overlap) (nth k emitted []) (nth (S k) emitted []).

(** The float nearest to [k / 10000]. *)
Definition ten_thousandth (k : Z) : float := of_ratio false k 10000.

(** [0.0 <= x <= 1.0], as floats compare. *)
Definition in_unit (x : float) : bool := ((0 <=? x) && (x <=? 1))%float.


(** The first phrase of the list that the lowered answer holds. *)
Definition first_phrase (answer : str) : option str :=
  find (fun phrase => contains phrase (lower answer))
    Guardrails.HALLUCINATION_PHRASES.

(** Group [i] lies on every path through the pattern. *)
Fixpoint always_captures (i : nat) (r : regex) : bool :=
  match r with
  | RGroup j r1 => Nat.eqb i j || always_captures i r1
  | RSeq r1 r2 => always_captures i r1 || always_captures i r2
  | RAlt r1 r2 => always_captures i r1 && always_captures i r2
  | _ => false
  end.

(** Every group captured in [caps] is captured in [caps']. *)
Definition extends (caps caps' : captures) : Prop :=
  forall i, group_in caps i <> None -> group_in caps' i <> None.

(** What a label pattern offers: the trimmed first group of its leftmost
    match. *)
Definition captured (text : str) (multiline : bool) (pattern : regex)
    : option str :=
  match search (Extractor.search_flags multiline) pattern text with
  | Some m => option_map strip (group m 1)
  | None => None
  end.

(** A label pattern is passed over when it does not match or offers junk. *)
Definition passed_over (text : str) (multiline : bool) (pattern : regex) : Prop :=
  captured text multiline pattern = None
  \/ exists val, captured text multiline pattern = Some val
                 /\ Extractor._is_junk_value val = true.

(** A rate pattern is rejected when it does not match, or when its value
    does not parse, or parses outside the open interval. *)
Definition rate_rejected (text : str) (pattern : regex) : Prop :=
  Extractor.rate_candidate pattern text = Ok None
  \/ exists rate_val,
       Extractor.rate_candidate pattern text = Ok (Some rate_val)
       /\ Extractor.accepted_rate rate_val = false.

End Notions.

(** ** More notions *)

Module MoreNotions.
Import Py Re PyFloat DocumentProcessor Notions.

(** The groups of lines behind the state of the section loop: the closed
    sections, then the section being gathered. *)
Definition grouped (groups : list (list str)) (st : list str * list str) : Prop :=
  exists closed,
    groups = closed ++ (if truthy (snd st) then [snd st] else [])
    /\ fst st = map (join [NL]) closed
    /\ (closed <> [] -> snd st <> []).

(** Where the groups are cut: every group is non-empty, every group after
    the first starts with a boundary line, and no other line of a group is
    one. *)
Definition cut_at_boundaries (groups : list (list str)) : Prop :=
  Forall (fun g => g <> []) groups
  /\ Forall (fun g => _is_section_boundary (hd [] g) = true) (tl groups)
  /\ Forall (fun g => Forall (fun l => _is_section_boundary l = false) (tl g))
       groups.

(** A chunk that respects the size limit. *)
Definition within (chunk_size : Z) (c : str) : Prop := len c <= chunk_size.

End MoreNotions.

(** ** The retriever: [retriever.py] *)

Module Retriever.
Import Py Re PyFloat DocumentProcessor Guardrails.
Import stdpp.base stdpp.gmap stdpp.strings.
Local Open Scope Z_scope.

(** [items.sort(reverse=True, key=key)]: the keys descend, and items of equal
    key keep the order they had. *)
Fixpoint insert_reverse {A} (key : A -> Z) (x : A) (sorted : list A) : list A :=
  match sorted with
  | [] => [x]
  | y :: rest =>
      if key x <? key y then y :: insert_reverse key x rest else x :: sorted
  end.

Definition sort_reverse {A} (key : A -> Z) (items : list A) : list A :=
  fold_right (insert_reverse key) [] items.

(** [sentences = [s.strip() for s in text.split('.') if s.strip()]] *)
Definition sentences_of (text : str) : list str :=
  map strip (List.filter (fun s => truthy (strip s)) (split_on "." text)).

(** [len(q_words & sent_words)] *)
Definition word_overlap (q_words : gset str) (sent : str) : Z :=
  let sent_words : gset str := list_to_set (split_ws (lower sent)) in
  Z.of_nat (size (q_words ∩ sent_words)).

(** [scored_sentences], before it is sorted. *)
Definition score_sentences (question : str) (text : str) : list (Z * str) :=
  let sentences := sentences_of text in
  let question_lower := lower question in
  let q_words : gset str := list_to_set (split_ws question_lower) in
  map (fun sent => (word_overlap q_words sent, sent)) sentences.

(** [text[:500] + ("..." if len(text) > 500 else "")] *)
Definition beginning (text : str) : str :=
  slice text 0 500 ++ (if 500 <? len text then lit "..." else lit "").

Definition _extractive_fallback (question : str) (chunks : list chunk) : str :=
  match chunks with
  | [] => lit "No relevant information found."
  | best_chunk :: _ =>
      let text := text best_chunk in
      let scored_sentences := sort_reverse fst (score_sentences question text) in
      match scored_sentences with
      | (overlap, _) :: _ =>
          if 0 <? overlap
          then let top := slice scored_sentences 0 3 in
               Py.join (lit ". ") (map snd top) ++ lit "."
          else beginning text
      | [] => beginning text
      end
  end.

Record AskResponse := {
  answer : str;
  confidence_score : float;
  sources : list chunk;
  guardrail_triggered : bool;
  guardrail_message : option str
}.

Definition NO_CONTENT : str :=
  lit "⚠️ No relevant content found in the document for this question.".

Definition NO_CHUNKS : str :=
  lit "No chunks were retrieved from the vector store.".

(** [answer_question], from the chunks [retrieve_chunks] returned on; the
    call to the language model is an input: [generated] is the text it
    replied with, and [None] when the call raised, for a missing key or for
    any other reason. *)
Definition answer_question (question : str) (chunks : list chunk)
    (generated : option str) (confidence_threshold : float) : AskResponse :=
  if negb (truthy chunks)
  then {| answer := NO_CONTENT;
          confidence_score := 0%float;
          sources := [];
          guardrail_triggered := true;
          guardrail_message := Some NO_CHUNKS |}
  else
    let similarity_scores := map similarity_score chunks in
    let source_texts := map text chunks in
    let answer :=
      match generated with
      | Some content => strip content
      | None => _extractive_fallback question chunks
      end in
    let confidence :=
      compute_composite_confidence similarity_scores answer source_texts chunks in
    let '(triggered, guardrail_msg, final_answer) :=
      check_guardrails answer confidence similarity_scores confidence_threshold in
    {| answer := final_answer;
       confidence_score := confidence;
       sources := chunks;
       guardrail_triggered := triggered;
       guardrail_message := guardrail_msg |}.

End Retriever.

(** ** More of the extractor: [extractor.py] *)

Module ExtractorFields.
Import Py Re PyFloat DocumentProcessor Extractor.
Import stdpp.base stdpp.gmap stdpp.strings.
Local Open Scope Z_scope.

(** *** [_find_next_value_line] *)

(** What a call can raise: an exception of the parts above, the
    [IndexError] of a subscript, or the [TypeError] of a comparison with
    [None]. *)
Inductive failure :=
| Exn (e : exn)
| IndexError (msg : string)
| TypeError (msg : string).

Inductive outcome (A : Type) :=
| Return (a : A)
| Fail (f : failure).
Arguments Return {A} a.
Arguments Fail {A} f.

(** [l[j]]: a negative index counts from the end; [None] is the
    [IndexError]. *)
Definition getitem {A} (l : list A) (j : Z) : option A :=
  let i := if j <? 0 then j + len l else j in
  if i <? 0 then None else nth_error l (Z.to_nat i).

(** [^(?:name|company)\s*:\s*(.+)] *)
Definition NAME_LINE : regex :=
  seqs [RBol; words ["name"; "company"]; zero_or_more SPACE; a_char ":";
        zero_or_more SPACE; RGroup 1 (RRep true 1 None AAny)].

(** [^(?:address|contact|phone|email|fax|city|state|zip)\s*:] *)
Definition SUB_LABEL : regex :=
  seqs [RBol;
        words ["address"; "contact"; "phone"; "email"; "fax"; "city"; "state"; "zip"];
        zero_or_more SPACE; a_char ":"].

(** The loop over [j], with its [continue]s and [return]s. *)
Fixpoint scan_lines (lines : list str) (js : list Z) : outcome (option str) :=
  match js with
  | [] => Return None
  | j :: js' =>
      match getitem lines j with
      | None => Fail (IndexError "list index out of range")
      | Some line =>
          let candidate := strip line in
          if negb (truthy candidate) then scan_lines lines js'
          else if startswith candidate (lit "---") || startswith candidate (lit "===")
          then scan_lines lines js'
          else if _is_junk_value candidate then scan_lines lines js'
          else
            match pmatch IGNORECASE NAME_LINE candidate with
            | Some name_match =>
                match group1_stripped name_match with
                | Ok name => Return (Some name)
                | Raise e => Fail (Exn e)
                end
            | None =>
                match pmatch IGNORECASE SUB_LABEL candidate with
                | Some _ => scan_lines lines js'
                | None => Return (Some candidate)
                end
            end
      end
  end.

Definition _find_next_value_line (lines : list str) (start_idx skip_count : Z)
    : outcome (option str) :=
  match range (start_idx + 1) (Z.min (start_idx + skip_count + 1) (len lines)) 1 with
  | Ok js => scan_lines lines js
  | Raise e => Fail (Exn e)
  end.

(** *** The currency, in [_extract_with_regex] *)

(** [c.upper()], as code points: the partners of 181 and 255 lie outside the
    range of [ascii], and 223 becomes two letters. *)
Definition upper_points (c : ascii) : list N :=
  if (code c =? 223)%N then [83; 83]%N
  else if (code c =? 181)%N then [924]%N
  else if (code c =? 255)%N then [376]%N
  else [code (upper_char c)].

(** [s.upper()] *)
Definition upper (s : str) : list N := flat_map upper_points s.

(** The code points of a string. *)
Definition points (s : str) : list N := map code s.

Fixpoint starts_with_points (s pre : list N) : bool :=
  match pre, s with
  | [], _ => true
  | p :: pre', c :: s' => (c =? p)%N && starts_with_points s' pre'
  | _ :: _, [] => false
  end.

(** [sub in s], on code points. *)
Fixpoint contains_points (sub s : list N) : bool :=
  starts_with_points s sub ||
  match s with
  | [] => false
  | _ :: s' => contains_points sub s'
  end.

(** The euro sign, U+20AC, and the pound sign, U+00A3. *)
Definition EURO : list N := [8364%N].
Definition POUND : list N := [163%N].

(** The value [_extract_with_regex] leaves in [result["currency"]]. *)
Definition _extract_with_regex_currency (text : str) : option str :=
  let text_upper := upper text in
  if contains (lit "$") text || contains_points (points (lit "USD")) text_upper
  then Some (lit "USD")
  else if contains_points (points (lit "CAD")) text_upper
  then Some (lit "CAD")
  else if contains_points (points (lit "EUR")) text_upper
          || contains_points EURO (points text)
  then Some (lit "EUR")
  else if contains_points (points (lit "GBP")) text_upper
          || contains_points POUND (points text)
  then Some (lit "GBP")
  else None.

End ExtractorFields.

(** ** What a pattern can match

    The matcher above fixes which match is found; the relation below says
    which texts a pattern matches at all, leaving the order of the attempts
    aside. *)

Module ReSpans.
Import Py Re.

(** The character before the position, after [pre] has been read. *)
Definition prev_after (pre : str) (prev : option ascii) : option ascii :=
  match pre with
  | [] => prev
  | c :: t => Some (List.last t c)
  end.

(** [matches fl r prev pre post]: the pattern matches the text [pre], with
    [prev] before it and [post] after it. *)
Fixpoint matches (fl : flags) (r : regex) (prev : option ascii)
    (pre post : str) : Prop :=
  match r with
  | REmpty => pre = []
  | RAtom a => exists c, pre = [c] /\ atom_match fl a c = true
  | RSeq r1 r2 =>
      exists p1 p2,
        pre = p1 ++ p2
        /\ matches fl r1 prev p1 (p2 ++ post)
        /\ matches fl r2 (prev_after p1 prev) p2 post
  | RAlt r1 r2 => matches fl r1 prev pre post \/ matches fl r2 prev pre post
  | ROpt r1 => matches fl r1 prev pre post \/ pre = []
  | RRep _ lo hi a =>
      forallb (atom_match fl a) pre = true
      /\ (lo <= length pre)%nat
      /\ match hi with
         | Some h => (length pre <= h)%nat
         | None => True
         end
  | RGroup _ r1 => matches fl r1 prev pre post
  | RBol => pre = [] /\ at_bol fl prev = true
  | REol => pre = [] /\ at_eol fl post = true
  | RWordB => pre = [] /\ xorb (word_before prev) (word_after post) = true
  | RBehind a => pre = [] /\ exists c, prev = Some c /\ atom_match fl a c = true
  end.

(** [captured_in fl r (i, g)]: group [i] of the pattern can capture [g]. *)
Fixpoint captured_in (fl : flags) (r : regex) (cap : nat * str) : Prop :=
  match r with
  | RGroup j r1 =>
      (fst cap = j /\ exists prev post, matches fl r1 prev (snd cap) post)
      \/ captured_in fl r1 cap
  | RSeq r1 r2 | RAlt r1 r2 => captured_in fl r1 cap \/ captured_in fl r2 cap
  | ROpt r1 => captured_in fl r1 cap
  | _ => False
  end.

(** Every path through the pattern ends by closing group [i]. *)
Fixpoint ends_with_group (i : nat) (r : regex) : bool :=
  match r with
  | RGroup j _ => Nat.eqb i j
  | RSeq _ r2 => ends_with_group i r2
  | RAlt r1 r2 => ends_with_group i r1 && ends_with_group i r2
  | _ => false
  end.

End ReSpans.

(** ** The regex fallback: [_extract_with_regex] and its pipeline *)

Module RegexExtraction.
Import Py Re PyFloat DocumentProcessor Extractor ExtractorFields.
Import stdpp.base stdpp.gmap stdpp.strings.
Local Open Scope Z_scope.

(** *** Running the parts *)

Definition and_then {A B} (m : outcome A) (f : A -> outcome B) : outcome B :=
  match m with
  | Return a => f a
  | Fail e => Fail e
  end.

Definition lift {A} (m : res A) : outcome A :=
  match m with
  | Ok a => Return a
  | Raise e => Fail (Exn e)
  end.

(** [not val] for an optional string: [None] and the empty string. *)
Definition absent (val : option str) : bool :=
  match val with
  | Some v => negb (truthy v)
  | None => true
  end.

(** [val and not _is_junk_value(val)] *)
Definition usable (val : option str) : bool :=
  match val with
  | Some v => truthy v && negb (_is_junk_value v)
  | None => false
  end.

(** [s.rstrip(c)] for one character. *)
Fixpoint lstrip_char (c : ascii) (s : str) : str :=
  match s with
  | x :: s' => if Ascii.eqb x c then lstrip_char c s' else s
  | [] => []
  end.

Definition rstrip_char (c : ascii) (s : str) : str :=
  rev (lstrip_char c (rev s)).

(** The index of the first line a [for i, line in enumerate(lines)] loop
    stops at. *)
Fixpoint first_index (stop : str -> bool) (lines : list str) : option Z :=
  match lines with
  | [] => None
  | line :: rest =>
      if stop line then Some 0
      else option_map Z.succ (first_index stop rest)
  end.

Definition matches_at_start (fl : flags) (pattern : regex) (s : str) : bool :=
  match pmatch fl pattern s with Some _ => true | None => false end.

Definition found_in (fl : flags) (pattern : regex) (s : str) : bool :=
  match search fl pattern s with Some _ => true | None => false end.

(** [m.group(i).strip()] *)
Definition group_stripped (m : match_obj) (i : nat) : outcome str :=
  match group m i with
  | Some g => Return (strip g)
  | None =>
      Fail (Exn (AttributeError "'NoneType' object has no attribute 'strip'"))
  end.

(** [re.sub(pattern, r'\1 \2', text)]: every match is replaced by its two
    groups with a space between them. *)
Definition spaced (m : match_obj) : str :=
  match group m 1, group m 2 with
  | Some g1, Some g2 => g1 ++ lit " " ++ g2
  | Some g1, None => g1 ++ lit " "
  | None, Some g2 => lit " " ++ g2
  | None, None => lit " "
  end.

Fixpoint sub_at (s : str) (pos : nat) (ms : list match_obj) : str :=
  match ms with
  | [] => skipn pos s
  | m :: ms' =>
      firstn (m_start m - pos) (skipn pos s) ++ spaced m
      ++ sub_at s (m_start m + length (m_text m)) ms'
  end.

Definition sub_spaced (pattern : regex) (text : str) : str :=
  sub_at text 0 (finditer NOFLAGS pattern text).

(** *** The patterns *)

(** [(FTL|LTL)(Shipping|Delivery|Ship)] *)
Definition FTL_JOINED : regex :=
  seqs [RGroup 1 (words ["FTL"; "LTL"]); RGroup 2 (words ["Shipping";
    "Delivery"; "Ship"])].

(** [(USD)(Pickup|Drop)] *)
Definition USD_JOINED : regex :=
  seqs [RGroup 1 (chars "USD"); RGroup 2 (words ["Pickup"; "Drop"])].

(** [(usdev@\S+)(Dispatcher)] *)
Definition DISPATCHER_JOINED : regex :=
  seqs [RGroup 1 (seqs [chars "usdev@"; one_or_more (ASet true [ISpace])]);
    RGroup 2 (chars "Dispatcher")].

(** [(usdev@\S+)(Load)] *)
Definition LOAD_JOINED : regex :=
  seqs [RGroup 1 (seqs [chars "usdev@"; one_or_more (ASet true [ISpace])]);
    RGroup 2 (chars "Load")].

(** [^(?:shipper|ship\s+from|origin)\s*(?:information|details)?\s*$] *)
Definition SHIPPER_HEADER : regex :=
  seqs [RBol; alts [chars "shipper"; seqs [chars "ship"; one_or_more SPACE;
    chars "from"]; chars "origin"]; zero_or_more SPACE;
    ROpt (words ["information"; "details"]); zero_or_more SPACE; REol].

(** [^pickup\s*$] *)
Definition PICKUP_HEADER : regex :=
  seqs [RBol; chars "pickup"; zero_or_more SPACE; REol].

(** [Pickup\s*$] *)
Definition PICKUP_TAIL : regex :=
  seqs [chars "Pickup"; zero_or_more SPACE; REol].

(** [^shipper\s+(?:consignee|receiver)] *)
Definition SHIPPER_CONSIGNEE : regex :=
  seqs [RBol; chars "shipper"; one_or_more SPACE; words ["consignee";
    "receiver"]].

(** [^(?:\d+\.)?\s*(.+?)\s*[,;]?\s*$] *)
Definition FIRST_PARTY : regex :=
  seqs [RBol; ROpt (seqs [one_or_more DIGIT; a_char "."]); zero_or_more SPACE;
    RGroup 1 (RRep false 1 None AAny); zero_or_more SPACE;
    ROpt (RAtom (ASet false [IChar ","; IChar ";"])); zero_or_more SPACE; REol].

(** [^(?:consignee|ship\s+to|deliver\s+to|receiver|destination)\s*(?:information|details)?\s*$] *)
Definition CONSIGNEE_HEADER : regex :=
  seqs [RBol; alts [chars "consignee"; seqs [chars "ship"; one_or_more SPACE;
    chars "to"]; seqs [chars "deliver"; one_or_more SPACE; chars "to"];
    chars "receiver"; chars "destination"]; zero_or_more SPACE;
    ROpt (words ["information"; "details"]); zero_or_more SPACE; REol].

(** [^drop\s*(?:off)?\s*$] *)
Definition DROP_HEADER : regex :=
  seqs [RBol; chars "drop"; zero_or_more SPACE; ROpt (chars "off");
    zero_or_more SPACE; REol].

(** [USA\d*\.?\s*(.+?)(?:\s*,\s*$|\s*$)] *)
Definition AFTER_USA : regex :=
  seqs [chars "USA"; zero_or_more DIGIT; ROpt (a_char ".");
    zero_or_more SPACE; RGroup 1 (RRep false 1 None AAny);
    alts [seqs [zero_or_more SPACE; a_char ","; zero_or_more SPACE; REol];
    seqs [zero_or_more SPACE; REol]]].

(** [(?:\d{1,2}[/\-]\d{1,2}[/\-]\d{2,4}|\w+\s+\d{1,2},?\s+\d{4}|\d{4}-\d{2}-\d{2})] *)
Definition date_formats : regex :=
  alts [seqs [RRep true 1 (Some 2%nat) DIGIT; RAtom (ASet false [IChar "/";
    IChar "-"]); RRep true 1 (Some 2%nat) DIGIT; RAtom (ASet false [IChar "/";
    IChar "-"]); RRep true 2 (Some 4%nat) DIGIT];
    seqs [one_or_more (ASet false [IWord]); one_or_more SPACE;
    RRep true 1 (Some 2%nat) DIGIT; ROpt (a_char ","); one_or_more SPACE;
    RRep true 4 (Some 4%nat) DIGIT]; seqs [RRep true 4 (Some 4%nat) DIGIT;
    a_char "-"; RRep true 2 (Some 2%nat) DIGIT; a_char "-";
    RRep true 2 (Some 2%nat) DIGIT]].

(** [([A-Za-z0-9][\w\-]{2,25})] *)
Definition ID_VALUE : regex :=
  RGroup 1 (seqs [RAtom (ASet false [IRange "A" "Z"; IRange "a" "z";
    IRange "0" "9"]); RRep true 2 (Some 25%nat) (ASet false [IWord;
    IChar "-"])]).

(** [pick[\s-]*up|origin|loading|shipping\s*date|ship\s*date] *)
Definition PICKUP_CONTEXT : regex :=
  alts [seqs [chars "pick"; zero_or_more (ASet false [ISpace; IChar "-"]);
    chars "up"]; chars "origin"; chars "loading"; seqs [chars "shipping";
    zero_or_more SPACE; chars "date"]; seqs [chars "ship"; zero_or_more SPACE;
    chars "date"]].

(** [deliver|destination|drop[\s-]*off] *)
Definition DELIVERY_CONTEXT : regex :=
  alts [chars "deliver"; chars "destination"; seqs [chars "drop";
    zero_or_more (ASet false [ISpace; IChar "-"]); chars "off"]].

(** [^carrier\s*(?:information|details)\s*$] *)
Definition CARRIER_HEADER : regex :=
  seqs [RBol; chars "carrier"; zero_or_more SPACE; words ["information";
    "details"]; zero_or_more SPACE; REol].

(** [^(.+?)\s+(?:MC[\-\s]?\d|\(\d{3}\)|\$\d)] *)
Definition COMPANY_BEFORE : regex :=
  seqs [RBol; RGroup 1 (RRep false 1 None AAny); one_or_more SPACE;
    alts [seqs [chars "MC"; ROpt (RAtom (ASet false [IChar "-"; ISpace]));
    RAtom DIGIT]; seqs [a_char "("; RRep true 3 (Some 3%nat) DIGIT; a_char ")"];
    seqs [a_char "$"; RAtom DIGIT]]].

(** [\s{2,}] *)
Definition WIDE_GAP : regex :=
  RRep true 2 None SPACE.

(** [transportation\s+company] *)
Definition TRANSPORTATION_COMPANY : regex :=
  seqs [chars "transportation"; one_or_more SPACE; chars "company"].

Definition id_patterns : list regex :=
  [ (* (?:reference|ref)\s*id\s*:?\s*<ID_VALUE> *)
    seqs [words ["reference"; "ref"]; zero_or_more SPACE; chars "id";
      zero_or_more SPACE; ROpt (a_char ":"); zero_or_more SPACE; ID_VALUE];
    (* load\s*id\s*:?\s*<ID_VALUE> *)
    seqs [chars "load"; zero_or_more SPACE; chars "id"; zero_or_more SPACE;
      ROpt (a_char ":"); zero_or_more SPACE; ID_VALUE];
    (* shipment\s*(?:id|#|no\.?|number)\s*:?\s*<ID_VALUE> *)
    seqs [chars "shipment"; zero_or_more SPACE; alts [chars "id"; a_char "#";
      seqs [chars "no"; ROpt (a_char ".")]; chars "number"]; zero_or_more SPACE;
      ROpt (a_char ":"); zero_or_more SPACE; ID_VALUE];
    (* load\s*(?:#|no\.?|number)\s*:?\s*<ID_VALUE> *)
    seqs [chars "load"; zero_or_more SPACE; alts [a_char "#";
      seqs [chars "no"; ROpt (a_char ".")]; chars "number"]; zero_or_more SPACE;
      ROpt (a_char ":"); zero_or_more SPACE; ID_VALUE];
    (* (?:bol|pro)\s*(?:#|no\.?|number)\s*:?\s*<ID_VALUE> *)
    seqs [words ["bol"; "pro"]; zero_or_more SPACE; alts [a_char "#";
      seqs [chars "no"; ROpt (a_char ".")]; chars "number"]; zero_or_more SPACE;
      ROpt (a_char ":"); zero_or_more SPACE; ID_VALUE];
    (* confirmation\s*(?:#|no\.?|number)\s*:?\s*<ID_VALUE> *)
    seqs [chars "confirmation"; zero_or_more SPACE; alts [a_char "#";
      seqs [chars "no"; ROpt (a_char ".")]; chars "number"]; zero_or_more SPACE;
      ROpt (a_char ":"); zero_or_more SPACE; ID_VALUE];
    (* order\s*(?:id|#|no\.?|number)\s*:?\s*<ID_VALUE> *)
    seqs [chars "order"; zero_or_more SPACE; alts [chars "id"; a_char "#";
      seqs [chars "no"; ROpt (a_char ".")]; chars "number"]; zero_or_more SPACE;
      ROpt (a_char ":"); zero_or_more SPACE; ID_VALUE];
    (* (?:rate\s+)?conf(?:irmation)?\s*#?\s*:?\s*<ID_VALUE> *)
    seqs [ROpt (seqs [chars "rate"; one_or_more SPACE]); chars "conf";
      ROpt (chars "irmation"); zero_or_more SPACE; ROpt (a_char "#");
      zero_or_more SPACE; ROpt (a_char ":"); zero_or_more SPACE; ID_VALUE] ].

Definition consignee_patterns : list regex :=
  [ (* consignee\s*(?:name)?\s*:\s*(.+?)(?:\n|$) *)
    seqs [chars "consignee"; zero_or_more SPACE; ROpt (chars "name");
      LINE_VALUE];
    (* ship\s+to\s*:\s*(.+?)(?:\n|$) *)
    seqs [chars "ship"; one_or_more SPACE; chars "to"; LINE_VALUE];
    (* deliver\s+to\s*:\s*(.+?)(?:\n|$) *)
    seqs [chars "deliver"; one_or_more SPACE; chars "to"; LINE_VALUE];
    (* receiver\s*(?:name)?\s*:\s*(.+?)(?:\n|$) *)
    seqs [chars "receiver"; zero_or_more SPACE; ROpt (chars "name");
      LINE_VALUE];
    (* destination\s*(?:name|company)?\s*:\s*(.+?)(?:\n|$) *)
    seqs [chars "destination"; zero_or_more SPACE; ROpt (words ["name";
      "company"]); LINE_VALUE] ].

Definition pickup_patterns : list regex :=
  [ (* (?:shipping|pickup|pick[\s-]*up)\s*date\s*:?\s*(<date_formats>) *)
    seqs [alts [chars "shipping"; chars "pickup"; seqs [chars "pick";
      zero_or_more (ASet false [ISpace; IChar "-"]); chars "up"]];
      zero_or_more SPACE; chars "date"; zero_or_more SPACE; ROpt (a_char ":");
      zero_or_more SPACE; RGroup 1 date_formats];
    (* ship\s*date\s*:?\s*(<date_formats>) *)
    seqs [chars "ship"; zero_or_more SPACE; chars "date"; zero_or_more SPACE;
      ROpt (a_char ":"); zero_or_more SPACE; RGroup 1 date_formats];
    (* pickup\s*(?:date|time|dt)?\s*:?\s*(<date_formats>) *)
    seqs [chars "pickup"; zero_or_more SPACE; ROpt (words ["date"; "time";
      "dt"]); zero_or_more SPACE; ROpt (a_char ":"); zero_or_more SPACE;
      RGroup 1 date_formats];
    (* loading\s*(?:date|time)?\s*:?\s*(<date_formats>) *)
    seqs [chars "loading"; zero_or_more SPACE; ROpt (words ["date"; "time"]);
      zero_or_more SPACE; ROpt (a_char ":"); zero_or_more SPACE;
      RGroup 1 date_formats];
    (* earliest\s*pick\s*-?\s*up\s*:?\s*(<date_formats>) *)
    seqs [chars "earliest"; zero_or_more SPACE; chars "pick";
      zero_or_more SPACE; ROpt (a_char "-"); zero_or_more SPACE; chars "up";
      zero_or_more SPACE; ROpt (a_char ":"); zero_or_more SPACE;
      RGroup 1 date_formats] ].

Definition delivery_patterns : list regex :=
  [ (* delivery\s*date\s*:?\s*(<date_formats>) *)
    seqs [chars "delivery"; zero_or_more SPACE; chars "date";
      zero_or_more SPACE; ROpt (a_char ":"); zero_or_more SPACE;
      RGroup 1 date_formats];
    (* deliver(?:y)?\s*date\s*:?\s*(<date_formats>) *)
    seqs [chars "deliver"; ROpt (a_char "y"); zero_or_more SPACE;
      chars "date"; zero_or_more SPACE; ROpt (a_char ":"); zero_or_more SPACE;
      RGroup 1 date_formats];
    (* drop[\s-]*off\s*(?:date|time)?\s*:?\s*(<date_formats>) *)
    seqs [chars "drop"; zero_or_more (ASet false [ISpace; IChar "-"]);
      chars "off"; zero_or_more SPACE; ROpt (words ["date"; "time"]);
      zero_or_more SPACE; ROpt (a_char ":"); zero_or_more SPACE;
      RGroup 1 date_formats];
    (* latest\s*delivery?\s*:?\s*(<date_formats>) *)
    seqs [chars "latest"; zero_or_more SPACE; chars "deliver";
      ROpt (a_char "y"); zero_or_more SPACE; ROpt (a_char ":");
      zero_or_more SPACE; RGroup 1 date_formats];
    (* (?:must|due|expected)\s*(?:deliver|arrival)\s*:?\s*(<date_formats>) *)
    seqs [words ["must"; "due"; "expected"]; zero_or_more SPACE;
      words ["deliver"; "arrival"]; zero_or_more SPACE; ROpt (a_char ":");
      zero_or_more SPACE; RGroup 1 date_formats] ].

Definition equip_patterns : list regex :=
  [ (* equipment\s*(?:type)?\s*:\s*(.+?)(?:\n|$) *)
    seqs [chars "equipment"; zero_or_more SPACE; ROpt (chars "type");
      LINE_VALUE];
    (* trailer\s*(?:type|size)?\s*:\s*(.+?)(?:\n|$) *)
    seqs [chars "trailer"; zero_or_more SPACE; ROpt (words ["type"; "size"]);
      LINE_VALUE];
    (* truck\s*(?:type)?\s*:\s*(.+?)(?:\n|$) *)
    seqs [chars "truck"; zero_or_more SPACE; ROpt (chars "type"); LINE_VALUE] ].

Definition mode_patterns : list regex :=
  [ (* mode\s*:\s*(.+?)(?:\n|$) *)
    seqs [chars "mode"; LINE_VALUE];
    (* transportation\s*mode\s*:\s*(.+?)(?:\n|$) *)
    seqs [chars "transportation"; zero_or_more SPACE; chars "mode";
      LINE_VALUE];
    (* service\s*(?:type|mode)\s*:\s*(.+?)(?:\n|$) *)
    seqs [chars "service"; zero_or_more SPACE; words ["type"; "mode"];
      LINE_VALUE];
    (* load\s*type\s*:?\s*\n?\s*(FTL|LTL|INTERMODAL) *)
    seqs [chars "load"; zero_or_more SPACE; chars "type"; zero_or_more SPACE;
      ROpt (a_char ":"); zero_or_more SPACE; ROpt (a_char NL);
      zero_or_more SPACE; RGroup 1 (words ["FTL"; "LTL"; "INTERMODAL"])] ].

Definition weight_patterns : list regex :=
  [ (* (?:gross\s+)?weight\s*:?\s*([\d,]+\.?\d* )\s*(lbs?|kg|tons?|pounds?) *)
    seqs [ROpt (seqs [chars "gross"; one_or_more SPACE]); chars "weight";
      zero_or_more SPACE; ROpt (a_char ":"); zero_or_more SPACE;
      RGroup 1 (seqs [one_or_more (ASet false [IDigit; IChar ","]);
      ROpt (a_char "."); zero_or_more DIGIT]); zero_or_more SPACE;
      RGroup 2 (alts [seqs [chars "lb"; ROpt (a_char "s")]; chars "kg";
      seqs [chars "ton"; ROpt (a_char "s")]; seqs [chars "pound";
      ROpt (a_char "s")]])];
    (* (?:total\s+)?weight\s*:?\s*([\d,]+\.?\d* )\s*(lbs?|kg|tons?|pounds?) *)
    seqs [ROpt (seqs [chars "total"; one_or_more SPACE]); chars "weight";
      zero_or_more SPACE; ROpt (a_char ":"); zero_or_more SPACE;
      RGroup 1 (seqs [one_or_more (ASet false [IDigit; IChar ","]);
      ROpt (a_char "."); zero_or_more DIGIT]); zero_or_more SPACE;
      RGroup 2 (alts [seqs [chars "lb"; ROpt (a_char "s")]; chars "kg";
      seqs [chars "ton"; ROpt (a_char "s")]; seqs [chars "pound";
      ROpt (a_char "s")]])];
    (* ([\d,]+\.?\d+)\s*(lbs?|pounds?) *)
    seqs [RGroup 1 (seqs [one_or_more (ASet false [IDigit; IChar ","]);
      ROpt (a_char "."); one_or_more DIGIT]); zero_or_more SPACE;
      RGroup 2 (alts [seqs [chars "lb"; ROpt (a_char "s")]; seqs [chars "pound";
      ROpt (a_char "s")]])];
    (* ([\d,]{3,})\s*(lbs?|pounds?) *)
    seqs [RGroup 1 (RRep true 3 None (ASet false [IDigit; IChar ","]));
      zero_or_more SPACE; RGroup 2 (alts [seqs [chars "lb"; ROpt (a_char "s")];
      seqs [chars "pound"; ROpt (a_char "s")]])] ].

Definition carrier_patterns : list regex :=
  [ (* carrier\s*name\s*:\s*(.+?)(?:\n|$) *)
    seqs [chars "carrier"; zero_or_more SPACE; chars "name"; LINE_VALUE];
    (* trucking\s*(?:company|co\.?)\s*:\s*(.+?)(?:\n|$) *)
    seqs [chars "trucking"; zero_or_more SPACE; alts [chars "company";
      seqs [chars "co"; ROpt (a_char ".")]]; LINE_VALUE];
    (* transport(?:ation)?\s*(?:company|provider)\s*:\s*(.+?)(?:\n|$) *)
    seqs [chars "transport"; ROpt (chars "ation"); zero_or_more SPACE;
      words ["company"; "provider"]; LINE_VALUE] ].


(** *** The text, cleaned *)

(** [cleaned_text]: the four substitutions, one after the other. *)
Definition clean (text : str) : str :=
  let cleaned_text := sub_spaced FTL_JOINED text in
  let cleaned_text := sub_spaced USD_JOINED cleaned_text in
  let cleaned_text := sub_spaced DISPATCHER_JOINED cleaned_text in
  sub_spaced LOAD_JOINED cleaned_text.

(** [_find_value_after_label(text, patterns)], as a part of the run. *)
Definition scan (text : str) (patterns : list regex) : outcome (option str) :=
  lift (_find_value_after_label text patterns false).

(** [for i, line in enumerate(lines): if <stop>: val = <f(i)>; break]: [val]
    is left as it is when no line stops the loop. *)
Definition at_first {A} (stop : str -> bool) (lines : list str)
    (f : Z -> outcome A) (val : A) : outcome A :=
  match first_index stop lines with
  | Some i => f i
  | None => Return val
  end.

(** *** Shipment ID *)

Definition shipment_id_of (text cleaned_text : str) : outcome (option str) :=
  and_then (scan text id_patterns) (fun val =>
  and_then (if absent val then scan cleaned_text id_patterns else Return val)
    (fun val =>
  Return (if absent val then None else val))).

(** *** Shipper *)

(** The line after the [Shipper Consignee] header, when there is one. *)
Definition first_party (lines : list str) (i : Z) (val : option str)
    : outcome (option str) :=
  if i + 1 <? len lines
  then
    match getitem lines (i + 1) with
    | None => Fail (IndexError "list index out of range")
    | Some line =>
        let next_line := strip line in
        match pmatch NOFLAGS FIRST_PARTY next_line with
        | Some shipper_match =>
            and_then (group_stripped shipper_match 1) (fun g =>
              Return (Some (rstrip_char "," g)))
        | None => Return val
        end
    end
  else Return val.

Definition shipper_of (text : str) (lines cleaned_lines : list str)
    : outcome (option str) :=
  and_then (scan text shipper_patterns) (fun val =>
  and_then
    (if absent val
     then at_first (fun line => matches_at_start IGNORECASE SHIPPER_HEADER (strip line))
            lines (fun i => _find_next_value_line lines i 5) val
     else Return val) (fun val =>
  and_then
    (if absent val
     then
       and_then
         (at_first (fun line =>
                      let stripped := strip line in
                      bool_decide (lower stripped = lit "pickup")
                      || matches_at_start IGNORECASE PICKUP_HEADER stripped)
            cleaned_lines (fun i => _find_next_value_line cleaned_lines i 3) val)
         (fun val =>
            if absent val
            then at_first (fun line => found_in NOFLAGS PICKUP_TAIL (strip line))
                   cleaned_lines
                   (fun i => _find_next_value_line cleaned_lines i 3) val
            else Return val)
     else Return val) (fun val =>
  and_then
    (if absent val
     then at_first (fun line =>
                      matches_at_start IGNORECASE SHIPPER_CONSIGNEE (strip line))
            lines (fun i => first_party lines i val) val
     else Return val) (fun val =>
  Return (if usable val then option_map (upto 100) val else None))))).

(** *** Consignee *)

(** The loop over [j] below the [Shipper Consignee] header; [val] is what
    the last match left. *)
Fixpoint after_usa (lines : list str) (js : list Z) (val : option str)
    : outcome (option str) :=
  match js with
  | [] => Return val
  | j :: js' =>
      match getitem lines j with
      | None => Fail (IndexError "list index out of range")
      | Some l =>
          match search NOFLAGS AFTER_USA l with
          | Some consignee_split =>
              and_then (group_stripped consignee_split 1) (fun g =>
                let val := rstrip_char "," g in
                if truthy val && (1 <? len val) then Return (Some val)
                else after_usa lines js' (Some val))
          | None => after_usa lines js' val
          end
      end
  end.

Definition second_party (lines : list str) (i : Z) (val : option str)
    : outcome (option str) :=
  and_then (lift (range (i + 1) (Z.min (i + 5) (len lines)) 1)) (fun js =>
    after_usa lines js val).

Definition consignee_of (text : str) (lines : list str) : outcome (option str) :=
  and_then (scan text consignee_patterns) (fun val =>
  and_then
    (if absent val
     then at_first (fun line => matches_at_start IGNORECASE CONSIGNEE_HEADER (strip line))
            lines (fun i => _find_next_value_line lines i 5) val
     else Return val) (fun val =>
  and_then
    (if absent val
     then at_first (fun line =>
                      let stripped := strip line in
                      bool_decide (lower stripped = lit "drop")
                      || matches_at_start IGNORECASE DROP_HEADER stripped)
            lines (fun i => _find_next_value_line lines i 3) val
     else Return val) (fun val =>
  and_then
    (if absent val
     then at_first (fun line =>
                      matches_at_start IGNORECASE SHIPPER_CONSIGNEE (strip line))
            lines (fun i => second_party lines i val) val
     else Return val) (fun val =>
  Return (if usable val then option_map (upto 100) val else None))))).

(** *** Dates *)

(** [re.search(date_formats, line)], then [date_match.group(0).strip()]. *)
Definition date_in (line : str) : option str :=
  option_map (fun date_match => strip (m_text date_match))
    (search NOFLAGS date_formats line).

(** The contextual scan: a line that mentions the context gives its own date
    or the date of the line below; the first date found ends the scan. *)
Fixpoint context_date (context : regex) (lines : list str) : option str :=
  match lines with
  | [] => None
  | line :: rest =>
      if found_in IGNORECASE context line
      then
        match date_in line with
        | Some date => Some date
        | None =>
            match rest with
            | next :: _ =>
                match date_in next with
                | Some date => Some date
                | None => context_date context rest
                end
            | [] => context_date context rest
            end
        end
      else context_date context rest
  end.

Definition date_of (patterns : list regex) (context : regex)
    (search_text : str) (lines : list str) : outcome (option str) :=
  and_then (scan search_text patterns) (fun val =>
    Return (if usable val then option_map strip val
            else context_date context lines)).

(** *** Equipment type and mode *)

(** [for kw, display in kws: if kw in text: ...; break] *)
Fixpoint first_keyword {T} (holds : T -> bool) (kws : list (T * str))
    : option str :=
  match kws with
  | [] => None
  | (kw, display) :: rest =>
      if holds kw then Some display else first_keyword holds rest
  end.

Definition equip_kws : list (str * str) :=
  map (fun '(kw, display) => (lit kw, lit display))
    [ ("53' dry van", "53' Dry Van"); ("48' dry van", "48' Dry Van");
      ("53' reefer", "53' Reefer"); ("48' reefer", "48' Reefer");
      ("53ft", "53' Trailer"); ("48ft", "48' Trailer");
      ("dry van", "Dry Van"); ("reefer", "Reefer");
      ("flatbed", "Flatbed"); ("step deck", "Step Deck");
      ("tanker", "Tanker"); ("container", "Container");
      ("box truck", "Box Truck"); ("sprinter", "Sprinter Van") ]%string.

Definition equipment_of (text text_lower : str) : outcome (option str) :=
  and_then (scan text equip_patterns) (fun val =>
    Return (if usable val then option_map (upto 50) val
            else first_keyword (fun kw => contains kw text_lower) equip_kws)).

Definition mode_kws : list (list N * str) :=
  map (fun '(kw, mode_val) => (points (lit kw), lit mode_val))
    [ ("FULL TRUCKLOAD", "FTL"); ("FTL", "FTL");
      ("LESS THAN TRUCKLOAD", "LTL"); ("LESS-THAN-TRUCKLOAD", "LTL");
      ("LTL", "LTL");
      ("INTERMODAL", "Intermodal"); ("DRAYAGE", "Drayage");
      ("AIR FREIGHT", "Air Freight"); ("OCEAN", "Ocean");
      ("PARTIAL", "Partial") ]%string.

Definition mode_of (text : str) (text_upper : list N) : outcome (option str) :=
  and_then (scan text mode_patterns) (fun val =>
    Return (if usable val then option_map strip val
            else first_keyword (fun kw => contains_points kw text_upper) mode_kws)).

(** *** Weight *)

(** [match.lastindex]: the group that was closed last. *)
Definition lastindex (m : match_obj) : option Z :=
  match m_groups m with
  | (i, _) :: _ => Some (Z.of_nat i)
  | [] => None
  end.

(** [wn >= 50] *)
Definition heavy_enough (wn : float) : bool := (of_int 50 <=? wn)%float.

Fixpoint weight_of (patterns : list regex) (text : str) : outcome (option str) :=
  match patterns with
  | [] => Return None
  | pattern :: rest =>
      match search IGNORECASE pattern text with
      | Some m =>
          and_then (group_stripped m 1) (fun weight_num =>
          and_then
            (match lastindex m with
             | Some last =>
                 if 2 <=? last then group_stripped m 2 else Return (lit "lbs")
             | None =>
                 Fail (TypeError
                         "'>=' not supported between instances of 'NoneType' and 'int'")
             end) (fun weight_unit =>
          match py_float (without_commas weight_num) with
          | Some wn =>
              if heavy_enough wn
              then Return (Some (strip (weight_num ++ lit " " ++ weight_unit)))
              else weight_of rest text
          | None => weight_of rest text
          end))
      | None => weight_of rest text
      end
  end.

(** *** Carrier name *)

Definition _parse_carrier_from_row (raw_line : str) : outcome (option str) :=
  if negb (truthy raw_line) || _is_junk_value raw_line then Return None
  else
    and_then
      (match pmatch NOFLAGS COMPANY_BEFORE raw_line with
       | Some company_match =>
           and_then (group_stripped company_match 1) (fun name =>
             Return (if truthy name && (2 <? len name) && negb (_is_junk_value name)
                     then Some name else None))
       | None => Return None
       end) (fun by_number =>
    match by_number with
    | Some name => Return (Some name)
    | None =>
        let parts := Re.split NOFLAGS WIDE_GAP raw_line in
        match parts with
        | first :: _ =>
            if (2 <? len (strip first)) && negb (_is_junk_value (strip first))
            then Return (Some (strip first))
            else if (len (split_ws raw_line) <=? 6) && negb (_is_junk_value raw_line)
            then Return (Some raw_line)
            else Return None
        | [] =>
            if (len (split_ws raw_line) <=? 6) && negb (_is_junk_value raw_line)
            then Return (Some raw_line)
            else Return None
        end
    end).

(** The loop over [j] below the carrier header: the first line that is not
    blank and not junk is parsed, and ends the loop. *)
Fixpoint carrier_row (lines : list str) (js : list Z) : outcome (option str) :=
  match js with
  | [] => Return None
  | j :: js' =>
      match getitem lines j with
      | None => Fail (IndexError "list index out of range")
      | Some line =>
          let candidate := strip line in
          if negb (truthy candidate) then carrier_row lines js'
          else if _is_junk_value candidate then carrier_row lines js'
          else
            and_then (_parse_carrier_from_row candidate) (fun parsed =>
              Return (if absent parsed then None
                      else option_map (upto 100) parsed))
      end
  end.

Definition carrier_below_header (lines : list str) (i : Z) : outcome (option str) :=
  and_then (lift (range (i + 1) (Z.min (i + 5) (len lines)) 1)) (fun js =>
    carrier_row lines js).

(** The line below the one that mentions a transportation company. *)
Definition carrier_next_line (lines : list str) (i : Z) : outcome (option str) :=
  if i + 1 <? len lines
  then
    match getitem lines (i + 1) with
    | None => Fail (IndexError "list index out of range")
    | Some line =>
        let candidate := strip line in
        Return (if truthy candidate
                   && negb (bool_decide (candidate = lit "-"))
                   && negb (_is_junk_value candidate)
                then Some (upto 100 candidate) else None)
    end
  else Return None.

Definition carrier_of (text : str) (lines : list str) : outcome (option str) :=
  and_then (scan text carrier_patterns) (fun val =>
    if usable val && (match val with
                      | Some v => len (split_ws v) <=? 8
                      | None => false
                      end)
    then Return (option_map (upto 100) val)
    else
      and_then
        (at_first (fun line => matches_at_start IGNORECASE CARRIER_HEADER (strip line))
           lines (carrier_below_header lines) None) (fun found =>
      match found with
      | Some name => Return (Some name)
      | None =>
          at_first (fun line => found_in IGNORECASE TRANSPORTATION_COMPANY line)
            lines (carrier_next_line lines) None
      end)).

(** *** The fields and the notes *)

Definition all_fields : list string :=
  [ "shipment_id"; "shipper"; "consignee"; "pickup_datetime";
    "delivery_datetime"; "equipment_type"; "mode"; "rate";
    "currency"; "weight"; "carrier_name" ]%string.

(** The dictionary [result]. *)
Definition fields := gmap string str.

(** [if value is there: result[key] = value] *)
Definition store (key : string) (value : option str) (result : fields) : fields :=
  match value with
  | Some v => <[key := v]> result
  | None => result
  end.

(** [f in result and result[f]] *)
Definition is_found (result : fields) (f : string) : bool :=
  match result !! f with
  | Some v => truthy v
  | None => false
  end.

Definition notes_of (result : fields) : list str :=
  let found := List.filter (is_found result) all_fields in
  let missing := List.filter (fun f => negb (is_found result f)) all_fields in
  [ lit "Extraction method: regex-based (LLM unavailable)";
    lit "Fields found: " ++ digits_of (len found) ++ lit "/"
    ++ digits_of (len all_fields) ]
  ++ (if truthy missing
      then [lit "Missing fields: " ++ Py.join (lit ", ") (map lit missing)]
      else []).

(** The dictionary with the values that were found. *)
Definition collect (shipment_id shipper consignee pickup_datetime
    delivery_datetime equipment_type mode rate currency weight
    carrier_name : option str) : fields :=
  store "carrier_name" carrier_name
    (store "weight" weight
      (store "currency" currency
        (store "rate" rate
          (store "mode" mode
            (store "equipment_type" equipment_type
              (store "delivery_datetime" delivery_datetime
                (store "pickup_datetime" pickup_datetime
                  (store "consignee" consignee
                    (store "shipper" shipper
                      (store "shipment_id" shipment_id ∅)))))))))).

Definition _extract_with_regex (text : str) : outcome (fields * list str) :=
  let text_upper := upper text in
  let text_lower := lower text in
  let lines := split_on NL text in
  let cleaned_text := clean text in
  let cleaned_lines := split_on NL cleaned_text in
  and_then (shipment_id_of text cleaned_text) (fun shipment_id =>
  and_then (shipper_of text lines cleaned_lines) (fun shipper =>
  and_then (consignee_of text lines) (fun consignee =>
  and_then (date_of pickup_patterns PICKUP_CONTEXT cleaned_text lines)
    (fun pickup_datetime =>
  and_then (date_of delivery_patterns DELIVERY_CONTEXT cleaned_text lines)
    (fun delivery_datetime =>
  and_then (equipment_of text text_lower) (fun equipment_type =>
  and_then (mode_of text text_upper) (fun mode =>
  and_then (lift (_extract_with_regex_rate text)) (fun rate =>
  let currency := _extract_with_regex_currency text in
  and_then (weight_of weight_patterns text) (fun weight =>
  and_then (carrier_of text lines) (fun carrier_name =>
  let result :=
    collect shipment_id shipper consignee pickup_datetime delivery_datetime
      equipment_type mode rate currency weight carrier_name in
  Return (result, notes_of result))))))))))).

(** *** The pipeline *)

Record ShipmentData := {
  shipment_id : option str;
  shipper : option str;
  consignee : option str;
  pickup_datetime : option str;
  delivery_datetime : option str;
  equipment_type : option str;
  mode : option str;
  rate : option str;
  currency : option str;
  weight : option str;
  carrier_name : option str
}.

Record ExtractResponse := {
  document_id : str;
  shipment_data : ShipmentData;
  confidence_score : float;
  extraction_notes : list str
}.

(** [shipment.model_dump().values()] *)
Definition model_dump (s : ShipmentData) : list (option str) :=
  [ shipment_id s; shipper s; consignee s; pickup_datetime s;
    delivery_datetime s; equipment_type s; mode s; rate s; currency s;
    weight s; carrier_name s ].

Definition is_some {A} (v : option A) : bool :=
  match v with Some _ => true | None => false end.

Definition _extract_with_regex_pipeline (doc_id text : str)
    : outcome ExtractResponse :=
  and_then (_extract_with_regex text) (fun '(extracted, notes) =>
    let shipment :=
      {| shipment_id := extracted !! "shipment_id"%string;
         shipper := extracted !! "shipper"%string;
         consignee := extracted !! "consignee"%string;
         pickup_datetime := extracted !! "pickup_datetime"%string;
         delivery_datetime := extracted !! "delivery_datetime"%string;
         equipment_type := extracted !! "equipment_type"%string;
         mode := extracted !! "mode"%string;
         rate := extracted !! "rate"%string;
         currency := extracted !! "currency"%string;
         weight := extracted !! "weight"%string;
         carrier_name := extracted !! "carrier_name"%string |} in
    let fields := model_dump shipment in
    let found := len (List.filter is_some fields) in
    let total := len fields in
    let confidence := int_truediv found total in
    Return {| document_id := doc_id;
              shipment_data := shipment;
              confidence_score := py_round confidence 4;
              extraction_notes := notes |}).

End RegexExtraction.

(** ** Notions for the regex fallback *)

Module ExtractionNotions.
Import Py Re PyFloat DocumentProcessor Extractor ExtractorFields RegexExtraction.
Import stdpp.base stdpp.gmap stdpp.strings.
Local Open Scope Z_scope.

(** The call returns, and what it returns satisfies [P]. *)
Definition yields {A} (P : A -> Prop) (o : outcome A) : Prop :=
  exists a, o = Return a /\ P a.

(** The call returns. *)
Definition returns {A} (o : outcome A) : Prop := yields (fun _ => True) o.

(** A value that is there is not the empty string, and has at most [n]
    characters. *)
Definition filled (n : Z) (value : option str) : Prop :=
  forall v, value = Some v -> v <> [] /\ len v <= n.

(** A value that is there is not the empty string. *)
Definition nonempty (value : option str) : Prop :=
  forall v, value = Some v -> v <> [].

(** The number of fields a dictionary holds. *)
Definition fields_held (result : fields) : Z :=
  len (List.filter (fun f => is_some (result !! f)) all_fields).

(** The currencies the extractor knows. *)
Definition known_currency (v : str) : Prop :=
  In v (map lit ["USD"; "CAD"; "EUR"; "GBP"]%string).

(** A weight pattern is passed over when it does not match, or when the
    number of its match, the commas removed, does not parse, or parses to a
    float that is not at least 50. *)
Definition weight_rejected (text : str) (pattern : regex) : Prop :=
  search IGNORECASE pattern text = None
  \/ exists m weight_num,
       search IGNORECASE pattern text = Some m
       /\ option_map strip (group m 1) = Some weight_num
       /\ match py_float (without_commas weight_num) with
          | Some wn => heavy_enough wn = false
          | None => True
          end.

End ExtractionNotions.

(** * Properties *)

(** ** Trimming *)

Module PyFacts.
Import Py Notions.

Lemma lstrip_suffix (s : str) :
  exists pre, s = pre ++ lstrip s /\ forallb isspace pre = true.
Proof.
  induction s as [|c s IH]; simpl.
  - exists []. auto.
  - destruct (isspace c) eqn:E.
    + destruct IH as [pre [H1 H2]]. exists (c :: pre). simpl.
      rewrite E, H2. split; [congruence | reflexivity].
    + exists []. auto.
Qed.

Lemma lstrip_head (s : str) (c : ascii) (r : str) :
  lstrip s = c :: r -> isspace c = false.
Proof.
  induction s as [|x s IH]; simpl; [discriminate|].
  destruct (isspace x) eqn:E; [exact IH|].
  intros H. injection H as -> _. exact E.
Qed.

Lemma lstrip_fixed (c : ascii) (r : str) :
  isspace c = false -> lstrip (c :: r) = c :: r.
Proof. intros H. simpl. now rewrite H. Qed.

Lemma lstrip_blank (s : str) : forallb isspace s = true -> lstrip s = [].
Proof.
  induction s as [|c s IH]; simpl; [reflexivity|].
  intros H. apply andb_prop in H as [H1 H2]. rewrite H1. auto.
Qed.

Lemma lstrip_app_nonblank (s t : str) :
  lstrip s <> [] -> lstrip (s ++ t) = lstrip s ++ t.
Proof.
  induction s as [|c s IH]; simpl; [congruence|].
  destruct (isspace c); auto.
Qed.

Lemma strip_blank (s : str) : forallb isspace s = true -> strip s = [].
Proof.
  intros H. unfold strip, rstrip. now rewrite (lstrip_blank s H).
Qed.

Lemma rstrip_prefix (s : str) :
  exists suf, s = rstrip s ++ suf /\ forallb isspace suf = true.
Proof.
  unfold rstrip. destruct (lstrip_suffix (rev s)) as [pre [H1 H2]].
  exists (rev pre). split.
  - rewrite <- rev_app_distr, <- H1. now rewrite rev_involutive.
  - rewrite forallb_forall in *. intros x Hx. apply H2. now apply in_rev.
Qed.

Lemma rstrip_last (s r : str) (c : ascii) :
  rstrip s = r ++ [c] -> isspace c = false.
Proof.
  unfold rstrip. intros H.
  apply (f_equal (@rev ascii)) in H. rewrite rev_involutive in H.
  rewrite rev_app_distr in H. simpl in H. eapply lstrip_head; eauto.
Qed.

Lemma rstrip_fixed (r : str) (c : ascii) :
  isspace c = false -> rstrip (r ++ [c]) = r ++ [c].
Proof.
  intros H. unfold rstrip. rewrite rev_app_distr. simpl. rewrite H.
  change (c :: rev r) with ([c] ++ rev r). rewrite rev_app_distr.
  now rewrite rev_involutive.
Qed.

Lemma strip_idempotent (s : str) : strip (strip s) = strip s.
Proof.
  unfold strip at 2 3.
  destruct (lstrip s) as [|c r] eqn:El; [reflexivity|].
  pose proof (lstrip_head _ _ _ El) as Hc.
  destruct (rstrip_prefix (c :: r)) as [suf [Hs _]].
  destruct (rstrip (c :: r)) as [|c' r'] eqn:Er; [reflexivity|].
  simpl in Hs. injection Hs as <- _.
  unfold strip. rewrite (lstrip_fixed c r' Hc).
  destruct (@exists_last _ (c :: r')) as [r'' [z Hz]]; [discriminate|].
  rewrite <- Er in Hz.
  pose proof (rstrip_last _ _ _ Hz) as Hzs.
  rewrite Er in Hz. rewrite Hz. rewrite (rstrip_fixed r'' z Hzs).
  reflexivity.
Qed.

Lemma strip_trimmed (s : str) : trimmed (strip s).
Proof. apply strip_idempotent. Qed.

Lemma range_ok (start stop step : Z) :
  step <> 0 -> exists l, range start stop step = Ok l.
Proof.
  intros H. unfold range. destruct (step =? 0) eqn:E; [lia|]. eauto.
Qed.

End PyFacts.

(** ** The segmenter *)

Module SegmenterFacts.
Import Py Re DocumentProcessor PyFacts Notions.

Section Loops.
Context {A S : Type} (body : S -> A -> res S) (inv : S -> Prop).

Lemma for_each_preserves :
  (forall st x st', inv st -> body st x = Ok st' -> inv st') ->
  forall items st st', inv st -> for_each body items st = Ok st' -> inv st'.
Proof.
  intros Hbody items. induction items as [|x items IH]; simpl; intros st st' Hst H.
  - now injection H as <-.
  - destruct (body st x) as [st1|e] eqn:E; simpl in H; [|discriminate].
    apply (IH st1 st'); [eapply Hbody; eassumption | exact H].
Qed.

Lemma for_each_returns :
  (forall st x, exists st', body st x = Ok st') ->
  forall items st, exists st', for_each body items st = Ok st'.
Proof.
  intros Hbody items. induction items as [|x items IH]; simpl; intros st.
  - eauto.
  - destruct (Hbody st x) as [st1 ->]. simpl. apply IH.
Qed.

End Loops.

Lemma truthy_false {A} (l : list A) : truthy l = false -> l = [].
Proof. destruct l; [reflexivity | discriminate]. Qed.

(** *** What the window loop appends *)

Lemma emit_windows (sentence : str) (chunk_size : Z) (starts : list Z)
    (chunks : list str) :
  fold_left (emit_window sentence chunk_size) starts chunks
  = chunks ++ List.filter truthy
                (map (fun i => strip (window sentence chunk_size i)) starts).
Proof.
  revert chunks. induction starts as [|i starts IH]; intros chunks; simpl.
  - now rewrite app_nil_r.
  - rewrite IH. unfold emit_window.
    destruct (truthy (strip (window sentence chunk_size i))); [|reflexivity].
    now rewrite <- app_assoc.
Qed.

Lemma Forall_trimmed_windows (sentence : str) (chunk_size : Z) (starts : list Z) :
  Forall trimmed
    (List.filter truthy (map (fun i => strip (window sentence chunk_size i)) starts)).
Proof.
  apply Forall_forall. intros c Hc. apply filter_In in Hc as [Hc _].
  apply in_map_iff in Hc as [i [<- _]]. apply strip_trimmed.
Qed.

(** *** Every chunk handed to the final filter is trimmed *)

Lemma hard_split_trimmed (sentence : str) (cs co : Z) (chunks chunks' : list str) :
  Forall trimmed chunks ->
  hard_split sentence cs co chunks = Ok chunks' -> Forall trimmed chunks'.
Proof.
  intros Hc. unfold hard_split.
  destruct (range 0 (len sentence) (cs - co)) as [starts|e]; simpl; [|discriminate].
  intros H. injection H as <-. rewrite emit_windows.
  apply Forall_app. split; [assumption | apply Forall_trimmed_windows].
Qed.

Lemma Forall_trimmed_snoc (chunks : list str) (s : str) :
  Forall trimmed chunks -> Forall trimmed (chunks ++ [strip s]).
Proof.
  intros H. apply Forall_app. split; [assumption|].
  constructor; [apply strip_trimmed | constructor].
Qed.

Lemma pack_sentence_trimmed (cs co : Z) (st st' : list str * str) (sentence : str) :
  Forall trimmed (fst st) ->
  pack_sentence cs co st sentence = Ok st' -> Forall trimmed (fst st').
Proof.
  destruct st as [chunks cur]. simpl. intros Hc. unfold pack_sentence.
  destruct (len cur + len sentence + 1 <=? cs).
  - intros H. now injection H as <-.
  - set (flushed := if truthy cur then chunks ++ [strip cur] else chunks).
    assert (Hf : Forall trimmed flushed).
    { unfold flushed. destruct (truthy cur); [now apply Forall_trimmed_snoc | assumption]. }
    destruct (cs <? len sentence).
    + destruct (hard_split sentence cs co flushed) as [chunks1|e] eqn:E;
        simpl; [|discriminate].
      intros H. injection H as <-. simpl. eapply hard_split_trimmed; eauto.
    + intros H. now injection H as <-.
Qed.

Lemma chunk_section_trimmed (cs co : Z) (chunks chunks' : list str) (section : str) :
  Forall trimmed chunks ->
  chunk_section cs co chunks section = Ok chunks' -> Forall trimmed chunks'.
Proof.
  intros Hc. unfold chunk_section.
  destruct (truthy (strip section)); simpl.
  2:{ intros H. now injection H as <-. }
  destruct (len (strip section) <=? cs).
  { intros H. injection H as <-. now apply Forall_trimmed_snoc. }
  destruct (for_each _ _ _) as [[chunks1 cur]|e] eqn:E; simpl; [|discriminate].
  assert (H1 : Forall trimmed (fst (chunks1, cur))).
  { eapply (for_each_preserves (pack_sentence cs co)
              (fun st => Forall trimmed (fst st))); [| |exact E]; simpl; auto.
    intros; eapply pack_sentence_trimmed; eauto. }
  simpl in H1. destruct (truthy (strip cur)); intros H; injection H as <-;
    [now apply Forall_trimmed_snoc | assumption].
Qed.

Lemma range_unit (n : nat) :
  range 0 (Z.of_nat n) 1 = Ok (map Z.of_nat (seq 0 n)).
Proof.
  unfold range. simpl.
  assert (Hc : Z.to_nat (if 0 <? Z.of_nat n then (Z.of_nat n - 0 + 1 - 1) / 1 else 0) = n).
  { destruct (0 <? Z.of_nat n) eqn:E.
    - rewrite Z.div_1_r. lia.
    - apply Z.ltb_ge in E. lia. }
  rewrite Hc. f_equal. apply map_ext. intros k. lia.
Qed.

End SegmenterFacts.

Module SegmenterSpec.
Import Py Re DocumentProcessor PyFacts SegmenterFacts Notions.

(** *** Blank input and totality *)

Lemma hard_split_returns (sentence : str) (cs co : Z) (chunks : list str) :
  cs <> co -> exists chunks', hard_split sentence cs co chunks = Ok chunks'.
Proof.
  intros H. unfold hard_split.
  destruct (range_ok 0 (len sentence) (cs - co)) as [starts ->]; [lia|].
  simpl. eauto.
Qed.

Lemma pack_sentence_returns (cs co : Z) (st : list str * str) (sentence : str) :
  cs <> co -> exists st', pack_sentence cs co st sentence = Ok st'.
Proof.
  intros H. destruct st as [chunks cur]. unfold pack_sentence.
  destruct (len cur + len sentence + 1 <=? cs); [eauto|].
  destruct (cs <? len sentence); [|eauto].
  destruct (hard_split_returns sentence cs co
              (if truthy cur then chunks ++ [strip cur] else chunks) H) as [c ->].
  simpl. eauto.
Qed.

Lemma chunk_section_returns (cs co : Z) (chunks : list str) (section : str) :
  cs <> co -> exists chunks', chunk_section cs co chunks section = Ok chunks'.
Proof.
  intros H. unfold chunk_section.
  destruct (negb (truthy (strip section))); [eauto|].
  destruct (len (strip section) <=? cs); [eauto|].
  destruct (for_each_returns (pack_sentence cs co)
              (fun st x => pack_sentence_returns cs co st x H)
              (split NOFLAGS SENTENCE_END (strip section)) (chunks, lit ""))
    as [[chunks1 cur] ->].
  simpl. destruct (truthy (strip cur)); eauto.
Qed.

(** C9, as amended.  Blank text gives the empty sequence whatever the
    parameters, and for every text the segmenter returns a sequence, without
    raising, whenever [chunk_size] differs from [chunk_overlap]. *)
Theorem intelligent_chunk_total (text : str) (chunk_size chunk_overlap : Z) :
  (forallb isspace text = true ->
   intelligent_chunk text chunk_size chunk_overlap = Ok [])
  /\ (chunk_size <> chunk_overlap ->
      exists chunks, intelligent_chunk text chunk_size chunk_overlap = Ok chunks).
Proof.
  split.
  - intros Hb. unfold intelligent_chunk. now rewrite (strip_blank text Hb).
  - intros H. unfold intelligent_chunk.
    destruct (negb (truthy (strip text))); [eauto|].
    destruct (for_each_returns (chunk_section chunk_size chunk_overlap)
                (fun st x => chunk_section_returns chunk_size chunk_overlap st x H)
                (split_sections (split_on NL text)) []) as [chunks ->].
    simpl. eauto.
Qed.

Lemma intelligent_chunk_total_witness :
  intelligent_chunk (lit "  ") 512 64 = Ok []
  /\ exists chunks,
       intelligent_chunk (lit "RATE CONFIRMATION for load 4471, all in.") 512 64
       = Ok chunks.
Proof.
  split.
  - apply (intelligent_chunk_total (lit "  ") 512 64). reflexivity.
  - apply (intelligent_chunk_total
             (lit "RATE CONFIRMATION for load 4471, all in.") 512 64). lia.
Defined.

(** C9, as the specification words it, fails: with [chunk_size] equal to
    [chunk_overlap] the window loop asks [range] for a zero step. *)
Lemma intelligent_chunk_raises :
  ~ exists chunks,
      intelligent_chunk (lit "aaaaaaaaaaaaaaaaaaaaaaaaa") 5 5 = Ok chunks.
Proof. intros [chunks H]. vm_compute in H. discriminate. Qed.

Example intelligent_chunk_zero_step :
  intelligent_chunk (lit "aaaaaaaaaaaaaaaaaaaaaaaaa") 5 5
  = Raise (ValueError "range() arg 3 must not be zero").
Proof. reflexivity. Qed.

(** *** The emitted chunks *)

(** C1.  Whenever the segmenter returns, every chunk it returns has trimmed
    length at least 20, and the indices stored with the chunks are
    0, 1, 2, ... in the order of the chunks. *)
Theorem emitted_chunks_invariant (text : str) (chunk_size chunk_overlap : Z)
    (chunks : list str) :
  intelligent_chunk text chunk_size chunk_overlap = Ok chunks ->
  Forall (fun c => 20 <= len (strip c)) chunks
  /\ exists stored,
       indexed_chunks chunks = Ok stored
       /\ map DocumentProcessor.text stored = chunks
       /\ map index stored = map Z.of_nat (seq 0 (length chunks)).
Proof.
  intros H. split.
  - unfold intelligent_chunk in H.
    destruct (negb (truthy (strip text))).
    { injection H as <-. constructor. }
    destruct (for_each _ _ _) as [all|e] eqn:E; simpl in H; [|discriminate].
    injection H as <-.
    assert (Ht : Forall trimmed all).
    { eapply (for_each_preserves (chunk_section chunk_size chunk_overlap)
                (Forall trimmed)); [| |exact E].
      - intros; eapply chunk_section_trimmed; eauto.
      - constructor. }
    apply List.Forall_forall. intros c Hc. apply filter_In in Hc as [Hc Hl].
    rewrite List.Forall_forall in Ht. rewrite (Ht c Hc). lia.
  - unfold indexed_chunks, chunk_indices, len. rewrite range_unit. simpl.
    eexists. split; [reflexivity|].
    assert (Hgen : forall (l : list str) (a : nat),
               map DocumentProcessor.text
                 (map (fun '(t, i) => {| DocumentProcessor.text := t; index := i |})
                    (combine l (map Z.of_nat (seq a (length l))))) = l
               /\ map index
                    (map (fun '(t, i) => {| DocumentProcessor.text := t; index := i |})
                       (combine l (map Z.of_nat (seq a (length l)))))
                  = map Z.of_nat (seq a (length l))).
    { induction l as [|x l IH]; intros a; simpl; [auto|].
      destruct (IH (S a)) as [H1 H2]. rewrite H1, H2. auto. }
    apply Hgen.
Qed.

Lemma emitted_chunks_invariant_witness :
  let chunks :=
    [lit "SHIPMENT DETAILS: load 4471 leaves Tuesday.";
     lit "CARRIER INFORMATION FastFreight LLC"] in
  Forall (fun c => 20 <= len (strip c)) chunks
  /\ exists stored,
       indexed_chunks chunks = Ok stored
       /\ map DocumentProcessor.text stored = chunks
       /\ map index stored = map Z.of_nat (seq 0 (length chunks)).
Proof.
  apply (emitted_chunks_invariant
           (lit "SHIPMENT DETAILS: load 4471 leaves Tuesday."
            ++ [NL] ++ lit "CARRIER INFORMATION FastFreight LLC")
           512 64).
  vm_compute. reflexivity.
Defined.

End SegmenterSpec.

Module HardSplit.
Import Py Re DocumentProcessor PyFacts SegmenterFacts Notions.

Lemma window_inside (sentence : str) (cs i : Z) :
  0 <= i <= len sentence -> 0 <= cs ->
  window sentence cs i = firstn (Z.to_nat cs) (skipn (Z.to_nat i) sentence).
Proof.
  intros Hi Hcs. unfold window, slice, slice_index.
  destruct (i <? 0) eqn:E1; [apply Z.ltb_lt in E1; lia|].
  destruct (i + cs <? 0) eqn:E2; [apply Z.ltb_lt in E2; lia|].
  rewrite (Z.min_l i) by lia.
  destruct (Z.le_gt_cases (i + cs) (len sentence)) as [H|H].
  - rewrite Z.min_l by lia. f_equal. lia.
  - rewrite Z.min_r by lia.
    assert (Hl : (length (skipn (Z.to_nat i) sentence) = Z.to_nat (len sentence - i))%nat).
    { rewrite length_skipn. unfold len. lia. }
    rewrite !firstn_all2 by (rewrite Hl; lia). reflexivity.
Qed.

Lemma window_count (L step : Z) (k : nat) :
  0 < step -> 0 < L ->
  (k < Z.to_nat ((L + step - 1) / step))%nat -> Z.of_nat k * step < L.
Proof.
  intros Hs HL Hk.
  pose proof (Z.mul_div_le (L + step - 1) step Hs) as Hq.
  assert (Z.of_nat k + 1 <= (L + step - 1) / step) by lia.
  nia.
Qed.

(** C4, as amended.  A sentence longer than [chunk_size] (with
    [0 <= chunk_overlap < chunk_size]) is cut into the windows that start at
    the multiples of [chunk_size - chunk_overlap] below its length; the buffer
    is flushed first, every window that is not blank is appended trimmed as a
    chunk of its own, and the buffer is left empty.  A window that lies wholly
    inside the sentence has length [chunk_size], and its last [chunk_overlap]
    characters are the first [chunk_overlap] characters of the next window.
    When [2 * chunk_overlap <= chunk_size] every window but the last two lies
    wholly inside, so only the last pair can share fewer characters. *)
Theorem hard_split_windows (chunks : list str) (cur sentence : str)
    (chunk_size chunk_overlap : Z) :
  0 <= chunk_overlap < chunk_size -> chunk_size < len sentence ->
  let step := chunk_size - chunk_overlap in
  let n := Z.to_nat ((len sentence + step - 1) / step) in
  let win := fun k : nat => window sentence chunk_size (Z.of_nat k * step) in
  pack_sentence chunk_size chunk_overlap (chunks, cur) sentence
  = Ok ((if truthy cur then chunks ++ [strip cur] else chunks)
        ++ List.filter truthy (map (fun k => strip (win k)) (seq 0 n)),
        lit "")
  /\ (forall k, (k < n)%nat ->
        win k = firstn (Z.to_nat chunk_size)
                  (skipn (k * Z.to_nat step) sentence))
  /\ (forall k, Z.of_nat k * step + chunk_size <= len sentence ->
        len (win k) = chunk_size)
  /\ (forall k, (S k < n)%nat ->
        Z.of_nat k * step + chunk_size <= len sentence ->
        skipn (Z.to_nat step) (win k) = firstn (Z.to_nat chunk_overlap) (win (S k))
        /\ len (firstn (Z.to_nat chunk_overlap) (win (S k))) = chunk_overlap)
  /\ (2 * chunk_overlap <= chunk_size ->
      forall k, (S (S k) < n)%nat ->
        Z.of_nat k * step + chunk_size <= len sentence).
Proof.
  intros Ho Hlen step n win.
  assert (Hstep : 0 < step) by (unfold step; lia).
  assert (HL : 0 < len sentence) by lia.
  assert (Hstart : forall k, (k < n)%nat -> Z.of_nat k * step < len sentence).
  { intros k Hk. now apply window_count. }
  assert (Hwin : forall k, Z.of_nat k * step <= len sentence ->
            win k = firstn (Z.to_nat chunk_size)
                      (skipn (k * Z.to_nat step) sentence)).
  { intros k Hk. unfold win. rewrite window_inside by lia.
    do 2 f_equal. lia. }
  repeat split.
  - unfold pack_sentence.
    destruct (len cur + len sentence + 1 <=? chunk_size) eqn:E1.
    { apply Z.leb_le in E1. unfold len in *. lia. }
    destruct (chunk_size <? len sentence) eqn:E2.
    2:{ apply Z.ltb_ge in E2. lia. }
    unfold hard_split, range. fold step.
    destruct (step =? 0) eqn:E3; [lia|].
    destruct (0 <? step) eqn:E4; [|apply Z.ltb_ge in E4; lia].
    destruct (0 <? len sentence) eqn:E5; [|apply Z.ltb_ge in E5; lia].
    simpl. rewrite emit_windows. rewrite map_map.
    replace (len sentence - 0 + step - 1) with (len sentence + step - 1) by lia.
    fold n. reflexivity.
  - intros k Hk. apply Hwin. specialize (Hstart k Hk). lia.
  - intros k Hk. rewrite Hwin by lia. unfold len in *.
    rewrite length_firstn, length_skipn. lia.
  - rewrite Hwin by lia.
    assert (Hnext : Z.of_nat (S k) * step <= len sentence) by lia.
    rewrite (Hwin (S k) Hnext).
    rewrite skipn_firstn_comm, skipn_skipn, firstn_firstn.
    f_equal; try (unfold step; lia).
  - assert (Hnext : Z.of_nat (S k) * step <= len sentence) by lia.
    rewrite (Hwin (S k) Hnext). unfold len in *.
    rewrite !length_firstn, length_skipn. lia.
  - intros Hhalf k Hk. specialize (Hstart (S (S k)) Hk). unfold step in *. lia.
Qed.

Lemma hard_split_windows_witness :
  pack_sentence 8 2 ([], lit "Dock 4.") (lit "PALLETS-OF-STEEL-COIL")
  = Ok ([lit "Dock 4."; lit "PALLETS-"; lit "S-OF-STE"; lit "TEEL-COI"; lit "OIL"],
        lit "").
Proof.
  destruct (hard_split_windows [] (lit "Dock 4.") (lit "PALLETS-OF-STEEL-COIL") 8 2)
    as [H _]; [lia | vm_compute; reflexivity |].
  exact H.
Defined.

(** C4 as the specification words it (every consecutive pair of emitted
    windows but the last shares exactly [chunk_overlap] characters) fails.
    With an overlap of 3 in windows of 4 the sentence [abcdefghij] gives the
    ten windows [abcd], [bcde], ..., [ghij], [hij], [ij], [j]: the pair
    ([hij], [ij]) is not the last one and cannot share 3 characters. *)
Lemma hard_split_short_tail :
  ~ every_pair_but_last_overlaps (lit "abcdefghij") 4 3.
Proof.
  intros H. specialize (H _ _ eq_refl 7%nat).
  vm_compute in H. destruct H as [_ [H _]]; lia.
Qed.

(** Trimming alone already breaks the overlap of the emitted chunks: with an
    overlap of 1 in windows of 4, [abc defghi] is cut into [abc ], [ def],
    [fghi], [i] and emitted as [abc], [def], [fghi], [i]. *)
Example hard_split_trims_windows :
  pack_sentence 4 1 ([], lit "") (lit "abc defghi")
  = Ok ([lit "abc"; lit "def"; lit "fghi"; lit "i"], lit "").
Proof. reflexivity. Qed.

End HardSplit.

(** ** Floats between 0 and 1 *)

Module FloatFacts.
Import Py PyFloat Notions.

Lemma digits2_bound (m : positive) : Zpos m < 2 ^ Zpos (digits2_pos m).
Proof.
  induction m as [m IH|m IH|]; simpl digits2_pos.
  - rewrite Pos2Z.inj_succ, Z.pow_succ_r by lia. lia.
  - rewrite Pos2Z.inj_succ, Z.pow_succ_r by lia. lia.
  - reflexivity.
Qed.

Lemma compare_cont_lt (m n : positive) :
  Pos.compare_cont Eq m n = Lt -> Zpos m < Zpos n.
Proof. intros H. apply Pos2Z.pos_lt_pos. exact H. Qed.

Lemma Prim2SF_zero : Prim2SF 0%float = S754_zero false.
Proof. reflexivity. Qed.

Lemma Prim2SF_one : Prim2SF 1%float = S754_finite false 4503599627370496 (-52).
Proof. reflexivity. Qed.

(** A float strictly between 0 and 1 is [m * 2^e] with [m < 2^(-e)]. *)
Lemma strictly_inside_unit (x : float) :
  (0 <? x)%float = true -> (x <? 1)%float = true ->
  exists m e, Prim2SF x = S754_finite false m e /\ e < 0 /\ Zpos m < 2 ^ (- e).
Proof.
  rewrite !ltb_spec, Prim2SF_zero, Prim2SF_one.
  pose proof (Prim2SF_valid x) as Hv.
  destruct (Prim2SF x) as [s|s| |s m e]; try (destruct s; discriminate);
    try discriminate.
  destruct s; [discriminate|]. intros _ H1.
  exists m, e. split; [reflexivity|].
  unfold SFltb, SFcompare in H1.
  destruct (Z.compare_spec e (-52)) as [He|He|He]; try discriminate.
  - subst e.
    destruct (Pos.compare_cont Eq m 4503599627370496) eqn:Hm; try discriminate.
    apply compare_cont_lt in Hm.
    split; [lia|]. change (- -52) with 52.
    change (2 ^ 52) with 4503599627370496. exact Hm.
  - split; [lia|].
    unfold valid_binary, bounded, canonical_mantissa, fexp in Hv.
    apply andb_prop in Hv as [Hc _]. apply Z.eqb_eq in Hc.
    unfold SpecFloat.emin, prec, emax in Hc.
    pose proof (digits2_bound m) as Hd.
    assert (Hle : Zpos (digits2_pos m) <= - e) by lia.
    eapply Z.lt_le_trans; [exact Hd|].
    apply Z.pow_le_mono_r; lia.
Qed.

Lemma round_half_even_range (num den bound : Z) :
  0 <= num -> 0 < den -> num < bound * den ->
  0 <= round_half_even num den <= bound.
Proof.
  intros Hn Hd Hb. unfold round_half_even.
  assert (Hq : 0 <= num / den) by (apply Z.div_pos; lia).
  assert (Hq' : num / den < bound) by (apply Z.div_lt_upper_bound; lia).
  destruct (2 * (num mod den) <? den); [lia|].
  destruct (den <? 2 * (num mod den)); [lia|].
  destruct (Z.even (num / den)); lia.
Qed.

Lemma ten_thousandths_checked :
  forallb (fun k => in_unit (ten_thousandth (Z.of_nat k))) (seq 0 (Z.to_nat 10001)) = true.
Proof. vm_compute. reflexivity. Qed.

Lemma ten_thousandth_in_unit (k : Z) :
  0 <= k <= 10000 -> in_unit (ten_thousandth k) = true.
Proof.
  intros Hk. pose proof ten_thousandths_checked as H.
  rewrite forallb_forall in H. specialize (H (Z.to_nat k)).
  rewrite Z2Nat.id in H by lia. apply H. apply in_seq. lia.
Qed.

(** Clamping: [min(1.0, max(0.0, x))] is 0, 1, or [x] itself strictly
    between them. *)
Lemma clamp_cases (x : float) :
  let m := py_min 1 (py_max 0 x) in
  m = 0%float \/ m = 1%float
  \/ (m = x /\ (0 <? x)%float = true /\ (x <? 1)%float = true).
Proof.
  unfold py_min, py_max.
  destruct (0 <? x)%float eqn:E0.
  - destruct (x <? 1)%float eqn:E1; auto.
  - change (0 <? 1)%float with true. cbv iota. auto.
Qed.

(** Rounding a clamped value to 4 places gives one of the [k / 10000]. *)
Lemma round_clamped (x : float) :
  exists k, 0 <= k <= 10000
            /\ py_round (py_min 1 (py_max 0 x)) 4 = ten_thousandth k.
Proof.
  destruct (clamp_cases x) as [H|[H|[H [H0 H1]]]]; cbv zeta in H; rewrite H.
  - exists 0. split; [lia | reflexivity].
  - exists 10000. split; [lia | vm_compute; reflexivity].
  - destruct (strictly_inside_unit x H0 H1) as [m [e [Hx [He Hm]]]].
    unfold py_round. rewrite Hx.
    change (10 ^ Z.of_nat 4) with 10000. unfold scaled_nearest.
    destruct (0 <=? e) eqn:E; [apply Z.leb_le in E; lia|].
    exists (round_half_even (Zpos m * 10000) (2 ^ (- e))).
    split; [|reflexivity].
    apply round_half_even_range; [lia | apply Z.pow_pos_nonneg; lia | nia].
Qed.

End FloatFacts.

(** ** Confidence scores *)

Module ConfidenceSpec.
Import Py Re PyFloat Guardrails FloatFacts Notions.
Local Open Scope float_scope.

(** C10.  With no similarity score the retrieval confidence is exactly 0.0,
    not the neutral 0.5, and its share of the composite is 0.0. *)
Theorem retrieval_confidence_empty :
  compute_retrieval_confidence [] = 0
  /\ (compute_retrieval_confidence [] =? 0.5) = false
  /\ 0.40 * compute_retrieval_confidence [] = 0
  /\ forall answer source_texts chunks,
       compute_composite_confidence [] answer source_texts chunks
       = py_round
           (py_min 1
              (py_max 0
                 (0 + 0.35 * compute_answer_coverage answer source_texts
                  + 0.25 * compute_chunk_agreement chunks answer))) 4.
Proof. repeat split. Qed.

(** C3, as amended.  For a non-empty answer without significant words and a
    non-empty list of source texts the coverage is the neutral 0.5.  When the
    answer is empty or there is no source text the coverage is 0.0, whatever
    the words of the answer are: that test comes before the words are looked
    at. *)
Theorem coverage_neutral (answer : str) (source_texts : list str) :
  (answer <> [] -> source_texts <> [] -> significant_words answer = [] ->
   compute_answer_coverage answer source_texts = 0.5)
  /\ (answer = [] \/ source_texts = [] ->
      compute_answer_coverage answer source_texts = 0).
Proof.
  split.
  - intros Ha Hs Hw. unfold compute_answer_coverage.
    destruct answer; [congruence|]. destruct source_texts; [congruence|].
    simpl negb. simpl orb. cbv iota. now rewrite Hw.
  - intros [-> | ->]; unfold compute_answer_coverage.
    + reflexivity.
    + destruct answer; reflexivity.
Qed.

Lemma coverage_neutral_witness :
  compute_answer_coverage (lit "It is.") [lit "Rate: 450"] = 0.5
  /\ significant_words (lit "It is.") = []
  /\ compute_answer_coverage (lit "It is.") [] = 0
  /\ compute_answer_coverage (lit "") [lit "Rate: 450"] = 0.
Proof.
  split; [|split; [|split]].
  - apply (proj1 (coverage_neutral (lit "It is.") [lit "Rate: 450"]));
      [discriminate | discriminate | vm_compute; reflexivity].
  - vm_compute; reflexivity.
  - apply (proj2 (coverage_neutral (lit "It is.") [])). right. reflexivity.
  - apply (proj2 (coverage_neutral (lit "") [lit "Rate: 450"])). left.
    reflexivity.
Defined.

Lemma zero_is_not_half : (0 : float) <> 0.5.
Proof.
  intros H. apply (f_equal Prim2SF) in H. vm_compute in H. discriminate.
Qed.

(** C3 as the specification words it fails: the guard on an empty answer or
    an empty source list comes first and returns 0.0. *)
Lemma coverage_without_sources :
  significant_words (lit "It is.") = []
  /\ compute_answer_coverage (lit "It is.") [] <> 0.5.
Proof.
  split; [vm_compute; reflexivity|].
  change (compute_answer_coverage (lit "It is.") []) with (0 : float).
  exact zero_is_not_half.
Qed.

Example coverage_of_empty_answer :
  significant_words (lit "") = []
  /\ compute_answer_coverage (lit "") [lit "Rate: 450"] = 0.
Proof. split; reflexivity. Qed.

(** C7.  The composite is [0.40 * retrieval + 0.35 * coverage
    + 0.25 * agreement], clamped by [min(1.0, max(0.0, _))] and rounded to
    four places: it is the float nearest to [k / 10000] for some integer
    [0 <= k <= 10000], and compares between 0 and 1, whatever the scores
    (NaN and infinities included), the answer, the sources and the chunks. *)
Theorem composite_confidence_unit (similarity_scores : list float)
    (answer : str) (source_texts : list str) (chunks : list chunk) :
  let c := compute_composite_confidence similarity_scores answer source_texts chunks in
  c = py_round
        (py_min 1
           (py_max 0
              (0.40 * compute_retrieval_confidence similarity_scores
               + 0.35 * compute_answer_coverage answer source_texts
               + 0.25 * compute_chunk_agreement chunks answer))) 4
  /\ (exists k, (0 <= k <= 10000)%Z /\ c = of_ratio false k 10000)
  /\ (0 <=? c) = true /\ (c <=? 1) = true.
Proof.
  intros c. split; [reflexivity|].
  destruct (round_clamped
              (0.40 * compute_retrieval_confidence similarity_scores
               + 0.35 * compute_answer_coverage answer source_texts
               + 0.25 * compute_chunk_agreement chunks answer))
    as [k [Hk Hc]].
  fold (compute_composite_confidence similarity_scores answer source_texts chunks) in Hc.
  fold c in Hc. split; [exists k; auto|].
  pose proof (ten_thousandth_in_unit k Hk) as Hu. rewrite <- Hc in Hu.
  unfold in_unit in Hu. now apply andb_prop in Hu.
Qed.

(** The same holds of the retrieval confidence alone. *)
Lemma retrieval_confidence_unit (similarity_scores : list float) :
  in_unit (compute_retrieval_confidence similarity_scores) = true.
Proof.
  destruct similarity_scores as [|top others]; [reflexivity|].
  unfold compute_retrieval_confidence.
  match goal with
  | |- in_unit (py_round (py_min 1 (py_max 0 ?x)) 4) = true =>
      destruct (round_clamped x) as [k [Hk ->]]
  end.
  now apply ten_thousandth_in_unit.
Qed.

Example composite_confidence_sample :
  compute_composite_confidence [0.8; 0.6]
    (lit "The carrier is FastFreight LLC.")
    [lit "Carrier: FastFreight LLC"; lit "Rate: 450"]
    [ {| text := lit "Carrier: FastFreight LLC"; chunk_index := 0;
         similarity_score := 0.8 |};
      {| text := lit "Rate: 450"; chunk_index := 1; similarity_score := 0.6 |} ]
  = 0.799.
Proof. vm_compute. reflexivity. Qed.

End ConfidenceSpec.

(** ** Guardrails *)

Module GuardrailSpec.
Import Py Re PyFloat Guardrails Notions.
Local Open Scope float_scope.

Lemma check_phrases_find (phrases : list str) (answer : str) (rest : decision) :
  check_phrases phrases answer (lower answer) rest
  = match find (fun phrase => contains phrase (lower answer)) phrases with
    | Some phrase =>
        (true, Some (hallucination_message phrase), CAUTION ++ answer)
    | None => rest
    end.
Proof.
  induction phrases as [|p phrases IH]; simpl; [reflexivity|].
  destruct (contains p (lower answer)); [reflexivity | exact IH].
Qed.

(** C2.  The rules are tried in the order 1 to 4 and the first that applies
    decides; the best score is the first of the ranked list.
    - Rule 1: [confidence < threshold].
    - Rule 2: a first score is there and is below 0.25.
    - Rule 3: the lowered answer holds a phrase of the list; the answer is
      kept, behind the caution marker.
    - Rule 4: the trimmed answer has fewer than 10 characters.
    - Otherwise nothing is triggered and the answer is returned as it is.
    With confidence 0.2 and threshold 0.45 rule 1 decides, whatever the
    answer and the scores. *)
Theorem check_guardrails_order (answer : str) (confidence threshold : float)
    (similarity_scores : list float) :
  let d := check_guardrails answer confidence similarity_scores threshold in
  ((confidence <? threshold) = true ->
     d = (true, Some (low_confidence_message confidence threshold), NOT_CONFIDENT))
  /\ ((confidence <? threshold) = false ->
      forall top others, similarity_scores = top :: others ->
        (top <? 0.25) = true ->
        d = (true, Some (low_similarity_message top), NO_RELEVANT_CONTENT))
  /\ ((confidence <? threshold) = false ->
      (forall top others, similarity_scores = top :: others ->
         (top <? 0.25) = false) ->
      (forall phrase, first_phrase answer = Some phrase ->
         In phrase HALLUCINATION_PHRASES
         /\ contains phrase (lower answer) = true
         /\ d = (true, Some (hallucination_message phrase), CAUTION ++ answer))
      /\ (first_phrase answer = None -> (len (strip answer) < 10)%Z ->
          d = (true, Some TOO_SHORT_MESSAGE, NO_MEANINGFUL_ANSWER))
      /\ (first_phrase answer = None -> (10 <= len (strip answer))%Z ->
          d = (false, None, answer)))
  /\ check_guardrails answer 0.2 similarity_scores 0.45
     = (true, Some (low_confidence_message 0.2 0.45), NOT_CONFIDENT).
Proof.
  intros d. unfold d, check_guardrails.
  assert (Hnone : (forall top others, similarity_scores = top :: others ->
                     (top <? 0.25) = false) ->
                  low_similarity similarity_scores = None).
  { intros H0. unfold low_similarity.
    destruct similarity_scores as [|top others]; [reflexivity|].
    now rewrite (H0 top others eq_refl). }
  split; [|split; [|split]].
  - intros ->. reflexivity.
  - intros -> top others -> Ht. unfold low_similarity. now rewrite Ht.
  - intros -> H0. rewrite (Hnone H0), check_phrases_find.
    fold (first_phrase answer).
    split; [|split].
    + intros phrase Hf. rewrite Hf.
      apply find_some in Hf. destruct Hf as [Hin Hc]. auto.
    + intros -> Hl. apply Z.ltb_lt in Hl. now rewrite Hl.
    + intros -> Hl. apply Z.ltb_ge in Hl. now rewrite Hl.
  - reflexivity.
Qed.

Lemma check_guardrails_order_witness :
  check_guardrails (lit "The rate is 450 USD.") 0.3 [0.9] 0.45
  = (true, Some (low_confidence_message 0.3 0.45), NOT_CONFIDENT)
  /\ check_guardrails (lit "The rate is 450 USD.") 0.9 [0.2; 0.1] 0.45
     = (true, Some (low_similarity_message 0.2), NO_RELEVANT_CONTENT)
  /\ check_guardrails (lit "As an AI, I cannot determine this.") 0.9 [0.8] 0.45
     = (true, Some (hallucination_message (lit "as an ai")),
        CAUTION ++ lit "As an AI, I cannot determine this.")
  /\ check_guardrails (lit "  450  ") 0.9 [0.8] 0.45
     = (true, Some TOO_SHORT_MESSAGE, NO_MEANINGFUL_ANSWER)
  /\ check_guardrails (lit "The rate is 450 USD.") 0.9 [0.8] 0.45
     = (false, None, lit "The rate is 450 USD.").
Proof.
  split; [|split; [|split; [|split]]].
  - apply (check_guardrails_order (lit "The rate is 450 USD.") 0.3 0.45 [0.9]).
    reflexivity.
  - apply (proj1 (proj2 (check_guardrails_order
                           (lit "The rate is 450 USD.") 0.9 0.45 [0.2; 0.1]))
             eq_refl 0.2 [0.1] eq_refl eq_refl).
  - destruct (check_guardrails_order
                (lit "As an AI, I cannot determine this.") 0.9 0.45 [0.8])
      as [_ [_ [H _]]].
    destruct (H eq_refl) as [H3 _].
    { intros top others E. injection E as <- _. reflexivity. }
    apply (H3 (lit "as an ai")). vm_compute. reflexivity.
  - destruct (check_guardrails_order (lit "  450  ") 0.9 0.45 [0.8])
      as [_ [_ [H _]]].
    destruct (H eq_refl) as [_ [H4 _]].
    { intros top others E. injection E as <- _. reflexivity. }
    apply H4; [vm_compute; reflexivity | vm_compute; reflexivity].
  - destruct (check_guardrails_order (lit "The rate is 450 USD.") 0.9 0.45 [0.8])
      as [_ [_ [H _]]].
    destruct (H eq_refl) as [_ [_ H5]].
    { intros top others E. injection E as <- _. reflexivity. }
    apply H5; [vm_compute; reflexivity | vm_compute; discriminate].
Defined.

End GuardrailSpec.

(** ** Capture groups of the matcher *)

Module ReFacts.
Import Py Re Notions.

Lemma extends_refl (caps : captures) : extends caps caps.
Proof. intros i H. exact H. Qed.

Lemma extends_trans (c1 c2 c3 : captures) :
  extends c1 c2 -> extends c2 c3 -> extends c1 c3.
Proof. intros H1 H2 i H. apply H2, H1, H. Qed.

Lemma extends_cons (caps : captures) (j : nat) (g : str) :
  extends caps ((j, g) :: caps).
Proof.
  intros i H. simpl. destruct (Nat.eqb i j); [discriminate | exact H].
Qed.

Section Captures.
Context {R : Type} (fl : flags).

Lemma orelse_some {A} (x y : option A) (a : A) :
  orelse x y = Some a -> x = Some a \/ y = Some a.
Proof. destruct x; simpl; auto. Qed.

Lemma rep_atom_continues (greedy : bool) (a : atom) (s : str) :
  forall (lo : nat) (hi : option nat) (prev : option ascii) (caps : captures)
         (k : @cont R) (res : R),
    rep_atom fl greedy a lo hi prev s caps k = Some res ->
    exists prev' s', k prev' s' caps = Some res.
Proof.
  induction s as [|c s IH]; intros lo hi prev caps k res H; simpl in H.
  - assert (Hstop : (match lo with O => k prev [] caps | S _ => None end)
                    = Some res).
    { destruct greedy; [exact H|].
      apply orelse_some in H as [H|H]; [exact H | discriminate]. }
    destruct lo; [eauto | discriminate].
  - assert (Hcases :
      (match lo with O => k prev (c :: s) caps | S _ => None end) = Some res
      \/ (if hi_allows hi && atom_match fl a c
          then rep_atom fl greedy a (Nat.pred lo) (option_map Nat.pred hi)
                 (Some c) s caps k
          else None) = Some res).
    { destruct greedy; apply orelse_some in H; tauto. }
    destruct Hcases as [H1|H1].
    + destruct lo; [eauto | discriminate].
    + destruct (hi_allows hi && atom_match fl a c); [|discriminate].
      eapply IH; eauto.
Qed.

(** A successful match has run its continuation, with every group of
    before still there and the groups on every path captured. *)
Lemma rmatch_captures (r : regex) :
  forall (prev : option ascii) (s : str) (caps : captures) (k : @cont R)
         (res : R),
    rmatch fl r prev s caps k = Some res ->
    exists prev' s' caps',
      k prev' s' caps' = Some res
      /\ extends caps caps'
      /\ forall i, always_captures i r = true -> group_in caps' i <> None.
Proof.
  induction r as [|a|r1 IH1 r2 IH2|r1 IH1 r2 IH2|r1 IH1|greedy lo hi a
                  |j r1 IH1| | | |a];
    intros prev s caps k res H; simpl in H.
  - exists prev, s, caps. split; [exact H|]. split; [apply extends_refl|].
    discriminate.
  - destruct s as [|c s]; [discriminate|].
    destruct (atom_match fl a c); [|discriminate].
    exists (Some c), s, caps. split; [exact H|]. split; [apply extends_refl|].
    discriminate.
  - apply IH1 in H as [p1 [s1 [c1 [H [He1 Hc1]]]]].
    apply IH2 in H as [p2 [s2 [c2 [H [He2 Hc2]]]]].
    exists p2, s2, c2. split; [exact H|].
    split; [eapply extends_trans; eauto|].
    intros i Hi. simpl in Hi. apply orb_prop in Hi as [Hi|Hi]; auto.
  - apply orelse_some in H as [H|H].
    + apply IH1 in H as [p1 [s1 [c1 [H [He1 Hc1]]]]].
      exists p1, s1, c1. split; [exact H|]. split; [exact He1|].
      intros i Hi. simpl in Hi. apply andb_prop in Hi as [Hi _]. auto.
    + apply IH2 in H as [p1 [s1 [c1 [H [He1 Hc1]]]]].
      exists p1, s1, c1. split; [exact H|]. split; [exact He1|].
      intros i Hi. simpl in Hi. apply andb_prop in Hi as [_ Hi]. auto.
  - apply orelse_some in H as [H|H].
    + apply IH1 in H as [p1 [s1 [c1 [H [He1 _]]]]].
      exists p1, s1, c1. split; [exact H|]. split; [exact He1|]. discriminate.
    + exists prev, s, caps. split; [exact H|]. split; [apply extends_refl|].
      discriminate.
  - apply rep_atom_continues in H as [p1 [s1 H]].
    exists p1, s1, caps. split; [exact H|]. split; [apply extends_refl|].
    discriminate.
  - apply IH1 in H as [p1 [s1 [c1 [H [He1 Hc1]]]]].
    exists p1, s1, ((j, firstn (length s - length s1) s) :: c1).
    split; [exact H|]. split.
    + eapply extends_trans; [exact He1 | apply extends_cons].
    + intros i Hi. simpl in Hi. simpl.
      destruct (Nat.eqb i j); [discriminate|]. simpl in Hi. auto.
  - destruct (at_bol fl prev); [|discriminate].
    exists prev, s, caps. split; [exact H|]. split; [apply extends_refl|].
    discriminate.
  - destruct (at_eol fl s); [|discriminate].
    exists prev, s, caps. split; [exact H|]. split; [apply extends_refl|].
    discriminate.
  - destruct (xorb (word_before prev) (word_after s)); [|discriminate].
    exists prev, s, caps. split; [exact H|]. split; [apply extends_refl|].
    discriminate.
  - destruct prev as [c|]; [|discriminate].
    destruct (atom_match fl a c); [|discriminate].
    exists (Some c), s, caps. split; [exact H|]. split; [apply extends_refl|].
    discriminate.
Qed.

End Captures.

Lemma match_here_captures (fl : flags) (r : regex) (i : nat)
    (prev : option ascii) (s : str) (start : nat) (m : match_obj) :
  always_captures i r = true ->
  match_here fl r prev s start = Some m -> group m i <> None.
Proof.
  intros Hi H. unfold match_here in H.
  apply rmatch_captures in H as [p1 [s1 [c1 [H [_ Hc]]]]].
  injection H as <-. unfold group. simpl. auto.
Qed.

Lemma search_from_captures (fl : flags) (r : regex) (i : nat) (s : str) :
  always_captures i r = true ->
  forall prev start m,
    search_from fl r prev s start = Some m -> group m i <> None.
Proof.
  intros Hi. induction s as [|c s IH]; intros prev start m H; simpl in H.
  - destruct (match_here fl r prev [] start) eqn:E; [|discriminate].
    injection H as <-. eapply match_here_captures; eauto.
  - destruct (match_here fl r prev (c :: s) start) eqn:E.
    + injection H as <-. eapply match_here_captures; eauto.
    + eapply IH; eauto.
Qed.

(** A pattern with group [i] on every path captures it in every match. *)
Lemma search_captures (fl : flags) (r : regex) (i : nat) (s : str)
    (m : match_obj) :
  always_captures i r = true -> search fl r s = Some m -> group m i <> None.
Proof. intros Hi H. eapply search_from_captures; eauto. Qed.

End ReFacts.

(** ** The scans of the matcher run to their end *)

Module ReProgress.
Import Py Re Notions ReFacts.

Section Progress.
Context {R : Type} (fl : flags).

Lemma rep_atom_shrinks (greedy : bool) (a : atom) (s : str) :
  forall (lo : nat) (hi : option nat) (prev : option ascii) (caps : captures)
         (k : @cont R) (res : R),
    rep_atom fl greedy a lo hi prev s caps k = Some res ->
    exists prev' s' caps',
      k prev' s' caps' = Some res /\ (length s' <= length s)%nat.
Proof.
  induction s as [|c s IH]; intros lo hi prev caps k res H; simpl in H.
  - assert (Hstop : (match lo with O => k prev [] caps | S _ => None end)
                    = Some res).
    { destruct greedy; [exact H|].
      apply orelse_some in H as [H|H]; [exact H | discriminate]. }
    destruct lo; [eauto | discriminate].
  - assert (Hcases :
      (match lo with O => k prev (c :: s) caps | S _ => None end) = Some res
      \/ (if hi_allows hi && atom_match fl a c
          then rep_atom fl greedy a (Nat.pred lo) (option_map Nat.pred hi)
                 (Some c) s caps k
          else None) = Some res).
    { destruct greedy; apply orelse_some in H; tauto. }
    destruct Hcases as [H1|H1].
    + destruct lo; [eauto | discriminate].
    + destruct (hi_allows hi && atom_match fl a c); [|discriminate].
      apply IH in H1 as [p1 [s1 [c1 [H1 Hl]]]].
      exists p1, s1, c1. split; [exact H1 | simpl; lia].
Qed.

(** The continuation of a successful match runs on a suffix of the text. *)
Lemma rmatch_shrinks (r : regex) :
  forall (prev : option ascii) (s : str) (caps : captures) (k : @cont R)
         (res : R),
    rmatch fl r prev s caps k = Some res ->
    exists prev' s' caps',
      k prev' s' caps' = Some res /\ (length s' <= length s)%nat.
Proof.
  induction r as [|a|r1 IH1 r2 IH2|r1 IH1 r2 IH2|r1 IH1|greedy lo hi a
                  |j r1 IH1| | | |a];
    intros prev s caps k res H; simpl in H.
  - eauto.
  - destruct s as [|c s]; [discriminate|].
    destruct (atom_match fl a c); [|discriminate].
    exists (Some c), s, caps. split; [exact H | simpl; lia].
  - apply IH1 in H as [p1 [s1 [c1 [H Hl1]]]].
    apply IH2 in H as [p2 [s2 [c2 [H Hl2]]]].
    exists p2, s2, c2. split; [exact H | lia].
  - apply orelse_some in H as [H|H]; [apply IH1 in H | apply IH2 in H]; exact H.
  - apply orelse_some in H as [H|H]; [apply IH1 in H; exact H | eauto].
  - apply rep_atom_shrinks in H. exact H.
  - apply IH1 in H as [p1 [s1 [c1 [H Hl1]]]]. eauto.
  - destruct (at_bol fl prev); [eauto | discriminate].
  - destruct (at_eol fl s); [eauto | discriminate].
  - destruct (xorb (word_before prev) (word_after s)); [eauto | discriminate].
  - destruct prev as [c|]; [|discriminate].
    destruct (atom_match fl a c); [eauto | discriminate].
Qed.

End Progress.

Lemma match_here_lengths (fl : flags) (r : regex) (prev : option ascii)
    (s : str) (start : nat) (m : match_obj) :
  match_here fl r prev s start = Some m ->
  (length (m_text m) + length (m_after m) = length s)%nat.
Proof.
  intros H. unfold match_here in H.
  apply rmatch_shrinks in H as [p1 [s1 [c1 [H Hl]]]].
  injection H as <-. simpl. rewrite length_firstn. lia.
Qed.

Lemma search_from_lengths (fl : flags) (r : regex) (s : str) :
  forall prev start m,
    search_from fl r prev s start = Some m ->
    (length (m_text m) + length (m_after m) <= length s)%nat.
Proof.
  induction s as [|c s IH]; intros prev start m H; simpl in H.
  - destruct (match_here fl r prev [] start) eqn:E; [|discriminate].
    injection H as <-. apply match_here_lengths in E. lia.
  - destruct (match_here fl r prev (c :: s) start) eqn:E.
    + injection H as <-. apply match_here_lengths in E. lia.
    + apply IH in H. simpl. lia.
Qed.

(** [finditer] never stops for want of steps: any number of steps above the
    length of the text gives the same matches. *)
Lemma finditer_steps_enough (fl : flags) (r : regex) (n1 : nat) :
  forall (n2 : nat) (prev : option ascii) (s : str) (start : nat),
    (length s < n1)%nat -> (length s < n2)%nat ->
    finditer_steps n1 fl r prev s start = finditer_steps n2 fl r prev s start.
Proof.
  induction n1 as [|n1 IH]; intros n2 prev s start H1 H2; [lia|].
  destruct n2 as [|n2]; [lia|]. simpl.
  destruct (search_from fl r prev s start) as [m|] eqn:E; [|reflexivity].
  apply search_from_lengths in E. f_equal.
  destruct (m_text m) as [|c t] eqn:Et.
  - destruct (m_after m) as [|c rest] eqn:Ea; [reflexivity|].
    simpl in E. apply IH; lia.
  - simpl in E. apply IH; lia.
Qed.

Lemma finditer_any_steps (fl : flags) (r : regex) (s : str) (n : nat) :
  (length s < n)%nat -> finditer fl r s = finditer_steps n fl r None s 0.
Proof. intros H. unfold finditer. apply finditer_steps_enough; lia. Qed.

End ReProgress.

(** ** The junk judge and the label scanner *)

Module ScannerSpec.
Import Py Re PyFloat DocumentProcessor Extractor ReFacts Notions.

(** C8.  The judge on the test vectors: ["N/A"], ["---"] and the header row
    are junk, ["FastFreight LLC"] is not.  The header row passes the four
    earlier tests and is caught by the header test: all 5 of its 5 words are
    header keywords. *)
Theorem junk_test_vectors :
  _is_junk_value (lit "N/A") = true
  /\ _is_junk_value (lit "---") = true
  /\ _is_junk_value (lit "Carrier MC Phone Equipment Amount") = true
  /\ _is_junk_value (lit "FastFreight LLC") = false
  /\ (let row := lit "Carrier MC Phone Equipment Amount" in
      too_short row = false /\ is_skip_word row = false
      /\ is_separator row = false /\ is_dashes row = false
      /\ header_overlap row = 5 /\ Z.of_nat (stdpp.base.size (word_set row)) = 5
      /\ is_header_row row = true).
Proof. vm_compute. repeat split. Qed.

(** [val[:150]] keeps the first 150 characters. *)
Lemma upto_firstn (n : Z) (val : str) :
  0 <= n -> upto n val = firstn (Z.to_nat n) val.
Proof.
  intros Hn. unfold upto, slice.
  assert (Hlo : slice_index (len val) 0 = 0).
  { unfold slice_index. change (0 <? 0) with false. cbv iota.
    apply Z.min_l. unfold len. lia. }
  assert (Hhi : slice_index (len val) n = Z.min n (len val)).
  { unfold slice_index. destruct (n <? 0) eqn:E; [apply Z.ltb_lt in E; lia|].
    reflexivity. }
  rewrite Hlo, Hhi, Z.sub_0_r. change (skipn (Z.to_nat 0) val) with val.
  destruct (Z.le_gt_cases n (len val)) as [H|H].
  - now rewrite Z.min_l by lia.
  - rewrite Z.min_r by lia. unfold len in *.
    rewrite !firstn_all2 by lia. reflexivity.
Qed.

Lemma scan_step_passed (text : str) (multiline : bool) (p : regex)
    (rest : list regex) :
  always_captures 1 p = true -> passed_over text multiline p ->
  _find_value_after_label text (p :: rest) multiline
  = _find_value_after_label text rest multiline.
Proof.
  intros Hp Hq. simpl. unfold passed_over, captured in Hq.
  destruct (search (search_flags multiline) p text) as [m|] eqn:E; [|reflexivity].
  pose proof (search_captures _ _ _ _ _ Hp E) as Hg.
  unfold group1_stripped. destruct (group m 1) as [g|]; [|congruence].
  simpl in *. destruct Hq as [Hq|[val [Hq Hj]]]; [discriminate|].
  injection Hq as <-. now rewrite Hj.
Qed.

(** C5.  Over patterns that carry their value in group 1, the scanner
    returns the value of the earliest pattern that matches with a value that
    is not junk: the first group of the match, trimmed, cut to its first 150
    characters.  Patterns that do not match, or whose value is junk, are
    passed over alike, and when all are the result is absent. *)
Theorem find_value_after_label_first (text : str) (label_patterns : list regex)
    (multiline : bool) :
  forallb (always_captures 1) label_patterns = true ->
  (forall before p after val,
     label_patterns = before ++ p :: after ->
     Forall (passed_over text multiline) before ->
     captured text multiline p = Some val -> _is_junk_value val = false ->
     _find_value_after_label text label_patterns multiline
     = Ok (Some (firstn 150 val)))
  /\ (Forall (passed_over text multiline) label_patterns ->
      _find_value_after_label text label_patterns multiline = Ok None).
Proof.
  intros Hwf. split.
  - intros before p after val -> Hb Hc Hj.
    induction before as [|q before IH]; simpl app.
    + simpl. unfold captured in Hc.
      destruct (search (search_flags multiline) p text) as [m|]; [|discriminate].
      unfold group1_stripped. destruct (group m 1) as [g|]; [|discriminate].
      simpl in *. injection Hc as <-. rewrite Hj.
      now rewrite upto_firstn by lia.
    + simpl in Hwf. apply andb_prop in Hwf as [Hq Hwf].
      inversion Hb as [|? ? Hq' Hb']; subst.
      rewrite scan_step_passed by assumption. now apply IH.
  - intros Hall. induction label_patterns as [|q rest IH]; [reflexivity|].
    simpl in Hwf. apply andb_prop in Hwf as [Hq Hwf].
    inversion Hall as [|? ? Hq' Hrest]; subst.
    rewrite scan_step_passed by assumption. now apply IH.
Qed.

(** [shipper\s*(?:name)?\s*:\s*(.+?)(?:\n|$)] and
    [ship\s+from\s*:\s*(.+?)(?:\n|$)], the first two shipper patterns. *)
Definition LINE_VALUE : regex :=
  seqs [zero_or_more SPACE; a_char ":"; zero_or_more SPACE;
        RGroup 1 (RRep false 1 None AAny);
        RAlt (a_char "010") REol].

Definition shipper_patterns_head : list regex :=
  [ seqs [chars "shipper"; zero_or_more SPACE; ROpt (chars "name"); LINE_VALUE];
    seqs [chars "ship"; one_or_more SPACE; chars "from"; LINE_VALUE] ].

Lemma find_value_after_label_first_witness :
  _find_value_after_label
    (lit "Shipper: ---" ++ [NL] ++ lit "Ship From:  ABC Corp ")
    shipper_patterns false
  = Ok (Some (firstn 150 (lit "ABC Corp"))).
Proof.
  destruct (find_value_after_label_first
              (lit "Shipper: ---" ++ [NL] ++ lit "Ship From:  ABC Corp ")
              shipper_patterns false) as [H _]; [reflexivity|].
  apply (H (firstn 1 shipper_patterns) (nth 1 shipper_patterns REmpty)
           (skipn 2 shipper_patterns) (lit "ABC Corp")).
  - reflexivity.
  - constructor; [|constructor]. right. exists (lit "---").
    split; vm_compute; reflexivity.
  - vm_compute. reflexivity.
  - vm_compute. reflexivity.
Defined.

Example find_value_after_label_sample :
  _find_value_after_label (lit "Shipper: ABC Corp") shipper_patterns false
  = Ok (Some (lit "ABC Corp")).
Proof. vm_compute. reflexivity. Qed.

Example find_value_after_label_absent :
  _find_value_after_label (lit "Shipper: N/A") shipper_patterns false = Ok None.
Proof. vm_compute. reflexivity. Qed.

End ScannerSpec.

(** ** Order of the positive finite floats *)

Module FloatOrder.
Import Py PyFloat Notions.
Local Open Scope float_scope.

Lemma compare_cont_cases (m n : positive) :
  match Pos.compare_cont Eq m n with
  | Eq => m = n
  | Lt => (Zpos m < Zpos n)%Z
  | Gt => (Zpos n < Zpos m)%Z
  end.
Proof.
  change (Pos.compare_cont Eq m n) with (Pos.compare m n).
  destruct (Pos.compare_spec m n); lia.
Qed.







End FloatOrder.

(** ** The rate *)

Module RateSpec.
Import Py Re PyFloat Extractor ReFacts FloatOrder Notions.
Local Open Scope float_scope.





Lemma rate_candidate_returns (pattern : regex) (text : str) :
  always_captures 1 pattern = true ->
  exists c, rate_candidate pattern text = Ok c.
Proof.
  intros Hp. unfold rate_candidate.
  destruct (search IGNORECASE pattern text) as [m|] eqn:E; [|eauto].
  pose proof (search_captures _ _ _ _ _ Hp E) as Hg.
  destruct (group m 1); [eauto | congruence].
Qed.

Lemma labelled_rate_first (text : str) (patterns : list regex) :
  forallb (always_captures 1) patterns = true ->
  exists r, labelled_rate patterns text = Ok r
    /\ match r with
       | Some rate_val =>
           exists before p after,
             patterns = before ++ p :: after
             /\ Forall (rate_rejected text) before
             /\ rate_candidate p text = Ok (Some rate_val)
             /\ accepted_rate rate_val = true
       | None => Forall (rate_rejected text) patterns
       end.
Proof.
  induction patterns as [|p rest IH]; intros Hwf; simpl.
  - exists None. split; [reflexivity | constructor].
  - simpl in Hwf. apply andb_prop in Hwf as [Hp Hwf].
    destruct (rate_candidate_returns p text Hp) as [c Hc]. rewrite Hc. simpl.
    destruct (IH Hwf) as [r [Hr Hspec]].
    assert (Hskip : rate_rejected text p ->
              exists r0, labelled_rate rest text = Ok r0
                /\ match r0 with
                   | Some rate_val =>
                       exists before p0 after,
                         p :: rest = before ++ p0 :: after
                         /\ Forall (rate_rejected text) before
                         /\ rate_candidate p0 text = Ok (Some rate_val)
                         /\ accepted_rate rate_val = true
                   | None => Forall (rate_rejected text) (p :: rest)
                   end).
    { intros Hrej. exists r. split; [exact Hr|].
      destruct r as [rate_val|].
      - destruct Hspec as [before [p0 [after [-> [Hb [Hc0 Ha]]]]]].
        exists (p :: before), p0, after. repeat split; auto.
      - constructor; assumption. }
    destruct c as [rate_val|].
    + destruct (accepted_rate rate_val) eqn:Ea.
      * exists (Some rate_val). split; [reflexivity|].
        exists [], p, rest. repeat split; auto.
      * apply Hskip. right. eauto.
    + apply Hskip. left. exact Hc.
Qed.

Lemma rate_patterns_capture : forallb (always_captures 1) rate_patterns = true.
Proof. reflexivity. Qed.




Example extract_rate_total_due :
  _extract_with_regex_rate (lit "TOTAL DUE: $2,500.00") = Ok (Some (lit "2500.00")).
Proof. vm_compute. reflexivity. Qed.

Example extract_rate_pattern_order :
  _extract_with_regex_rate (lit "Rate: 5 per mile, line haul rate: $1,850")
  = Ok (Some (lit "1850")).
Proof. vm_compute. reflexivity. Qed.

Example extract_rate_falls_through :
  _extract_with_regex_rate (lit "Total due: 5.00; line haul 950.00")
  = Ok (Some (lit "950.00")).
Proof. vm_compute. reflexivity. Qed.

Example extract_rate_dollar_maximum :
  _extract_with_regex_rate (lit "Fuel $120.50, lumper $75.00, detention $ 1,300.25, tip $9.99")
  = Ok (Some (lit "1300.25")).
Proof. vm_compute. reflexivity. Qed.

Example extract_rate_absent :
  _extract_with_regex_rate (lit "Rate: 5 per mile; fee $9.99") = Ok None.
Proof. vm_compute. reflexivity. Qed.

End RateSpec.

(** ** Sections of a text *)

Module SectionFacts.
Import Py Re DocumentProcessor Notions MoreNotions PyFacts SegmenterFacts.

Lemma join_cons (sep p : str) (q : str) (rest : list str) :
  join sep (p :: q :: rest) = p ++ sep ++ join sep (q :: rest).
Proof. reflexivity. Qed.

Lemma join_app (sep : str) (xs ys : list str) :
  xs <> [] -> ys <> [] ->
  join sep (xs ++ ys) = join sep xs ++ sep ++ join sep ys.
Proof.
  induction xs as [|x xs IH]; intros Hx Hy; [congruence|].
  destruct xs as [|x' xs].
  - destruct ys; [congruence | reflexivity].
  - change ((x :: x' :: xs) ++ ys) with (x :: (x' :: xs) ++ ys).
    simpl app at 1. rewrite join_cons.
    change (x' :: xs ++ ys) with ((x' :: xs) ++ ys).
    rewrite IH by (congruence || assumption).
    rewrite join_cons. now rewrite <- !app_assoc.
Qed.

(** Joining the joined groups is joining all the lines. *)
Lemma join_groups (sep : str) (groups : list (list str)) :
  Forall (fun g => g <> []) groups ->
  join sep (map (join sep) groups) = join sep (List.concat groups).
Proof.
  induction groups as [|g groups IH]; intros H; [reflexivity|].
  inversion H as [|? ? Hg Hrest]; subst.
  destruct groups as [|g' groups].
  - simpl. now rewrite app_nil_r.
  - change (map (join sep) (g :: g' :: groups))
      with (join sep g :: map (join sep) (g' :: groups)).
    change (map (join sep) (g' :: groups))
      with (join sep g' :: map (join sep) groups).
    rewrite join_cons.
    change (join sep g' :: map (join sep) groups)
      with (map (join sep) (g' :: groups)).
    rewrite (IH Hrest).
    change (List.concat (g :: g' :: groups)) with (g ++ List.concat (g' :: groups)).
    rewrite join_app; [reflexivity | assumption |].
    inversion Hrest; subst. simpl. destruct g'; [congruence | discriminate].
Qed.

Lemma split_on_nonempty (sep : ascii) (s : str) : split_on sep s <> [].
Proof.
  destruct s as [|c s]; simpl; [discriminate|].
  destruct (Ascii.eqb c sep); [discriminate|].
  destruct (split_on sep s); discriminate.
Qed.

(** [sep.join(s.split(sep)) == s]. *)
Lemma join_split_on (sep : ascii) (s : str) :
  join [sep] (split_on sep s) = s.
Proof.
  induction s as [|c s IH]; [reflexivity|]. simpl.
  pose proof (split_on_nonempty sep s) as Hne.
  destruct (Ascii.eqb c sep) eqn:E.
  - apply Ascii.eqb_eq in E. subst c.
    destruct (split_on sep s) as [|h t]; [congruence|].
    rewrite join_cons, IH. reflexivity.
  - destruct (split_on sep s) as [|h t]; [congruence|].
    destruct t as [|h' t].
    + simpl in *. now rewrite IH.
    + rewrite join_cons. rewrite join_cons in IH.
      rewrite <- IH. reflexivity.
Qed.

Lemma cut_snoc_line (groups : list (list str)) (g : list str) (line : str) :
  g <> [] -> _is_section_boundary line = false ->
  cut_at_boundaries (groups ++ [g]) -> cut_at_boundaries (groups ++ [g ++ [line]]).
Proof.
  intros Hg Hl [H1 [H2 H3]]. unfold cut_at_boundaries.
  rewrite Forall_app in H1, H3. destruct H1 as [H1 _]. destruct H3 as [H3 H3'].
  inversion H3' as [|? ? Hg3 _]; subst.
  repeat split.
  - apply Forall_app. split; [assumption|]. constructor; [|constructor].
    destruct g; discriminate.
  - destruct groups as [|g0 groups]; [constructor|].
    simpl in *. rewrite Forall_app in *. destruct H2 as [H2 H2'].
    split; [assumption|]. inversion H2'; subst.
    constructor; [|constructor]. destruct g; [congruence | assumption].
  - apply Forall_app. split; [assumption|]. constructor; [|constructor].
    destruct g as [|l0 g]; [congruence|]. simpl in *.
    apply Forall_app. split; [assumption|]. constructor; [assumption | constructor].
Qed.

Lemma cut_new_group (groups : list (list str)) (line : str) :
  groups <> [] -> _is_section_boundary line = true ->
  cut_at_boundaries groups -> cut_at_boundaries (groups ++ [[line]]).
Proof.
  intros Hne Hl [H1 [H2 H3]]. unfold cut_at_boundaries. repeat split.
  - apply Forall_app. split; [assumption|]. constructor; [discriminate | constructor].
  - destruct groups as [|g0 groups]; [congruence|]. simpl.
    apply Forall_app. split; [assumption|]. constructor; [assumption | constructor].
  - apply Forall_app. split; [assumption|]. constructor; [constructor | constructor].
Qed.

Lemma cut_single (line : str) : cut_at_boundaries [[line]].
Proof.
  unfold cut_at_boundaries. split; [|split].
  - constructor; [discriminate | constructor].
  - constructor.
  - constructor; [constructor | constructor].
Qed.

Lemma section_loop (lines : list str) :
  forall (st : list str * list str) (groups : list (list str)),
    grouped groups st -> cut_at_boundaries groups ->
    exists groups',
      grouped groups' (fold_left section_step lines st)
      /\ cut_at_boundaries groups'
      /\ List.concat groups' = List.concat groups ++ lines.
Proof.
  induction lines as [|line lines IH]; intros st groups Hg Hc.
  - exists groups. simpl. rewrite app_nil_r. auto.
  - simpl. destruct st as [sections cur].
    destruct Hg as [closed [Hgroups [Hsec Hcur]]]. simpl in *.
    assert (Hstep : exists groups1,
              grouped groups1 (section_step (sections, cur) line)
              /\ cut_at_boundaries groups1
              /\ List.concat groups1 = List.concat groups ++ [line]).
    { unfold section_step.
      destruct (_is_section_boundary line) eqn:Eb; destruct cur as [|l0 cur];
        simpl truthy in *; cbv iota in *; simpl andb; cbv iota.
      - (* a boundary as the very first line *)
        rewrite app_nil_r in Hgroups. subst groups.
        assert (closed = []) as ->
          by (destruct closed; [reflexivity|]; exfalso; now apply Hcur).
        exists [[line]]. split; [|split].
        + exists []. simpl in *. split; [reflexivity|].
          split; [assumption | discriminate].
        + apply cut_single.
        + reflexivity.
      - (* a boundary closes the current section *)
        subst groups. exists ((closed ++ [l0 :: cur]) ++ [[line]]).
        split; [|split].
        + exists (closed ++ [l0 :: cur]). simpl. repeat split.
          * rewrite Hsec, map_app. reflexivity.
          * discriminate.
        + apply cut_new_group; [destruct closed; discriminate | assumption | assumption].
        + rewrite !List.concat_app. simpl. now rewrite !app_nil_r.
      - (* the first line *)
        rewrite app_nil_r in Hgroups. subst groups.
        assert (closed = []) as ->
          by (destruct closed; [reflexivity|]; exfalso; now apply Hcur).
        exists [[line]]. split; [|split].
        + exists []. simpl in *. split; [reflexivity|].
          split; [assumption | discriminate].
        + apply cut_single.
        + reflexivity.
      - (* a line of the current section *)
        subst groups. exists (closed ++ [(l0 :: cur) ++ [line]]).
        split; [|split].
        + exists closed. simpl. repeat split; [assumption | discriminate].
        + apply cut_snoc_line; [discriminate | assumption | assumption].
        + rewrite !List.concat_app. simpl. rewrite !app_nil_r.
          now rewrite <- !app_assoc. }
    destruct Hstep as [groups1 [Hg1 [Hc1 Hcat1]]].
    destruct (IH _ _ Hg1 Hc1) as [groups' [Hg' [Hc' Hcat']]].
    exists groups'. split; [assumption|]. split; [assumption|].
    rewrite Hcat', Hcat1, <- app_assoc. reflexivity.
Qed.

Lemma sections_of_loop (lines : list str) :
  exists groups,
    split_sections lines = map (join [NL]) groups
    /\ List.concat groups = lines
    /\ cut_at_boundaries groups.
Proof.
  destruct (section_loop lines ([], []) []) as [groups [Hg [Hc Hcat]]].
  - exists []. simpl. repeat split; congruence.
  - repeat split; constructor.
  - exists groups. split; [|split; assumption].
    unfold split_sections.
    destruct (fold_left section_step lines ([], [])) as [sections cur].
    destruct Hg as [closed [Hgroups [Hsec _]]]. simpl in *.
    subst groups sections. destruct cur as [|l cur]; simpl.
    + now rewrite app_nil_r.
    + now rewrite map_app.
Qed.

(** X1.  Step 1 of [intelligent_chunk] cuts the lines of the text into
    groups at the boundary lines and joins each group: no group is empty, a
    group after the first starts with a boundary line, no other line of a
    group is one, and the groups together are the lines. *)
Theorem split_sections_groups (lines : list str) :
  exists groups,
    split_sections lines = map (join [NL]) groups
    /\ List.concat groups = lines
    /\ cut_at_boundaries groups.
Proof. exact (sections_of_loop lines). Qed.

(** X2.  The sections are the text: joining them with newlines gives back
    the text that was split. *)
Theorem sections_keep_text (text : str) :
  join [NL] (split_sections (split_on NL text)) = text.
Proof.
  destruct (sections_of_loop (split_on NL text))
    as [groups [Hs [Hcat [Hne _]]]].
  rewrite Hs, join_groups by assumption. rewrite Hcat. apply join_split_on.
Qed.

End SectionFacts.

(** ** Sizes of the chunks *)

Module ChunkSizes.
Import Py Re DocumentProcessor Notions MoreNotions PyFacts SegmenterFacts
       SectionFacts.

Lemma lstrip_shorter (s : str) : (length (lstrip s) <= length s)%nat.
Proof.
  induction s as [|c s IH]; simpl; [lia|]. destruct (isspace c); simpl; lia.
Qed.

Lemma strip_shorter (s : str) : len (strip s) <= len s.
Proof.
  unfold strip, rstrip, len. rewrite length_rev.
  pose proof (lstrip_shorter (rev (lstrip s))) as H1.
  rewrite length_rev in H1. pose proof (lstrip_shorter s). lia.
Qed.

Lemma slice_shorter {A} (s : list A) (i n : Z) :
  0 <= i -> 0 <= n -> len (slice s i (i + n)) <= n.
Proof.
  intros Hi Hn. unfold slice, slice_index, len.
  destruct (i <? 0) eqn:E1; [apply Z.ltb_lt in E1; lia|].
  destruct (i + n <? 0) eqn:E2; [apply Z.ltb_lt in E2; lia|].
  rewrite length_firstn. lia.
Qed.

Lemma range_from_zero (stop step : Z) (starts : list Z) :
  0 <= stop -> range 0 stop step = Ok starts -> Forall (fun i => 0 <= i) starts.
Proof.
  intros Hstop. unfold range. destruct (step =? 0); [discriminate|].
  intros H. injection H as <-. apply Forall_forall. intros i Hi.
  apply in_map_iff in Hi as [k [<- Hk]].
  destruct (0 <? step) eqn:E.
  - apply Z.ltb_lt in E. nia.
  - destruct (stop <? 0) eqn:E'; [apply Z.ltb_lt in E'; lia|].
    simpl in Hk. contradiction.
Qed.

Lemma hard_split_within (sentence : str) (cs co : Z) (chunks chunks' : list str) :
  0 <= cs -> Forall (within cs) chunks ->
  hard_split sentence cs co chunks = Ok chunks' -> Forall (within cs) chunks'.
Proof.
  intros Hcs Hc. unfold hard_split.
  destruct (range 0 (len sentence) (cs - co)) as [starts|e] eqn:E; simpl;
    [|discriminate].
  intros H. injection H as <-. rewrite emit_windows.
  apply Forall_app. split; [assumption|].
  apply Forall_forall. intros c Hin. apply filter_In in Hin as [Hin _].
  apply in_map_iff in Hin as [i [<- Hi]].
  assert (Hlen0 : 0 <= len sentence) by (unfold len; lia).
  pose proof (range_from_zero _ _ _ Hlen0 E) as Hpos.
  rewrite Forall_forall in Hpos. specialize (Hpos i Hi).
  unfold within. pose proof (strip_shorter (window sentence cs i)).
  pose proof (slice_shorter sentence i cs Hpos Hcs). unfold window in *. lia.
Qed.

Lemma pack_sentence_within (cs co : Z) (st st' : list str * str) (sentence : str) :
  0 <= cs -> Forall (within cs) (fst st) /\ within cs (snd st) ->
  pack_sentence cs co st sentence = Ok st' ->
  Forall (within cs) (fst st') /\ within cs (snd st').
Proof.
  destruct st as [chunks cur]. simpl. intros Hcs [Hc Hcur]. unfold pack_sentence.
  destruct (len cur + len sentence + 1 <=? cs) eqn:E1.
  - intros H. injection H as <-. simpl. split; [assumption|].
    apply Z.leb_le in E1. unfold within, len in *. rewrite !length_app.
    destruct cur; simpl in *; lia.
  - set (flushed := if truthy cur then chunks ++ [strip cur] else chunks).
    assert (Hf : Forall (within cs) flushed).
    { unfold flushed. destruct (truthy cur); [|assumption].
      apply Forall_app. split; [assumption|]. constructor; [|constructor].
      unfold within in *. pose proof (strip_shorter cur). lia. }
    destruct (cs <? len sentence) eqn:E2.
    + destruct (hard_split sentence cs co flushed) as [chunks1|e] eqn:E;
        simpl; [|discriminate].
      intros H. injection H as <-. simpl. split.
      * eapply hard_split_within; eauto.
      * unfold within, len. simpl. lia.
    + intros H. injection H as <-. simpl. split; [assumption|].
      apply Z.ltb_ge in E2. exact E2.
Qed.

Lemma chunk_section_within (cs co : Z) (chunks chunks' : list str) (section : str) :
  0 <= cs -> Forall (within cs) chunks ->
  chunk_section cs co chunks section = Ok chunks' -> Forall (within cs) chunks'.
Proof.
  intros Hcs Hc. unfold chunk_section.
  destruct (truthy (strip section)); simpl.
  2:{ intros H. now injection H as <-. }
  destruct (len (strip section) <=? cs) eqn:E.
  { intros H. injection H as <-. apply Forall_app. split; [assumption|].
    constructor; [|constructor]. apply Z.leb_le in E. exact E. }
  destruct (for_each _ _ _) as [[chunks1 cur]|e] eqn:Ef; simpl; [|discriminate].
  assert (H1 : Forall (within cs) (fst (chunks1, cur)) /\ within cs (snd (chunks1, cur))).
  { eapply (for_each_preserves (pack_sentence cs co)
              (fun st => Forall (within cs) (fst st) /\ within cs (snd st)));
      [| |exact Ef].
    - intros; eapply pack_sentence_within; eauto.
    - simpl. split; [assumption|]. unfold within, len. simpl. lia. }
  simpl in H1. destruct H1 as [H1 H2].
  destruct (truthy (strip cur)); intros H; injection H as <-; [|assumption].
  apply Forall_app. split; [assumption|]. constructor; [|constructor].
  unfold within in *. pose proof (strip_shorter cur). lia.
Qed.

(** X3.  With a non-negative [chunk_size], every chunk the segmenter returns has
    between 20 and [chunk_size] characters. *)
Theorem chunks_within_size (text : str) (chunk_size chunk_overlap : Z)
    (chunks : list str) :
  0 <= chunk_size ->
  intelligent_chunk text chunk_size chunk_overlap = Ok chunks ->
  Forall (fun c => 20 <= len c <= chunk_size) chunks.
Proof.
  intros Hcs H. unfold intelligent_chunk in H.
  destruct (negb (truthy (strip text))).
  { injection H as <-. constructor. }
  destruct (for_each _ _ _) as [all|e] eqn:E; simpl in H; [|discriminate].
  injection H as <-.
  assert (Hw : Forall (within chunk_size) all).
  { eapply (for_each_preserves (chunk_section chunk_size chunk_overlap)
              (Forall (within chunk_size))); [| |exact E].
    - intros; eapply chunk_section_within; eauto.
    - constructor. }
  apply Forall_forall. intros c Hc. apply filter_In in Hc as [Hc Hl].
  rewrite Forall_forall in Hw. specialize (Hw c Hc). unfold within in Hw.
  apply Z.leb_le in Hl. lia.
Qed.

Lemma chunks_within_size_witness :
  Forall (fun c => 20 <= len c <= 30)
    [lit "Load 4471 leaves on Tuesday."; lit "Carrier is FastFreight LLC."].
Proof.
  apply (chunks_within_size
           (lit "Load 4471 leaves on Tuesday. Carrier is FastFreight LLC.")
           30 5); [lia | vm_compute; reflexivity].
Defined.

(** X4.  A text with no boundary line after its first line, and whose trimmed
    length is between 20 and [chunk_size], is returned as one chunk: the
    text, trimmed. *)
Theorem short_text_is_one_chunk (text : str) (chunk_size chunk_overlap : Z) :
  forallb (fun line => negb (_is_section_boundary line))
    (tl (split_on NL text)) = true ->
  20 <= len (strip text) <= chunk_size ->
  intelligent_chunk text chunk_size chunk_overlap = Ok [strip text].
Proof.
  intros Hnb Hlen.
  destruct (sections_of_loop (split_on NL text))
    as [groups [Hs [Hcat [Hne [Hhd Htl]]]]].
  assert (Hone : split_sections (split_on NL text) = [text]).
  { rewrite Hs. destruct groups as [|g groups].
    - simpl in Hcat. pose proof (split_on_nonempty NL text). congruence.
    - destruct groups as [|g' groups].
      + simpl in Hcat. rewrite app_nil_r in Hcat. subst g. simpl.
        now rewrite join_split_on.
      + exfalso. simpl in Hhd. inversion Hhd as [|? ? Hb _]; subst.
        inversion Hne as [|? ? Hg Hne']; subst.
        inversion Hne' as [|? ? Hg' _]; subst.
        destruct g as [|l0 g]; [congruence|].
        destruct g' as [|l1 g']; [congruence|]. simpl in Hb.
        rewrite <- Hcat in Hnb. simpl in Hnb.
        rewrite forallb_forall in Hnb.
        assert (Hin : In l1 (g ++ (l1 :: g') ++ List.concat groups)).
        { apply in_or_app. right. left. reflexivity. }
        specialize (Hnb l1 Hin). rewrite Hb in Hnb. discriminate. }
  unfold intelligent_chunk. rewrite Hone.
  assert (Ht : truthy (strip text) = true).
  { destruct (strip text); [unfold len in Hlen; simpl in Hlen; lia | reflexivity]. }
  rewrite Ht. simpl. unfold chunk_section. rewrite Ht. simpl.
  assert (Hle : (len (strip text) <=? chunk_size) = true) by (apply Z.leb_le; lia).
  rewrite Hle. simpl.
  assert (H20 : (20 <=? len (strip text)) = true) by (apply Z.leb_le; lia).
  now rewrite H20.
Qed.

Lemma short_text_is_one_chunk_witness :
  intelligent_chunk
    (lit "RATE CONFIRMATION" ++ [NL] ++ lit "Load 4471, all in 450 USD. ") 512 64
  = Ok [lit "RATE CONFIRMATION" ++ [NL] ++ lit "Load 4471, all in 450 USD."].
Proof.
  apply (short_text_is_one_chunk
           (lit "RATE CONFIRMATION" ++ [NL] ++ lit "Load 4471, all in 450 USD. ")
           512 64); [reflexivity | vm_compute; split; discriminate].
Defined.

(** X5.  When [chunk_overlap] exceeds [chunk_size], a sentence longer than
    [chunk_size] is dropped: the buffer is flushed and nothing of the
    sentence is emitted. *)
Theorem long_sentence_dropped (chunks : list str) (cur sentence : str)
    (chunk_size chunk_overlap : Z) :
  chunk_size < chunk_overlap -> chunk_size < len sentence ->
  pack_sentence chunk_size chunk_overlap (chunks, cur) sentence
  = Ok (if truthy cur then chunks ++ [strip cur] else chunks, lit "").
Proof.
  intros Ho Hl. unfold pack_sentence.
  destruct (len cur + len sentence + 1 <=? chunk_size) eqn:E1.
  { apply Z.leb_le in E1. unfold len in *. lia. }
  destruct (chunk_size <? len sentence) eqn:E2; [|apply Z.ltb_ge in E2; lia].
  unfold hard_split, range.
  destruct (chunk_size - chunk_overlap =? 0) eqn:E3; [apply Z.eqb_eq in E3; lia|].
  destruct (0 <? chunk_size - chunk_overlap) eqn:E4; [apply Z.ltb_lt in E4; lia|].
  destruct (len sentence <? 0) eqn:E5;
    [apply Z.ltb_lt in E5; unfold len in E5; lia|].
  reflexivity.
Qed.

Lemma long_sentence_dropped_witness :
  pack_sentence 10 20 ([], lit "Dock 4.") (lit "PALLETS-OF-STEEL-COIL")
  = Ok ([lit "Dock 4."], lit "")
  /\ intelligent_chunk (lit "PALLETS-OF-STEEL-COIL-AND-NOTHING-ELSE") 10 20 = Ok [].
Proof.
  split; [|vm_compute; reflexivity].
  apply (long_sentence_dropped [] (lit "Dock 4.") (lit "PALLETS-OF-STEEL-COIL") 10 20);
    [lia | vm_compute; reflexivity].
Defined.

(** X6.  A blank line is never a section boundary; a line that, trimmed, has
    between 4 and 79 characters, some upper-case letter and no lower-case
    one, always is. *)
Theorem section_boundary_heuristic (line : str) :
  (strip line = [] -> _is_section_boundary line = false)
  /\ (isupper (strip line) = true -> 3 < len (strip line) < 80 ->
      _is_section_boundary line = true).
Proof.
  unfold _is_section_boundary. split.
  - intros ->. reflexivity.
  - intros Hu Hl.
    destruct (strip line) as [|c s] eqn:E; [unfold len in Hl; simpl in Hl; lia|].
    simpl truthy. simpl negb. cbv iota.
    destruct (existsb _ SECTION_PATTERNS); [reflexivity|].
    rewrite Hu.
    assert (H1 : (3 <? len (c :: s)) = true) by (apply Z.ltb_lt; lia).
    assert (H2 : (len (c :: s) <? 80) = true) by (apply Z.ltb_lt; lia).
    now rewrite H1, H2.
Qed.

Lemma section_boundary_heuristic_witness :
  _is_section_boundary (lit "   ") = false
  /\ _is_section_boundary (lit "  LOAD 4471  ") = true.
Proof.
  split.
  - apply (section_boundary_heuristic (lit "   ")). reflexivity.
  - apply (section_boundary_heuristic (lit "  LOAD 4471  "));
      [reflexivity | vm_compute; split; reflexivity].
Defined.

End ChunkSizes.

(** ** What the guardrails let through *)

Module GuardrailFacts.
Import Py Re PyFloat Guardrails Notions GuardrailSpec.
Local Open Scope float_scope.

Lemma caution_nonempty (answer : str) : CAUTION ++ answer <> [].
Proof. discriminate. Qed.

(** What [check_guardrails] returns, rule by rule. *)
Lemma check_guardrails_cases (answer : str) (confidence threshold : float)
    (similarity_scores : list float) :
  let d := check_guardrails answer confidence similarity_scores threshold in
  ((confidence <? threshold) = true
   /\ d = (true, Some (low_confidence_message confidence threshold), NOT_CONFIDENT))
  \/ ((confidence <? threshold) = false
      /\ exists top, low_similarity similarity_scores = Some top
         /\ d = (true, Some (low_similarity_message top), NO_RELEVANT_CONTENT))
  \/ ((confidence <? threshold) = false
      /\ low_similarity similarity_scores = None
      /\ exists phrase, first_phrase answer = Some phrase
         /\ d = (true, Some (hallucination_message phrase), CAUTION ++ answer))
  \/ ((confidence <? threshold) = false
      /\ low_similarity similarity_scores = None
      /\ first_phrase answer = None
      /\ (len (strip answer) < 10)%Z
      /\ d = (true, Some TOO_SHORT_MESSAGE, NO_MEANINGFUL_ANSWER))
  \/ ((confidence <? threshold) = false
      /\ low_similarity similarity_scores = None
      /\ first_phrase answer = None
      /\ (10 <= len (strip answer))%Z
      /\ d = (false, None, answer)).
Proof.
  intros d. unfold d, check_guardrails.
  destruct (confidence <? threshold); [left; auto|]. right.
  destruct (low_similarity similarity_scores) as [top|]; [left; eauto|]. right.
  rewrite check_phrases_find. fold (first_phrase answer).
  destruct (first_phrase answer) as [phrase|]; [left; eauto 6|]. right.
  destruct (len (strip answer) <? 10)%Z eqn:E.
  - left. apply Z.ltb_lt in E. auto 6.
  - right. apply Z.ltb_ge in E. auto 6.
Qed.

(** X7.  An answer passes the guardrails only when no rule applies: the
    confidence is not below the threshold, the best score is not below 0.25,
    the lowered answer holds no phrase of the list and the trimmed answer has
    at least 10 characters.  The answer is then returned as it is, with no
    message. *)
Theorem guardrail_pass_conditions (answer : str) (confidence threshold : float)
    (similarity_scores : list float) (message : option str) (final : str) :
  check_guardrails answer confidence similarity_scores threshold
  = (false, message, final) ->
  message = None /\ final = answer
  /\ (confidence <? threshold) = false
  /\ low_similarity similarity_scores = None
  /\ first_phrase answer = None
  /\ (10 <= len (strip answer))%Z.
Proof.
  intros H.
  destruct (check_guardrails_cases answer confidence threshold similarity_scores)
    as [[_ E]|[[_ [top [_ E]]]|[[_ [_ [p [_ E]]]]|[[_ [_ [_ [_ E]]]]|[H1 [H2 [H3 [H4 E]]]]]]]];
    cbv zeta in E; rewrite E in H; try discriminate.
  injection H as <- <-. auto 6.
Qed.

Lemma guardrail_pass_conditions_witness :
  (None : option str) = None
  /\ lit "The rate is 450 USD." = lit "The rate is 450 USD."
  /\ (0.9 <? 0.45) = false
  /\ low_similarity [0.8; 0.1] = None
  /\ first_phrase (lit "The rate is 450 USD.") = None
  /\ (10 <= len (strip (lit "The rate is 450 USD.")))%Z.
Proof.
  apply (guardrail_pass_conditions (lit "The rate is 450 USD.") 0.9 0.45
           [0.8; 0.1] None (lit "The rate is 450 USD.")).
  vm_compute. reflexivity.
Defined.

(** X8.  Whatever the inputs, [check_guardrails] gives a message exactly when
    it is triggered, and the answer it returns is never empty: it is one of
    the three fixed replies, or the answer behind the caution marker, or an
    answer of at least 10 characters that passed. *)
Theorem guardrail_reply_shape (answer : str) (confidence threshold : float)
    (similarity_scores : list float) (triggered : bool)
    (message : option str) (final : str) :
  check_guardrails answer confidence similarity_scores threshold
  = (triggered, message, final) ->
  (triggered = true <-> message <> None)
  /\ final <> []
  /\ (triggered = true ->
      final = CAUTION ++ answer
      \/ In final [NOT_CONFIDENT; NO_RELEVANT_CONTENT; NO_MEANINGFUL_ANSWER]).
Proof.
  intros H.
  destruct (check_guardrails_cases answer confidence threshold similarity_scores)
    as [[_ E]|[[_ [top [_ E]]]|[[_ [_ [p [_ E]]]]|[[_ [_ [_ [_ E]]]]|[H1 [H2 [H3 [H4 E]]]]]]]];
    cbv zeta in E; rewrite E in H; injection H as <- <- <-.
  - split; [split; [discriminate | reflexivity]|]. split; [discriminate|].
    intros _. right. simpl. auto.
  - split; [split; [discriminate | reflexivity]|]. split; [discriminate|].
    intros _. right. simpl. auto.
  - split; [split; [discriminate | reflexivity]|]. split; [discriminate|].
    intros _. left. reflexivity.
  - split; [split; [discriminate | reflexivity]|]. split; [discriminate|].
    intros _. right. simpl. auto.
  - split; [split; [discriminate | congruence]|]. split; [|discriminate].
    intros ->. unfold strip, rstrip, len in H4. simpl in H4. lia.
Qed.

Lemma guardrail_reply_shape_witness :
  (true = true <-> Some TOO_SHORT_MESSAGE <> None)
  /\ NO_MEANINGFUL_ANSWER <> []
  /\ (true = true ->
      NO_MEANINGFUL_ANSWER = CAUTION ++ lit ""
      \/ In NO_MEANINGFUL_ANSWER
           [NOT_CONFIDENT; NO_RELEVANT_CONTENT; NO_MEANINGFUL_ANSWER]).
Proof.
  apply (guardrail_reply_shape (lit "") 0.9 0.45 [0.8] true
           (Some TOO_SHORT_MESSAGE) NO_MEANINGFUL_ANSWER).
  vm_compute. reflexivity.
Defined.

End GuardrailFacts.

(** ** Comparisons of floats, and the quotient of a number by itself *)

Module FloatCompare.
Import Py PyFloat Notions FloatFacts FloatOrder.
Local Open Scope Z_scope.

Lemma SFleb_SFltb_trans (x y z : spec_float) :
  SFleb x y = true -> SFltb y z = true -> SFltb x z = true.
Proof.
  unfold SFleb, SFltb.
  destruct x as [sx|sx| |sx mx ex], y as [sy|sy| |sy my ey], z as [sz|sz| |sz mz ez];
    try destruct sx; try destruct sy; try destruct sz; simpl;
    try discriminate; try reflexivity.
  all: pose proof (compare_cont_cases mx my) as H1;
       pose proof (compare_cont_cases my mz) as H2;
       pose proof (compare_cont_cases mx mz) as H3;
       destruct (Z.compare_spec ex ey); destruct (Z.compare_spec ey ez);
       destruct (Z.compare_spec ex ez); try lia;
       try discriminate; try reflexivity;
       destruct (Pos.compare_cont Eq mx my); destruct (Pos.compare_cont Eq my mz);
       destruct (Pos.compare_cont Eq mx mz); simpl;
       try discriminate; try reflexivity; intros _ _; exfalso; lia.
Qed.

Lemma SFltb_SFleb_trans (x y z : spec_float) :
  SFltb x y = true -> SFleb y z = true -> SFltb x z = true.
Proof.
  unfold SFleb, SFltb.
  destruct x as [sx|sx| |sx mx ex], y as [sy|sy| |sy my ey], z as [sz|sz| |sz mz ez];
    try destruct sx; try destruct sy; try destruct sz; simpl;
    try discriminate; try reflexivity.
  all: pose proof (compare_cont_cases mx my) as H1;
       pose proof (compare_cont_cases my mz) as H2;
       pose proof (compare_cont_cases mx mz) as H3;
       destruct (Z.compare_spec ex ey); destruct (Z.compare_spec ey ez);
       destruct (Z.compare_spec ex ez); try lia;
       try discriminate; try reflexivity;
       destruct (Pos.compare_cont Eq mx my); destruct (Pos.compare_cont Eq my mz);
       destruct (Pos.compare_cont Eq mx mz); simpl;
       try discriminate; try reflexivity; intros _ _; exfalso; lia.
Qed.

Lemma ltb_after_leb (a b c : float) :
  (a <=? b)%float = true -> (b <? c)%float = true -> (a <? c)%float = true.
Proof. rewrite leb_spec, !ltb_spec. apply SFleb_SFltb_trans. Qed.

Lemma leb_after_ltb (a b c : float) :
  (a <? b)%float = true -> (b <=? c)%float = true -> (a <? c)%float = true.
Proof. rewrite leb_spec, !ltb_spec. apply SFltb_SFleb_trans. Qed.

(** Nothing in the unit interval is below a number that is at most 0. *)
Lemma unit_not_below (c t : float) :
  in_unit c = true -> (t <=? 0)%float = true -> (c <? t)%float = false.
Proof.
  intros Hc Ht. unfold in_unit in Hc. apply andb_prop in Hc as [H0 _].
  destruct (c <? t)%float eqn:E; [|reflexivity].
  pose proof (leb_after_ltb _ _ _ E Ht) as H1.
  pose proof (ltb_after_leb _ _ _ H0 H1) as H2.
  vm_compute in H2. discriminate.
Qed.

(** Everything in the unit interval is below a number above 1. *)
Lemma unit_below (c t : float) :
  in_unit c = true -> (1 <? t)%float = true -> (c <? t)%float = true.
Proof.
  intros Hc Ht. unfold in_unit in Hc. apply andb_prop in Hc as [_ H1].
  exact (ltb_after_leb _ _ _ H1 Ht).
Qed.

Lemma div_core_self (p : positive) :
  SFdiv_core_binary prec emax (Zpos p) 0 (Zpos p) 0 = (2 ^ 53, -53, loc_Exact).
Proof.
  unfold SFdiv_core_binary.
  replace (Zdigits2 (Z.pos p) + 0 - (Zdigits2 (Z.pos p) + 0)) with 0 by lia.
  change (IntDef.Z.min (fexp prec emax 0) (0 - 0)) with (-53).
  change (0 - 0 - -53) with 53. cbv zeta. cbv iota.
  change (IntDef.Z.shiftl (Z.pos p) 53) with (Z.shiftl (Z.pos p) 53).
  rewrite Z.shiftl_mul_pow2 by lia.
  change (IntDef.Z.div_eucl (Z.pos p * 2 ^ 53) (Z.pos p))
    with (Z.div_eucl (Z.pos p * 2 ^ 53) (Z.pos p)).
  assert (Hq : Z.div_eucl (Z.pos p * 2 ^ 53) (Z.pos p) = (2 ^ 53, 0)).
  { pose proof (Z_div_mod_full (Z.pos p * 2 ^ 53) (Z.pos p)) as Hd.
    destruct (Z.div_eucl (Z.pos p * 2 ^ 53) (Z.pos p)) as [q r].
    destruct Hd as [Hd1 Hd2]; [lia|].
    remember (2 ^ 53) as k eqn:Hk.
    assert (Hr : 0 <= r < Z.pos p) by (unfold Remainder in Hd2; lia).
    assert (q = k).
    { destruct (Z.lt_trichotomy q k) as [Hlt|[Heq|Hgt]]; [|exact Heq|]; exfalso; nia. }
    subst q. f_equal. lia. }
  rewrite Hq. unfold new_location.
  destruct (IntDef.Z.even (Z.pos p)); reflexivity.
Qed.

(** [n / n == 1.0] for a positive integer. *)
Lemma int_truediv_self (n : Z) : 0 < n -> int_truediv n n = 1%float.
Proof.
  intros Hn. unfold int_truediv, of_ratio. destruct n as [|p|p]; try lia.
  simpl Z.to_pos. unfold SFdiv. rewrite div_core_self. reflexivity.
Qed.

End FloatCompare.

(** ** The extremes of the coverage *)

Module CoverageFacts.
Import Py Re PyFloat DocumentProcessor Guardrails Notions FloatCompare.
Local Open Scope float_scope.

Lemma filter_all {A} (f : A -> bool) (l : list A) :
  Forall (fun x => f x = true) l -> List.filter f l = l.
Proof.
  induction 1 as [|x l Hx _ IH]; simpl; [reflexivity|]. now rewrite Hx, IH.
Qed.

Lemma filter_none {A} (f : A -> bool) (l : list A) :
  Forall (fun x => f x = false) l -> List.filter f l = [].
Proof.
  induction 1 as [|x l Hx _ IH]; simpl; [reflexivity|]. now rewrite Hx, IH.
Qed.

(** X9.  When the answer has significant words and the source texts hold all
    of them, the coverage is exactly 1.0; when they hold none of them, it is
    0.0. *)
Theorem coverage_extremes (answer : str) (source_texts : list str) :
  answer <> [] -> source_texts <> [] -> significant_words answer <> [] ->
  let combined_sources := lower (Py.join (lit " ") source_texts) in
  (Forall (fun w => contains w combined_sources = true) (significant_words answer) ->
   compute_answer_coverage answer source_texts = 1)
  /\ (Forall (fun w => contains w combined_sources = false) (significant_words answer) ->
      compute_answer_coverage answer source_texts = 0).
Proof.
  intros Ha Hs Hw combined_sources. unfold compute_answer_coverage.
  destruct answer as [|a0 answer]; [congruence|].
  destruct source_texts as [|s0 source_texts]; [congruence|].
  simpl negb. simpl orb. cbv iota. cbv zeta. fold combined_sources.
  destruct (significant_words (a0 :: answer)) as [|w ws] eqn:E; [congruence|].
  simpl truthy. simpl negb. cbv iota. split; intros Hall.
  - rewrite (filter_all _ _ Hall).
    rewrite int_truediv_self by (unfold len; simpl; lia).
    vm_compute. reflexivity.
  - rewrite (filter_none _ _ Hall). reflexivity.
Qed.

Lemma coverage_extremes_witness :
  compute_answer_coverage (lit "The carrier is FastFreight.")
    [lit "Carrier: FastFreight LLC"; lit "Rate: 450"] = 1
  /\ compute_answer_coverage (lit "Probably Tuesday.")
       [lit "Carrier: FastFreight LLC"; lit "Rate: 450"] = 0.
Proof.
  split.
  - apply (coverage_extremes (lit "The carrier is FastFreight.")
             [lit "Carrier: FastFreight LLC"; lit "Rate: 450"]);
      [discriminate | discriminate | vm_compute; discriminate
      | vm_compute; repeat constructor].
  - apply (coverage_extremes (lit "Probably Tuesday.")
             [lit "Carrier: FastFreight LLC"; lit "Rate: 450"]);
      [discriminate | discriminate | vm_compute; discriminate
      | vm_compute; repeat constructor].
Defined.

End CoverageFacts.

(** ** The retrieval confidence *)

Module RetrievalFacts.
Import Py Re PyFloat DocumentProcessor Guardrails Notions FloatFacts.
Local Open Scope float_scope.

(** X16.  Whatever the scores, NaN and infinities included, the retrieval
    confidence is the float nearest to [k / 10000] for some integer
    [0 <= k <= 10000], and compares between 0 and 1. *)
Theorem retrieval_confidence_grid (similarity_scores : list float) :
  let c := compute_retrieval_confidence similarity_scores in
  (exists k, (0 <= k <= 10000)%Z /\ c = ten_thousandth k)
  /\ (0 <=? c) = true /\ (c <=? 1) = true.
Proof.
  intros c.
  assert (H : exists k, (0 <= k <= 10000)%Z /\ c = ten_thousandth k).
  { unfold c. destruct similarity_scores as [|top others].
    - exists 0%Z. split; [lia | reflexivity].
    - unfold compute_retrieval_confidence.
      match goal with
      | |- exists k, _ /\ py_round (py_min 1 (py_max 0 ?x)) 4 = _ =>
          destruct (round_clamped x) as [k [Hk Hr]]
      end.
      exists k. split; [exact Hk | exact Hr]. }
  split; [exact H|]. destruct H as [k [Hk ->]].
  pose proof (ten_thousandth_in_unit k Hk) as Hu. unfold in_unit in Hu.
  now apply andb_prop in Hu.
Qed.

End RetrievalFacts.

(** ** The matcher finds only what the pattern matches *)

Module ReSound.
Import Py Re ReSpans Notions ReFacts.

Lemma last_cons_any {A} (t : list A) :
  forall (x d : A), List.last (x :: t) d = List.last t x.
Proof.
  induction t as [|y t IH]; intros x d; [reflexivity|].
  change (List.last (x :: y :: t) d) with (List.last (y :: t) d).
  now rewrite !IH.
Qed.

Lemma last_app_cons {A} (l t : list A) (x : A) :
  forall d, List.last (l ++ x :: t) d = List.last t x.
Proof.
  induction l as [|a l IH]; intros d; simpl app.
  - apply last_cons_any.
  - rewrite last_cons_any. apply IH.
Qed.

Lemma prev_after_app (p1 p2 : str) (prev : option ascii) :
  prev_after p2 (prev_after p1 prev) = prev_after (p1 ++ p2) prev.
Proof.
  destruct p2 as [|c2 t2]; [now rewrite app_nil_r|].
  destruct p1 as [|c1 t1]; [reflexivity|]. simpl.
  now rewrite last_app_cons.
Qed.

Section Sound.
Context {R : Type} (fl : flags).

Lemma rep_atom_sound (greedy : bool) (a : atom) (s : str) :
  forall (lo : nat) (hi : option nat) (prev : option ascii) (caps : captures)
         (k : @cont R) (res : R),
    rep_atom fl greedy a lo hi prev s caps k = Some res ->
    exists pre post,
      s = pre ++ post
      /\ forallb (atom_match fl a) pre = true
      /\ (lo <= length pre)%nat
      /\ match hi with Some h => (length pre <= h)%nat | None => True end
      /\ k (prev_after pre prev) post caps = Some res.
Proof.
  induction s as [|c s IH]; intros lo hi prev caps k res H; simpl in H.
  - assert (Hstop : (match lo with O => k prev [] caps | S _ => None end)
                    = Some res).
    { destruct greedy; [exact H|].
      apply orelse_some in H as [H|H]; [exact H | discriminate]. }
    destruct lo; [|discriminate].
    exists [], []. simpl. repeat split; auto. destruct hi; [lia | exact I].
  - assert (Hcases :
      (match lo with O => k prev (c :: s) caps | S _ => None end) = Some res
      \/ (if hi_allows hi && atom_match fl a c
          then rep_atom fl greedy a (Nat.pred lo) (option_map Nat.pred hi)
                 (Some c) s caps k
          else None) = Some res).
    { destruct greedy; apply orelse_some in H; tauto. }
    destruct Hcases as [H1|H1].
    + destruct lo; [|discriminate].
      exists [], (c :: s). simpl. repeat split; auto. destruct hi; [lia | exact I].
    + destruct (hi_allows hi) eqn:Eh; [|discriminate].
      destruct (atom_match fl a c) eqn:Ea; [|discriminate]. simpl in H1.
      apply IH in H1 as [pre [post [Hs [Hall [Hlo [Hhi Hk]]]]]].
      exists (c :: pre), post. subst s. simpl. rewrite Ea, Hall.
      split; [reflexivity|]. split; [reflexivity|].
      split; [lia|]. split.
      * destruct hi as [[|h]|]; simpl in *; try discriminate; try lia.
      * destruct pre as [|d t]; [exact Hk|]. simpl in Hk.
        rewrite last_cons_any. exact Hk.
Qed.

Lemma rmatch_sound (r : regex) :
  forall (prev : option ascii) (s : str) (caps : captures) (k : @cont R)
         (res : R),
    rmatch fl r prev s caps k = Some res ->
    exists pre post new,
      s = pre ++ post
      /\ matches fl r prev pre post
      /\ Forall (captured_in fl r) new
      /\ k (prev_after pre prev) post (new ++ caps) = Some res.
Proof.
  induction r as [|a|r1 IH1 r2 IH2|r1 IH1 r2 IH2|r1 IH1|greedy lo hi a
                  |j r1 IH1| | | |a];
    intros prev s caps k res H; simpl in H.
  - exists [], s, []. simpl. auto.
  - destruct s as [|c s]; [discriminate|].
    destruct (atom_match fl a c) eqn:Ea; [|discriminate].
    exists [c], s, []. simpl. repeat split; eauto.
  - apply IH1 in H as [p1 [q1 [n1 [Hs1 [Hm1 [Hc1 H]]]]]].
    apply IH2 in H as [p2 [q2 [n2 [Hs2 [Hm2 [Hc2 H]]]]]].
    exists (p1 ++ p2), q2, (n2 ++ n1). subst s q1.
    rewrite <- app_assoc. split; [reflexivity|]. split.
    + simpl. exists p1, p2. auto.
    + split.
      * apply Forall_app. split; eapply Forall_impl; try eassumption;
          intros cap Hcap; simpl; auto.
      * rewrite <- prev_after_app, <- app_assoc. exact H.
  - apply orelse_some in H as [H|H]; [apply IH1 in H | apply IH2 in H];
      destruct H as [p [q [n [Hs [Hm [Hc H]]]]]]; exists p, q, n;
      (split; [exact Hs|]); (split; [simpl; auto|]);
      (split; [|exact H]); eapply Forall_impl; try eassumption;
      intros cap Hcap; simpl; auto.
  - apply orelse_some in H as [H|H].
    + apply IH1 in H as [p [q [n [Hs [Hm [Hc H]]]]]]. exists p, q, n.
      split; [exact Hs|]. split; [simpl; auto|]. split; [exact Hc | exact H].
    + exists [], s, []. simpl. auto.
  - apply rep_atom_sound in H as [pre [post [Hs [Hall [Hlo [Hhi Hk]]]]]].
    exists pre, post, []. simpl. auto 6.
  - apply IH1 in H as [p [q [n [Hs [Hm [Hc H]]]]]].
    exists p, q, ((j, p) :: n). split; [exact Hs|]. split; [exact Hm|]. split.
    + constructor.
      * simpl. left. split; [reflexivity|]. eauto.
      * eapply Forall_impl; try eassumption. intros cap Hcap. simpl. auto.
    + subst s. rewrite length_app in H.
      replace (length p + length q - length q)%nat with (length p) in H by lia.
      rewrite firstn_app, firstn_all, Nat.sub_diag in H. simpl in H.
      rewrite app_nil_r in H. exact H.
  - destruct (at_bol fl prev) eqn:E; [|discriminate].
    exists [], s, []. simpl. auto.
  - destruct (at_eol fl s) eqn:E; [|discriminate].
    exists [], s, []. simpl. auto.
  - destruct (xorb (word_before prev) (word_after s)) eqn:E; [|discriminate].
    exists [], s, []. simpl. auto.
  - destruct prev as [c|]; [|discriminate].
    destruct (atom_match fl a c) eqn:E; [|discriminate].
    exists [], s, []. simpl. repeat split; eauto.
Qed.

(** After a pattern that ends by closing group [i], that group is the one
    captured last. *)
Lemma rmatch_last_group (i : nat) (r : regex) :
  ends_with_group i r = true ->
  forall (prev : option ascii) (s : str) (caps : captures) (k : @cont R)
         (res : R),
    rmatch fl r prev s caps k = Some res ->
    exists prev' s' caps' g, k prev' s' ((i, g) :: caps') = Some res.
Proof.
  induction r as [|a|r1 IH1 r2 IH2|r1 IH1 r2 IH2|r1 IH1|greedy lo hi a
                  |j r1 IH1| | | |a];
    intros Hi prev s caps k res H; simpl in Hi; try discriminate.
  - simpl in H. apply rmatch_sound in H as [pre [post [new [_ [_ [_ H]]]]]].
    eapply IH2; eauto.
  - apply andb_prop in Hi as [Hi1 Hi2]. simpl in H.
    apply orelse_some in H as [H|H]; [eapply IH1 | eapply IH2]; eauto.
  - apply Nat.eqb_eq in Hi. subst j. simpl in H.
    apply rmatch_sound in H as [pre [post [new [_ [_ [_ H]]]]]]. eauto.
Qed.

End Sound.

(** A match object holds a text the pattern matches, and groups the pattern
    can capture. *)
Lemma match_here_sound (fl : flags) (r : regex) (prev : option ascii) (s : str)
    (start : nat) (m : match_obj) :
  match_here fl r prev s start = Some m ->
  s = m_text m ++ m_after m
  /\ matches fl r prev (m_text m) (m_after m)
  /\ Forall (captured_in fl r) (m_groups m)
  /\ m_start m = start.
Proof.
  intros H. unfold match_here in H.
  apply rmatch_sound in H as [pre [post [new [Hs [Hm [Hc H]]]]]].
  injection H as <-. simpl. subst s. rewrite length_app.
  replace (length pre + length post - length post)%nat with (length pre) by lia.
  rewrite firstn_app, firstn_all, Nat.sub_diag. simpl. rewrite !app_nil_r.
  auto.
Qed.

Lemma search_from_sound (fl : flags) (r : regex) (s : str) :
  forall (prev : option ascii) (start : nat) (m : match_obj),
    search_from fl r prev s start = Some m ->
    exists before,
      s = before ++ m_text m ++ m_after m
      /\ matches fl r (prev_after before prev) (m_text m) (m_after m)
      /\ Forall (captured_in fl r) (m_groups m)
      /\ m_start m = (start + length before)%nat.
Proof.
  induction s as [|c s IH]; intros prev start m H; simpl in H.
  - destruct (match_here fl r prev [] start) eqn:E; [|discriminate].
    injection H as <-. apply match_here_sound in E as [Hs [Hm [Hc Hst]]].
    exists []. simpl. rewrite Nat.add_0_r. auto.
  - destruct (match_here fl r prev (c :: s) start) eqn:E.
    + injection H as <-. apply match_here_sound in E as [Hs [Hm [Hc Hst]]].
      exists []. simpl. rewrite Nat.add_0_r. auto.
    + apply IH in H as [before [Hs [Hm [Hc Hst]]]].
      exists (c :: before). simpl. rewrite <- Hs. split; [reflexivity|].
      split.
      * destruct before as [|d t]; [exact Hm|].
        change (matches fl r (Some (List.last (d :: t) c)) (m_text m) (m_after m)).
        rewrite last_cons_any. exact Hm.
      * split; [exact Hc | lia].
Qed.

Lemma search_sound (fl : flags) (r : regex) (s : str) (m : match_obj) :
  search fl r s = Some m ->
  exists before,
    s = before ++ m_text m ++ m_after m
    /\ matches fl r (prev_after before None) (m_text m) (m_after m)
    /\ Forall (captured_in fl r) (m_groups m).
Proof.
  intros H. apply search_from_sound in H as [before [Hs [Hm [Hc _]]]]. eauto.
Qed.

Lemma group_in_captured (fl : flags) (r : regex) (caps : captures) (i : nat)
    (g : str) :
  Forall (captured_in fl r) caps -> group_in caps i = Some g ->
  captured_in fl r (i, g).
Proof.
  induction 1 as [|[j h] caps Hc _ IH]; simpl; [discriminate|].
  destruct (Nat.eqb i j) eqn:E; [|exact IH].
  apply Nat.eqb_eq in E. subst j. intros H. injection H as <-. exact Hc.
Qed.

Lemma match_here_last_group (fl : flags) (r : regex) (i : nat)
    (prev : option ascii) (s : str) (start : nat) (m : match_obj) :
  ends_with_group i r = true -> match_here fl r prev s start = Some m ->
  exists g caps, m_groups m = (i, g) :: caps.
Proof.
  intros Hi H. unfold match_here in H.
  apply (rmatch_last_group fl i r Hi) in H as [p [s' [caps [g H]]]].
  injection H as <-. simpl. eauto.
Qed.

Lemma search_last_group (fl : flags) (r : regex) (i : nat) (s : str)
    (m : match_obj) :
  ends_with_group i r = true -> search fl r s = Some m ->
  exists g caps, m_groups m = (i, g) :: caps.
Proof.
  intros Hi. unfold search. generalize (@None ascii) as prev, 0%nat as start.
  induction s as [|c s IH]; intros prev start H; simpl in H.
  - destruct (match_here fl r prev [] start) eqn:E; [|discriminate].
    injection H as <-. eapply match_here_last_group; eauto.
  - destruct (match_here fl r prev (c :: s) start) eqn:E.
    + injection H as <-. eapply match_here_last_group; eauto.
    + eapply IH; eauto.
Qed.

End ReSound.

(** ** Greedy repetitions *)

Module ReGreedy.
Import Py Re DocumentProcessor ReSpans Notions PyFacts ReFacts ReSound.

Lemma space_case_blind (c : ascii) :
  isspace (lower_char c) = isspace c /\ isspace (upper_char c) = isspace c.
Proof. destruct c as [[] [] [] [] [] [] [] []]; split; reflexivity. Qed.

(** [\s] matches the blanks, with or without [IGNORECASE]. *)
Lemma space_match (fl : flags) (c : ascii) : atom_match fl SPACE c = isspace c.
Proof.
  unfold SPACE, atom_match. simpl existsb.
  destruct (space_case_blind c) as [-> ->].
  destruct (ignorecase fl), (isspace c); reflexivity.
Qed.

Lemma newline_is_space (c : ascii) : isspace c = false -> Ascii.eqb c NL = false.
Proof.
  intros H. destruct (Ascii.eqb c NL) eqn:E; [|reflexivity].
  apply Ascii.eqb_eq in E. subst c. discriminate.
Qed.

Lemma lstrip_idempotent (s : str) : lstrip (lstrip s) = lstrip s.
Proof.
  destruct (lstrip s) as [|c r] eqn:E; [reflexivity|].
  apply lstrip_fixed. eapply lstrip_head; eauto.
Qed.

Lemma lstrip_snoc_nonblank (l : str) (c : ascii) :
  isspace c = false -> lstrip (l ++ [c]) <> [].
Proof.
  intros Hc. induction l as [|x l IH]; simpl.
  - rewrite Hc. discriminate.
  - destruct (isspace x); [exact IH | discriminate].
Qed.

(** A text that starts with a character that is no blank does not trim to
    nothing. *)
Lemma strip_head_nonblank (c : ascii) (x : str) :
  isspace c = false -> strip (c :: x) <> [].
Proof.
  intros Hc. unfold strip. rewrite (lstrip_fixed c x Hc). unfold rstrip.
  simpl rev. intros H. apply (f_equal (@rev ascii)) in H.
  rewrite rev_involutive in H. simpl in H.
  now apply (lstrip_snoc_nonblank (rev x) c Hc).
Qed.

(** A trimmed text does not end with a blank. *)
Lemma trimmed_last (r : str) (c : ascii) :
  trimmed (r ++ [c]) -> isspace c = false.
Proof.
  unfold trimmed, strip. intros H. eapply rstrip_last. exact H.
Qed.

Section Greedy.
Context {R : Type} (fl : flags).

(** [\s*] before a text that starts with no blank: the longest run of blanks
    is tried first, so when what follows matches there, that is the match. *)
Lemma greedy_spaces (ws tail : str) :
  forall (prev : option ascii) (caps : captures) (k : @cont R) (res : R),
    forallb isspace ws = true -> lstrip tail = tail ->
    k (prev_after ws prev) tail caps = Some res ->
    rep_atom fl true SPACE 0 None prev (ws ++ tail) caps k = Some res.
Proof.
  induction ws as [|w ws IH]; intros prev caps k res Hws Ht Hk.
  - simpl app. simpl in Hk. destruct tail as [|c t]; cbn [rep_atom hi_allows andb].
    + exact Hk.
    + rewrite space_match.
      assert (Hc : isspace c = false) by (eapply lstrip_head; exact Ht).
      rewrite Hc. simpl. exact Hk.
  - simpl in Hws. apply andb_prop in Hws as [Hw Hws].
    cbn [app rep_atom hi_allows andb Nat.pred option_map].
    rewrite space_match, Hw.
    rewrite (IH (Some w) caps k res Hws Ht); [reflexivity|].
    destruct ws as [|d t]; [exact Hk|].
    change (prev_after (w :: d :: t) prev) with (Some (List.last (d :: t) w)) in Hk.
    rewrite last_cons_any in Hk. exact Hk.
Qed.

(** A greedy repetition with no lower bound, before something that always
    matches, ends somewhere in the text. *)
Lemma greedy_total (a : atom) (s : str) :
  forall (hi : option nat) (prev : option ascii) (caps : captures)
         (k : @cont R),
    (forall p s' c, k p s' c <> None) ->
    exists pre post,
      s = pre ++ post
      /\ rep_atom fl true a 0 hi prev s caps k = k (prev_after pre prev) post caps.
Proof.
  induction s as [|c s IH]; intros hi prev caps k Hk.
  - exists [], []. split; reflexivity.
  - cbn [rep_atom]. change (Nat.pred 0) with 0%nat.
    destruct (hi_allows hi && atom_match fl a c).
    + destruct (IH (option_map Nat.pred hi) (Some c) caps k Hk)
        as [pre [post [Hs Hr]]].
      exists (c :: pre), post. split; [simpl; congruence|].
      rewrite Hr.
      assert (Hp : prev_after pre (Some c) = prev_after (c :: pre) prev).
      { destruct pre as [|d t]; [reflexivity|].
        change (prev_after (c :: d :: t) prev) with (Some (List.last (d :: t) c)).
        now rewrite last_cons_any. }
      rewrite Hp.
      destruct (k (prev_after (c :: pre) prev) post caps) eqn:E; [reflexivity|].
      exfalso. eapply Hk; eauto.
    + exists [], (c :: s). split; reflexivity.
Qed.

End Greedy.

(** A pattern that ends in [\s*(.+)], matched at the start of a trimmed
    text: group 1 starts with a character that is no blank. *)
Lemma value_after_spaces (fl : flags) (label : regex) (candidate : str)
    (m : match_obj) :
  trimmed candidate ->
  pmatch fl (RSeq label (RSeq (zero_or_more SPACE)
                           (RGroup 1 (RRep true 1 None AAny)))) candidate
  = Some m ->
  exists c g, group m 1 = Some (c :: g) /\ isspace c = false.
Proof.
  intros Htrim H. unfold pmatch, match_here in H.
  change (rmatch fl (RSeq label ?r) None candidate [] ?k)
    with (rmatch fl label None candidate []
            (fun p' s' c' => rmatch fl r p' s' c' k)) in H.
  apply rmatch_sound in H as [pre [s1 [new [Hs [_ [_ H]]]]]].
  change (rep_atom fl true SPACE 0 None (prev_after pre None) s1 (new ++ [])
            (fun p' s' c' =>
               rep_atom fl true AAny 1 None p' s' c'
                 (fun p'' s'' c'' =>
                    Some {| m_start := 0;
                            m_text := firstn (length candidate - length s'') candidate;
                            m_after := s'';
                            m_groups := (1%nat, firstn (length s' - length s'') s') :: c'' |}))
          = Some m) in H.
  destruct (lstrip_suffix s1) as [ws [Hs1 Hws]].
  destruct (lstrip s1) as [|c rest] eqn:El.
  - (* only blanks are left: the text would end with one *)
    rewrite app_nil_r in Hs1. subst ws.
    destruct s1 as [|z s1'] using rev_ind.
    + simpl in H. discriminate.
    + exfalso. clear IHs1'. rewrite forallb_app in Hws.
      apply andb_prop in Hws as [_ Hz]. simpl in Hz.
      rewrite andb_true_r in Hz. subst candidate.
      rewrite app_assoc in Htrim. apply trimmed_last in Htrim. congruence.
  - assert (Hc : isspace c = false) by (eapply lstrip_head; exact El).
    rewrite Hs1 in H.
    set (k2 := fun (p' : option ascii) (s' : str) (c' : captures) =>
                 rep_atom fl true AAny 1 None p' s' c'
                   (fun p'' s'' c'' =>
                      Some {| m_start := 0;
                              m_text := firstn (length candidate - length s'') candidate;
                              m_after := s'';
                              m_groups := (1%nat, firstn (length s' - length s'') s') :: c'' |})) in H.
    assert (Hk2 : exists g,
              k2 (prev_after ws (prev_after pre None)) (c :: rest) (new ++ [])
              = Some {| m_start := 0;
                        m_text := firstn (length candidate - length (skipn (length g) rest)) candidate;
                        m_after := skipn (length g) rest;
                        m_groups := (1%nat, c :: g) :: new ++ [] |}).
    { unfold k2. simpl rep_atom.
      assert (Ha : Ascii.eqb c "010" = false) by (apply newline_is_space; exact Hc).
      rewrite Ha. simpl negb. cbv iota.
      match goal with
      | |- context [rep_atom fl true AAny 0 None ?p rest ?cc ?k] =>
          destruct (greedy_total fl AAny rest None p cc k) as [g [post [Hr Heq]]];
            [discriminate|]
      end.
      rewrite Heq. exists g. simpl orelse. subst rest.
      rewrite skipn_app, skipn_all, Nat.sub_diag. simpl skipn.
      repeat f_equal.
      replace (length (c :: g ++ post) - length post)%nat with (S (length g))
        by (simpl; rewrite length_app; lia).
      rewrite length_app.
      replace (S (length g + length post) - length post)%nat with (S (length g))
        by lia.
      simpl. f_equal. rewrite firstn_app, firstn_all, Nat.sub_diag. simpl.
      now rewrite app_nil_r. }
    destruct Hk2 as [g Hk2].
    assert (Hl : lstrip (c :: rest) = c :: rest)
      by (rewrite <- El; apply lstrip_idempotent).
    pose proof (greedy_spaces fl ws (c :: rest) _ _ k2 _ Hws Hl Hk2) as Hg.
    rewrite Hg in H. injection H as <-.
    exists c, g. split; [reflexivity | exact Hc].
Qed.

End ReGreedy.

(** ** The fallback answer and the response *)

Module RetrieverFacts.
Import Py Re PyFloat DocumentProcessor Guardrails Retriever Notions.
Import FloatFacts FloatCompare GuardrailFacts.
Local Open Scope Z_scope.

Section Sorting.
Context {A : Type} (key : A -> Z).

Lemma insert_reverse_perm (x : A) (l : list A) :
  Permutation (insert_reverse key x l) (x :: l).
Proof.
  induction l as [|y l IH]; simpl; [reflexivity|].
  destruct (key x <? key y); [|reflexivity].
  rewrite IH. apply perm_swap.
Qed.

Lemma sort_reverse_perm (l : list A) : Permutation (sort_reverse key l) l.
Proof.
  induction l as [|x l IH]; simpl; [reflexivity|].
  rewrite insert_reverse_perm. now constructor.
Qed.

Lemma insert_reverse_sorted (x : A) (l : list A) :
  StronglySorted (fun a b => key b <= key a) l ->
  StronglySorted (fun a b => key b <= key a) (insert_reverse key x l).
Proof.
  induction 1 as [|y l Hs IH Hy]; simpl.
  - constructor; constructor.
  - destruct (key x <? key y) eqn:E.
    + apply Z.ltb_lt in E. constructor; [exact IH|].
      rewrite Forall_forall in *. intros z Hz.
      apply (Permutation_in _ (insert_reverse_perm x l)) in Hz.
      destruct Hz as [<-|Hz]; [lia | now apply Hy].
    + apply Z.ltb_ge in E. constructor; [now constructor|].
      constructor; [exact E|].
      rewrite Forall_forall in *. intros z Hz. specialize (Hy z Hz). lia.
Qed.

Lemma sort_reverse_sorted (l : list A) :
  StronglySorted (fun a b => key b <= key a) (sort_reverse key l).
Proof.
  induction l as [|x l IH]; simpl; [constructor|].
  now apply insert_reverse_sorted.
Qed.

End Sorting.

Lemma slice_from_zero {A} (s : list A) (n : Z) :
  0 <= n -> slice s 0 n = firstn (Z.to_nat n) s.
Proof.
  intros Hn. unfold slice.
  assert (Hlo : slice_index (len s) 0 = 0).
  { unfold slice_index. change (0 <? 0) with false. cbv iota.
    apply Z.min_l. unfold len. lia. }
  assert (Hhi : slice_index (len s) n = Z.min n (len s)).
  { unfold slice_index. destruct (n <? 0) eqn:E; [apply Z.ltb_lt in E; lia|].
    reflexivity. }
  rewrite Hlo, Hhi, Z.sub_0_r. change (skipn (Z.to_nat 0) s) with s.
  destruct (Z.le_gt_cases n (len s)) as [H|H].
  - now rewrite Z.min_l by lia.
  - rewrite Z.min_r by lia. unfold len in *.
    rewrite !firstn_all2 by lia. reflexivity.
Qed.

(** The head of a descending list is positive exactly when some item is. *)
Lemma head_positive (ranked scored : list (Z * str)) :
  Permutation ranked scored ->
  StronglySorted (fun a b => fst b <= fst a) ranked ->
  match ranked with
  | (overlap, _) :: _ => 0 <? overlap
  | [] => false
  end = existsb (fun s => 0 <? fst s) scored.
Proof.
  intros Hp Hs. destruct ranked as [|[o s] ranked].
  - apply Permutation_nil in Hp. now subst.
  - inversion Hs as [|? ? _ Hall]; subst. rewrite Forall_forall in Hall.
    destruct (0 <? o) eqn:E.
    + symmetry. apply existsb_exists. exists (o, s). split; [|exact E].
      apply (Permutation_in _ Hp). now left.
    + symmetry. apply not_true_is_false. intros Hex.
      apply existsb_exists in Hex as [[o' s'] [Hin Ho]].
      apply (Permutation_in _ (Permutation_sym Hp)) in Hin.
      apply Z.ltb_ge in E. apply Z.ltb_lt in Ho. simpl in *.
      destruct Hin as [Heq|Hin]; [injection Heq as -> ->; lia|].
      specialize (Hall _ Hin). simpl in Hall. lia.
Qed.

(** X10.  The fallback answer looks at the first chunk only.  Its sentences
    are ranked by the number of words they share with the question, greatest
    first; when some sentence shares a word, the answer is the first three of
    the ranking, joined and closed by full stops; otherwise it is the
    beginning of the chunk. *)
Theorem extractive_fallback_ranking (question : str) (best : chunk)
    (rest : list chunk) :
  let scored := score_sentences question (text best) in
  let ranked := sort_reverse fst scored in
  Permutation ranked scored
  /\ StronglySorted (fun a b => fst b <= fst a) ranked
  /\ _extractive_fallback question (best :: rest)
     = if existsb (fun s => 0 <? fst s) scored
       then join (lit ". ") (map snd (firstn 3 ranked)) ++ lit "."
       else beginning (text best).
Proof.
  intros scored ranked.
  pose proof (sort_reverse_perm fst scored) as Hp.
  pose proof (sort_reverse_sorted fst scored) as Hs.
  fold ranked in Hp, Hs. split; [exact Hp|]. split; [exact Hs|].
  pose proof (head_positive ranked scored Hp Hs) as Hh.
  unfold _extractive_fallback. fold scored. fold ranked.
  rewrite <- Hh. rewrite slice_from_zero by lia.
  destruct ranked as [|[o s] ranked']; [reflexivity|].
  destruct (0 <? o); reflexivity.
Qed.

Lemma composite_in_unit (similarity_scores : list float) (answer : str)
    (source_texts : list str) (chunks : list chunk) :
  in_unit (compute_composite_confidence similarity_scores answer source_texts chunks)
  = true.
Proof.
  unfold compute_composite_confidence.
  match goal with
  | |- in_unit (py_round (py_min 1 (py_max 0 ?x)) 4) = true =>
      destruct (round_clamped x) as [k [Hk ->]]
  end.
  now apply ten_thousandth_in_unit.
Qed.

(** X11.  Whatever the chunks and whatever the model replied, the response
    of [answer_question] has a confidence between 0 and 1, an answer that is
    not empty, a guardrail message exactly when the guardrail is triggered,
    and the retrieved chunks as its sources. *)
Theorem answer_question_response (question : str) (chunks : list chunk)
    (generated : option str) (confidence_threshold : float) :
  let r := answer_question question chunks generated confidence_threshold in
  in_unit (confidence_score r) = true
  /\ answer r <> []
  /\ (guardrail_triggered r = true <-> guardrail_message r <> None)
  /\ sources r = chunks.
Proof.
  intros r. unfold r, answer_question.
  destruct chunks as [|c chunks].
  { simpl. repeat split; try discriminate; reflexivity. }
  simpl truthy. simpl negb. cbv iota. cbv zeta.
  set (scores := map similarity_score (c :: chunks)).
  set (ans := match generated with
              | Some content => strip content
              | None => _extractive_fallback question (c :: chunks)
              end).
  set (conf := compute_composite_confidence scores ans (map text (c :: chunks))
                 (c :: chunks)).
  pose proof (composite_in_unit scores ans (map text (c :: chunks)) (c :: chunks))
    as Hu. fold conf in Hu.
  destruct (check_guardrails_cases ans conf confidence_threshold scores)
    as [[_ E]|[[_ [top [_ E]]]|[[_ [_ [p [_ E]]]]|[[_ [_ [_ [_ E]]]]|[H1 [H2 [H3 [H4 E]]]]]]]];
    cbv zeta in E; rewrite E; simpl;
    (split; [exact Hu|]); (split; [|split; [|reflexivity]]);
    try discriminate; try (split; [discriminate | reflexivity]).
  - intros ->. unfold strip, rstrip, len in H4. simpl in H4. lia.
  - split; [discriminate | congruence].
Qed.

(** X12.  A threshold above 1 rejects every answer with the reply of rule 1;
    a threshold of 0 or less never does, and gives the response that the
    threshold 0 gives. *)
Theorem answer_question_threshold (question : str) (chunks : list chunk)
    (generated : option str) (confidence_threshold : float) :
  ((1 <? confidence_threshold)%float = true -> chunks <> [] ->
   let r := answer_question question chunks generated confidence_threshold in
   guardrail_triggered r = true /\ answer r = NOT_CONFIDENT)
  /\ ((confidence_threshold <=? 0)%float = true ->
      answer_question question chunks generated confidence_threshold
      = answer_question question chunks generated 0%float).
Proof.
  destruct chunks as [|c chunks].
  { split; [congruence | reflexivity]. }
  unfold answer_question. simpl truthy. simpl negb. cbv iota. cbv zeta.
  set (scores := map similarity_score (c :: chunks)).
  set (ans := match generated with
              | Some content => strip content
              | None => _extractive_fallback question (c :: chunks)
              end).
  set (conf := compute_composite_confidence scores ans (map text (c :: chunks))
                 (c :: chunks)).
  pose proof (composite_in_unit scores ans (map text (c :: chunks)) (c :: chunks))
    as Hu. fold conf in Hu.
  split.
  - intros Ht _. unfold check_guardrails.
    rewrite (unit_below conf confidence_threshold Hu Ht). split; reflexivity.
  - intros Ht. unfold check_guardrails.
    rewrite (unit_not_below conf confidence_threshold Hu Ht).
    rewrite (unit_not_below conf 0%float Hu eq_refl). reflexivity.
Qed.

Lemma answer_question_threshold_witness :
  let c := {| text := lit "Carrier is FastFreight LLC. The rate is 450 USD.";
              chunk_index := 0; similarity_score := 0.8%float |} in
  (guardrail_triggered
     (answer_question (lit "What is the rate?") [c] None 1.5%float) = true
   /\ answer (answer_question (lit "What is the rate?") [c] None 1.5%float)
      = NOT_CONFIDENT)
  /\ answer_question (lit "What is the rate?") [c] None (-0.5)%float
     = answer_question (lit "What is the rate?") [c] None 0%float.
Proof.
  intros c. split.
  - apply (proj1 (answer_question_threshold (lit "What is the rate?") [c] None
                    1.5%float)); [reflexivity | discriminate].
  - apply (proj2 (answer_question_threshold (lit "What is the rate?") [c] None
                    (-0.5)%float)). reflexivity.
Defined.

End RetrieverFacts.

(** ** What the scanners return *)

Module ExtractorFacts.
Import Py Re PyFloat DocumentProcessor Extractor ExtractorFields Notions.
Import ReSpans PyFacts ReFacts ScannerSpec ReSound ReGreedy.
Local Open Scope Z_scope.

Lemma not_junk_long (val : str) :
  _is_junk_value val = false -> val <> [] /\ 2 <= len (strip val).
Proof.
  unfold _is_junk_value. destruct (too_short val) eqn:E; [discriminate|].
  intros _. unfold too_short in E. apply orb_false_elim in E as [E1 E2].
  apply Z.ltb_ge in E2. split; [|exact E2].
  destruct val; [discriminate | discriminate].
Qed.

Lemma firstn_len {A} (n : nat) (l : list A) : len (firstn n l) <= Z.of_nat n.
Proof. unfold len. rewrite length_firstn. lia. Qed.

(** X13.  A value the label scanner returns is never empty and has at most
    150 characters: it is the first 150 characters of the trimmed first group
    of one of the patterns, and that trimmed group is not junk and has at
    least 2 characters. *)
Theorem scanner_value_sound (text : str) (label_patterns : list regex)
    (multiline : bool) (v : str) :
  _find_value_after_label text label_patterns multiline = Ok (Some v) ->
  v <> [] /\ len v <= 150
  /\ exists pattern val,
       In pattern label_patterns
       /\ captured text multiline pattern = Some val
       /\ trimmed val /\ 2 <= len val
       /\ _is_junk_value val = false
       /\ v = firstn 150 val.
Proof.
  induction label_patterns as [|p rest IH]; simpl; [discriminate|].
  intros H.
  assert (Hrest : _find_value_after_label text rest multiline = Ok (Some v) ->
                  v <> [] /\ len v <= 150
                  /\ exists pattern val,
                       (p = pattern \/ In pattern rest)
                       /\ captured text multiline pattern = Some val
                       /\ trimmed val /\ 2 <= len val
                       /\ _is_junk_value val = false
                       /\ v = firstn 150 val).
  { intros H'. destruct (IH H') as [H1 [H2 [q [val [Hq Hv]]]]].
    split; [exact H1|]. split; [exact H2|]. exists q, val. auto. }
  destruct (search (search_flags multiline) p text) as [m|] eqn:E; [|auto].
  unfold group1_stripped in H.
  destruct (group m 1) as [g|] eqn:Eg; [|discriminate]. simpl in H.
  destruct (_is_junk_value (strip g)) eqn:Ej; [auto|].
  injection H as <-. rewrite upto_firstn by lia.
  destruct (not_junk_long _ Ej) as [Hne Hlen].
  rewrite strip_idempotent in Hlen.
  split; [destruct (strip g); [congruence | discriminate]|].
  split; [apply (firstn_len 150)|].
  exists p, (strip g). split; [now left|].
  split; [unfold captured; rewrite E, Eg; reflexivity|].
  split; [apply strip_trimmed|]. auto.
Qed.

Lemma scanner_value_sound_witness :
  lit "ABC Corp" <> [] /\ len (lit "ABC Corp") <= 150
  /\ exists pattern val,
       In pattern shipper_patterns
       /\ captured (lit "Shipper: N/A" ++ [NL] ++ lit "Ship From:  ABC Corp ")
            false pattern = Some val
       /\ trimmed val /\ 2 <= len val
       /\ _is_junk_value val = false
       /\ lit "ABC Corp" = firstn 150 val.
Proof.
  apply (scanner_value_sound
           (lit "Shipper: N/A" ++ [NL] ++ lit "Ship From:  ABC Corp ")
           shipper_patterns false (lit "ABC Corp")).
  vm_compute. reflexivity.
Defined.

(** *** The line below a header *)

Lemma getitem_in_range {A} (l : list A) (j : Z) :
  0 <= j < len l -> exists x, getitem l j = Some x.
Proof.
  intros Hj. unfold getitem.
  destruct (j <? 0) eqn:E; [apply Z.ltb_lt in E; lia|]. rewrite E.
  destruct (nth_error l (Z.to_nat j)) as [x|] eqn:En; [eauto|].
  apply nth_error_None in En. unfold len in Hj. lia.
Qed.

Lemma range_step_one (start stop : Z) (js : list Z) :
  range start stop 1 = Ok js -> Forall (fun j => start <= j < stop) js.
Proof.
  unfold range. simpl. intros H. injection H as <-.
  apply Forall_forall. intros j Hj. apply in_map_iff in Hj as [k [<- Hk]].
  apply in_seq in Hk. destruct (start <? stop) eqn:E.
  - apply Z.ltb_lt in E. rewrite Z.div_1_r in Hk. lia.
  - simpl in Hk. lia.
Qed.

Lemma NAME_LINE_shape (fl : flags) (s : str) :
  pmatch fl NAME_LINE s
  = pmatch fl (RSeq (seqs [RBol; words ["name"; "company"]; zero_or_more SPACE;
                           a_char ":"])
                 (RSeq (zero_or_more SPACE) (RGroup 1 (RRep true 1 None AAny)))) s.
Proof. reflexivity. Qed.

Lemma scan_lines_result (lines : list str) (js : list Z) :
  Forall (fun j => 0 <= j < len lines) js ->
  exists r, scan_lines lines js = Return r
            /\ forall v, r = Some v -> v <> [] /\ trimmed v.
Proof.
  induction 1 as [|j js Hj _ IH].
  - exists None. split; [reflexivity | discriminate].
  - cbn [scan_lines]. destruct (getitem_in_range lines j Hj) as [line ->].
    cbv zeta. pose proof (strip_trimmed line) as Htrim.
    destruct (truthy (strip line)) eqn:Et; [|exact IH]. simpl negb. cbv iota.
    destruct (startswith (strip line) (lit "---")
              || startswith (strip line) (lit "===")); [exact IH|].
    destruct (_is_junk_value (strip line)); [exact IH|].
    destruct (pmatch IGNORECASE NAME_LINE (strip line)) as [m|] eqn:Em.
    + rewrite NAME_LINE_shape in Em.
      apply value_after_spaces in Em as [c [g [Hg Hc]]]; [|exact Htrim].
      unfold group1_stripped. rewrite Hg.
      exists (Some (strip (c :: g))). split; [reflexivity|].
      intros v Hv. injection Hv as <-.
      split; [now apply strip_head_nonblank | apply strip_trimmed].
    + destruct (pmatch IGNORECASE SUB_LABEL (strip line)); [exact IH|].
      exists (Some (strip line)). split; [reflexivity|].
      intros v Hv. injection Hv as <-. split; [|exact Htrim].
      destruct (strip line); [discriminate | discriminate].
Qed.

(** Below a line of the list the call returns, and what it returns is
    trimmed and not empty. *)
Lemma find_next_value_line_ok (lines : list str) (start_idx skip_count : Z) :
  0 <= start_idx ->
  exists r js,
    range (start_idx + 1) (Z.min (start_idx + skip_count + 1) (len lines)) 1 = Ok js
    /\ Forall (fun j => start_idx + 1 <= j
                        < Z.min (start_idx + skip_count + 1) (len lines)) js
    /\ _find_next_value_line lines start_idx skip_count = Return r
    /\ scan_lines lines js = Return r
    /\ (forall v, r = Some v -> v <> [] /\ trimmed v).
Proof.
  intros Hs. unfold _find_next_value_line.
  destruct (range (start_idx + 1)
              (Z.min (start_idx + skip_count + 1) (len lines)) 1) as [js|e] eqn:Er.
  2:{ unfold range in Er. discriminate. }
  pose proof (range_step_one _ _ _ Er) as Hjs.
  assert (Hin : Forall (fun j => 0 <= j < len lines) js).
  { eapply Forall_impl; [|exact Hjs]. intros j Hj. simpl in Hj. lia. }
  destruct (scan_lines_result lines js Hin) as [r [Hr Hv]].
  exists r, js. auto.
Qed.

(** X14.  Called below a line of the list ([0 <= start_idx]),
    [_find_next_value_line] raises nothing; a value it returns is trimmed and
    not empty; and it returns none when no line is left below or nothing is
    to be looked at. *)
Theorem next_value_line_result (lines : list str) (start_idx skip_count : Z) :
  0 <= start_idx ->
  exists r,
    _find_next_value_line lines start_idx skip_count = Return r
    /\ (forall v, r = Some v -> v <> [] /\ trimmed v)
    /\ (skip_count <= 0 \/ len lines <= start_idx + 1 -> r = None).
Proof.
  intros Hs.
  destruct (find_next_value_line_ok lines start_idx skip_count Hs)
    as [r [js [_ [Hjs [Hr [Hsc Hv]]]]]].
  exists r. split; [exact Hr|]. split; [exact Hv|].
  intros Hempty. destruct js as [|j js'].
  - simpl in Hsc. now injection Hsc as <-.
  - exfalso. inversion Hjs as [|? ? Hj _]; subst. lia.
Qed.

Lemma next_value_line_result_witness :
  exists r,
    _find_next_value_line
      (map lit ["Shipper Information"; "---"; "Name:  ABC Corp  "; "Address: 1 Main"])
      0 5 = Return r
    /\ (forall v, r = Some v -> v <> [] /\ trimmed v)
    /\ (5 <= 0 \/ len (map lit ["Shipper Information"; "---"; "Name:  ABC Corp  ";
                                 "Address: 1 Main"]) <= 0 + 1 -> r = None).
Proof.
  apply (next_value_line_result
           (map lit ["Shipper Information"; "---"; "Name:  ABC Corp  ";
                     "Address: 1 Main"]) 0 5).
  lia.
Defined.

(** *** The currency of a rate read off a dollar amount *)

Lemma startswith_contains (sub s before : str) :
  startswith s sub = true -> contains sub (before ++ s) = true.
Proof.
  intros H. induction before as [|b before IH]; simpl app.
  - destruct s; cbn [contains]; rewrite H; reflexivity.
  - cbn [contains]. rewrite IH. apply orb_true_r.
Qed.

Lemma dollar_amount_starts (prev : option ascii) (pre post : str) :
  matches NOFLAGS DOLLAR_AMOUNT prev pre post -> startswith pre (lit "$") = true.
Proof.
  unfold DOLLAR_AMOUNT. cbn [seqs matches a_char].
  intros [p1 [p2 [-> [[c [-> Hc]] _]]]].
  simpl in Hc. apply Ascii.eqb_eq in Hc. subst c. destruct p2; reflexivity.
Qed.

Lemma startswith_app (s t pre : str) :
  startswith s pre = true -> startswith (s ++ t) pre = true.
Proof.
  revert s. induction pre as [|p pre IH]; intros s H;
    [destruct s; [destruct t|]; reflexivity|].
  destruct s as [|c s]; [discriminate|]. simpl in *.
  apply andb_prop in H as [H1 H2]. rewrite H1. simpl. now apply IH.
Qed.

Lemma dollar_amounts_need_dollar (text : str) :
  dollar_amounts text <> [] -> contains (lit "$") text = true.
Proof.
  unfold dollar_amounts, findall, finditer. intros H.
  cbn [finditer_steps] in H.
  destruct (search_from NOFLAGS DOLLAR_AMOUNT None text 0) as [m|] eqn:E.
  2:{ simpl in H. congruence. }
  apply search_from_sound in E as [before [Hs [Hm _]]].
  apply dollar_amount_starts in Hm. rewrite Hs.
  apply startswith_contains. now apply startswith_app.
Qed.

(** X15.  A rate that no labelled pattern gave, and that was read off a
    dollar amount instead, always comes with the currency USD. *)
Theorem dollar_rate_is_usd (text rate : str) :
  labelled_rate rate_patterns text = Ok None ->
  _extract_with_regex_rate text = Ok (Some rate) ->
  _extract_with_regex_currency text = Some (lit "USD").
Proof.
  intros Hl H. unfold _extract_with_regex_rate in H. rewrite Hl in H.
  simpl in H. unfold _extract_with_regex_currency.
  rewrite dollar_amounts_need_dollar; [reflexivity|].
  destruct (dollar_amounts text); [discriminate | discriminate].
Qed.

Lemma dollar_rate_is_usd_witness :
  _extract_with_regex_currency (lit "Fuel $120.50, lumper $75.00")
  = Some (lit "USD").
Proof.
  apply (dollar_rate_is_usd (lit "Fuel $120.50, lumper $75.00") (lit "120.50"));
    vm_compute; reflexivity.
Defined.

End ExtractorFacts.

(** ** The regex fallback returns, and what it stores *)

Module ExtractionFacts.
Import Py Re PyFloat DocumentProcessor Extractor ExtractorFields RegexExtraction.
Import ReSpans Notions ExtractionNotions.
Import PyFacts ReFacts ScannerSpec ReSound ReGreedy ExtractorFacts RateSpec.
Local Open Scope Z_scope.

(** *** Running the parts *)

Lemma yields_return {A} (P : A -> Prop) (a : A) : P a -> yields P (Return a).
Proof. intros H. exists a. auto. Qed.

Lemma yields_and_then {A B} (P : A -> Prop) (Q : B -> Prop) (m : outcome A)
    (f : A -> outcome B) :
  yields P m -> (forall a, P a -> yields Q (f a)) -> yields Q (and_then m f).
Proof. intros [a [-> Ha]] Hf. simpl. now apply Hf. Qed.

Lemma yields_weaken {A} (P Q : A -> Prop) (o : outcome A) :
  (forall a, P a -> Q a) -> yields P o -> yields Q o.
Proof. intros H [a [-> Ha]]. exists a. auto. Qed.

Lemma returns_any {A} (P : A -> Prop) (o : outcome A) : yields P o -> returns o.
Proof. apply yields_weaken. auto. Qed.

(** *** The label scanner *)

Lemma scan_result (text : str) (patterns : list regex) :
  forallb (always_captures 1) patterns = true ->
  yields (filled 150) (scan text patterns).
Proof.
  unfold scan. induction patterns as [|p rest IH]; intros Hc.
  - simpl. apply yields_return. intros v Hv. discriminate.
  - simpl in Hc. apply andb_prop in Hc as [Hp Hrest]. specialize (IH Hrest).
    cbn [_find_value_after_label].
    destruct (search (search_flags false) p text) as [m|] eqn:E; [|exact IH].
    pose proof (search_captures _ _ _ _ _ Hp E) as Hg.
    unfold group1_stripped. destruct (group m 1) as [g|]; [|congruence].
    cbn [bind]. destruct (_is_junk_value (strip g)) eqn:Ej; [exact IH|].
    apply yields_return. intros v Hv. injection Hv as <-.
    rewrite upto_firstn by lia. destruct (not_junk_long _ Ej) as [Hne _].
    split; [destruct (strip g); [congruence | discriminate]|].
    apply (firstn_len 150).
Qed.

Lemma upto_nonempty (n : Z) (v : str) : 0 < n -> v <> [] -> upto n v <> [].
Proof.
  intros Hn Hv. rewrite upto_firstn by lia.
  destruct v as [|c v]; [congruence|].
  destruct (Z.to_nat n) eqn:E; [lia | discriminate].
Qed.

Lemma upto_len (n : Z) (v : str) : 0 <= n -> len (upto n v) <= n.
Proof.
  intros Hn. rewrite upto_firstn by lia.
  pose proof (firstn_len (Z.to_nat n) v). lia.
Qed.

(** What the closing test [val and not _is_junk_value(val)] lets through,
    cut to [n] characters. *)
Lemma usable_filled (n : Z) (val : option str) :
  0 < n ->
  filled n (if usable val then option_map (upto n) val else None).
Proof.
  intros Hn v Hv. destruct val as [s|]; simpl in Hv; [|discriminate].
  destruct (truthy s) eqn:Et; simpl in Hv; [|discriminate].
  destruct (_is_junk_value s); simpl in Hv; [discriminate|].
  injection Hv as <-. split; [|apply upto_len; lia].
  apply upto_nonempty; [lia|]. destruct s; [discriminate | discriminate].
Qed.

(** Trimming a value that is not junk leaves something. *)
Lemma usable_stripped (val : option str) :
  filled 150 val ->
  filled 150 (if usable val then option_map strip val else None).
Proof.
  intros Hf v Hv. destruct val as [s|]; simpl in Hv; [|discriminate].
  destruct (truthy s) eqn:Et; simpl in Hv; [|discriminate].
  destruct (_is_junk_value s) eqn:Ej; simpl in Hv; [discriminate|].
  injection Hv as <-. destruct (not_junk_long _ Ej) as [_ Hl].
  split; [destruct (strip s); [unfold len in Hl; simpl in Hl; lia | discriminate]|].
  destruct (Hf s eq_refl) as [_ Hs].
  pose proof (ChunkSizes.strip_shorter s). lia.
Qed.

(** *** The loops over the lines *)

Lemma first_index_range (stop : str -> bool) (lines : list str) (i : Z) :
  first_index stop lines = Some i -> 0 <= i < len lines.
Proof.
  revert i. induction lines as [|line rest IH]; intros i; simpl; [discriminate|].
  destruct (stop line).
  - intros H. injection H as <-. unfold len. simpl. lia.
  - destruct (first_index stop rest) as [k|]; [|discriminate].
    intros H. injection H as <-. specialize (IH k eq_refl).
    unfold len in *. simpl. lia.
Qed.

Lemma at_first_yields {A} (P : A -> Prop) (stop : str -> bool)
    (lines : list str) (f : Z -> outcome A) (val : A) :
  (forall i, 0 <= i < len lines -> yields P (f i)) -> P val ->
  yields P (at_first stop lines f val).
Proof.
  intros Hf Hv. unfold at_first.
  destruct (first_index stop lines) as [i|] eqn:E.
  - apply Hf. eapply first_index_range; eauto.
  - now apply yields_return.
Qed.

Lemma next_value_line_returns (lines : list str) (i skip_count : Z) :
  0 <= i -> returns (_find_next_value_line lines i skip_count).
Proof.
  intros Hi.
  destruct (find_next_value_line_ok lines i skip_count Hi)
    as [r [js [_ [_ [Hr _]]]]].
  exists r. auto.
Qed.

Lemma group_stripped_returns (fl : flags) (pattern : regex) (i : nat)
    (m : match_obj) :
  always_captures i pattern = true ->
  (exists s, search fl pattern s = Some m) \/ (exists s, pmatch fl pattern s = Some m) ->
  returns (group_stripped m i).
Proof.
  intros Hc Hm. unfold group_stripped.
  assert (Hg : group m i <> None).
  { destruct Hm as [[s Hs]|[s Hs]].
    - eapply search_captures; eauto.
    - eapply match_here_captures; eauto. }
  destruct (group m i) as [g|]; [|congruence]. now apply yields_return.
Qed.

Lemma range_lines (lines : list str) (i k : Z) :
  0 <= i ->
  exists js, range (i + 1) (Z.min (i + k) (len lines)) 1 = Ok js
             /\ Forall (fun j => 0 <= j < len lines) js.
Proof.
  intros Hi.
  destruct (range (i + 1) (Z.min (i + k) (len lines)) 1) as [js|e] eqn:Er.
  2:{ unfold range in Er. discriminate. }
  exists js. split; [reflexivity|].
  pose proof (range_step_one _ _ _ Er) as Hjs.
  eapply Forall_impl; [|exact Hjs]. intros j Hj. simpl in Hj. lia.
Qed.

(** *** Shipment ID *)

Lemma id_patterns_capture : forallb (always_captures 1) id_patterns = true.
Proof. reflexivity. Qed.

Lemma shipment_id_result (text cleaned_text : str) :
  yields (filled 150) (shipment_id_of text cleaned_text).
Proof.
  unfold shipment_id_of.
  eapply yields_and_then; [apply scan_result, id_patterns_capture|].
  intros val Hval.
  eapply (yields_and_then (filled 150)).
  - destruct (absent val); [apply scan_result, id_patterns_capture|].
    now apply yields_return.
  - intros val' Hval'. apply yields_return.
    destruct (absent val'); [intros v Hv; discriminate | exact Hval'].
Qed.

(** *** Shipper and consignee *)

Lemma first_party_returns (lines : list str) (i : Z) (val : option str) :
  0 <= i -> returns (first_party lines i val).
Proof.
  intros Hi. unfold first_party.
  destruct (i + 1 <? len lines) eqn:E; [|now apply yields_return].
  apply Z.ltb_lt in E.
  destruct (getitem_in_range lines (i + 1)) as [line ->]; [lia|].
  destruct (pmatch NOFLAGS FIRST_PARTY (strip line)) as [m|] eqn:Em;
    [|now apply yields_return].
  eapply yields_and_then.
  - apply (group_stripped_returns NOFLAGS FIRST_PARTY 1 m); [reflexivity|].
    right. eauto.
  - intros g _. now apply yields_return.
Qed.

Lemma shipper_patterns_capture :
  forallb (always_captures 1) shipper_patterns = true.
Proof. reflexivity. Qed.

Lemma shipper_result (text : str) (lines cleaned_lines : list str) :
  yields (filled 100) (shipper_of text lines cleaned_lines).
Proof.
  unfold shipper_of.
  eapply yields_and_then;
    [apply (returns_any _ _ (scan_result text _ shipper_patterns_capture))|].
  intros val _.
  eapply (yields_and_then (fun _ => True)).
  { destruct (absent val); [|now apply yields_return].
    apply at_first_yields; [|exact I].
    intros i Hi. apply next_value_line_returns. lia. }
  intros val1 _.
  eapply (yields_and_then (fun _ => True)).
  { destruct (absent val1); [|now apply yields_return].
    eapply (yields_and_then (fun _ => True)).
    - apply at_first_yields; [|exact I].
      intros i Hi. apply next_value_line_returns. lia.
    - intros val2 _. destruct (absent val2); [|now apply yields_return].
      apply at_first_yields; [|exact I].
      intros i Hi. apply next_value_line_returns. lia. }
  intros val3 _.
  eapply (yields_and_then (fun _ => True)).
  { destruct (absent val3); [|now apply yields_return].
    apply at_first_yields; [|exact I].
    intros i Hi. apply first_party_returns. lia. }
  intros val4 _. apply yields_return. apply usable_filled. lia.
Qed.

Lemma after_usa_returns (lines : list str) (js : list Z) :
  Forall (fun j => 0 <= j < len lines) js ->
  forall val, returns (after_usa lines js val).
Proof.
  induction 1 as [|j js Hj _ IH]; intros val.
  - now apply yields_return.
  - cbn [after_usa]. destruct (getitem_in_range lines j Hj) as [l ->].
    destruct (search NOFLAGS AFTER_USA l) as [m|] eqn:Em; [|apply IH].
    eapply yields_and_then.
    + apply (group_stripped_returns NOFLAGS AFTER_USA 1 m); [reflexivity|].
      left. eauto.
    + intros g _. cbv zeta.
      destruct (truthy (rstrip_char "," g) && (1 <? len (rstrip_char "," g)));
        [now apply yields_return | apply IH].
Qed.

Lemma second_party_returns (lines : list str) (i : Z) (val : option str) :
  0 <= i -> returns (second_party lines i val).
Proof.
  intros Hi. unfold second_party.
  destruct (range_lines lines i 5 Hi) as [js [-> Hjs]]. simpl.
  now apply after_usa_returns.
Qed.

Lemma consignee_patterns_capture :
  forallb (always_captures 1) consignee_patterns = true.
Proof. reflexivity. Qed.

Lemma consignee_result (text : str) (lines : list str) :
  yields (filled 100) (consignee_of text lines).
Proof.
  unfold consignee_of.
  eapply yields_and_then;
    [apply (returns_any _ _ (scan_result text _ consignee_patterns_capture))|].
  intros val _.
  eapply (yields_and_then (fun _ => True)).
  { destruct (absent val); [|now apply yields_return].
    apply at_first_yields; [|exact I].
    intros i Hi. apply next_value_line_returns. lia. }
  intros val1 _.
  eapply (yields_and_then (fun _ => True)).
  { destruct (absent val1); [|now apply yields_return].
    apply at_first_yields; [|exact I].
    intros i Hi. apply next_value_line_returns. lia. }
  intros val2 _.
  eapply (yields_and_then (fun _ => True)).
  { destruct (absent val2); [|now apply yields_return].
    apply at_first_yields; [|exact I].
    intros i Hi. apply second_party_returns. lia. }
  intros val3 _. apply yields_return. apply usable_filled. lia.
Qed.

(** *** Dates *)

Lemma word_not_space (c : ascii) : isword c = true -> isspace c = false.
Proof.
  destruct c as [[] [] [] [] [] [] [] []]; vm_compute; intros H;
    try reflexivity; discriminate.
Qed.

Lemma digit_not_space (c : ascii) : isdecimal c = true -> isspace c = false.
Proof.
  destruct c as [[] [] [] [] [] [] [] []]; vm_compute; intros H;
    try reflexivity; discriminate.
Qed.

(** A repetition that takes at least one character starts the text. *)
Lemma starts_with_class (a : atom) (p1 p2 : str) :
  forallb (atom_match NOFLAGS a) p1 = true -> (1 <= length p1)%nat ->
  exists c r, p1 ++ p2 = c :: r /\ atom_match NOFLAGS a c = true.
Proof.
  intros Hall Hlen. destruct p1 as [|c p1]; [simpl in Hlen; lia|].
  simpl in Hall. apply andb_prop in Hall as [Hc _]. exists c, (p1 ++ p2). auto.
Qed.

Lemma date_starts (prev : option ascii) (pre post : str) :
  matches NOFLAGS date_formats prev pre post ->
  exists c r, pre = c :: r /\ isspace c = false.
Proof.
  unfold date_formats. cbn [alts seqs matches one_or_more].
  intros [H|[H|H]]; destruct H as [p1 [p2 [-> [[Hall [Hlen _]] _]]]];
    destruct (starts_with_class _ p1 p2 Hall) as [c [r [-> Hc]]];
    try (simpl in Hlen; lia); exists c, r; (split; [reflexivity|]);
    simpl in Hc; rewrite !orb_false_r in Hc.
  - now apply digit_not_space.
  - now apply word_not_space.
  - now apply digit_not_space.
Qed.

Lemma date_in_nonempty (line date : str) : date_in line = Some date -> date <> [].
Proof.
  unfold date_in. destruct (search NOFLAGS date_formats line) as [m|] eqn:E;
    [|discriminate].
  intros H. injection H as <-.
  apply search_sound in E as [before [_ [Hm _]]].
  apply date_starts in Hm as [c [r [-> Hc]]]. now apply strip_head_nonblank.
Qed.

Lemma context_date_nonempty (context : regex) (lines : list str) :
  nonempty (context_date context lines).
Proof.
  induction lines as [|line rest IH]; intros v; cbn [context_date];
    [discriminate|].
  destruct (found_in IGNORECASE context line); [|apply IH].
  destruct (date_in line) as [d|] eqn:Ed.
  - intros H. injection H as <-. eapply date_in_nonempty; eauto.
  - destruct rest as [|next rest']; [apply IH|].
    destruct (date_in next) as [d|] eqn:En; [|apply IH].
    intros H. injection H as <-. eapply date_in_nonempty; eauto.
Qed.

Lemma pickup_patterns_capture : forallb (always_captures 1) pickup_patterns = true.
Proof. reflexivity. Qed.

Lemma delivery_patterns_capture :
  forallb (always_captures 1) delivery_patterns = true.
Proof. reflexivity. Qed.

Lemma date_result (patterns : list regex) (context : regex) (search_text : str)
    (lines : list str) :
  forallb (always_captures 1) patterns = true ->
  yields nonempty (date_of patterns context search_text lines).
Proof.
  intros Hc. unfold date_of.
  eapply yields_and_then; [apply (scan_result search_text _ Hc)|].
  intros val Hval. apply yields_return.
  pose proof (usable_stripped val Hval) as Hs.
  destruct (usable val).
  - intros v Hv. now destruct (Hs v Hv).
  - apply context_date_nonempty.
Qed.

(** *** Equipment type and mode *)

Lemma first_keyword_in {T} (holds : T -> bool) (kws : list (T * str)) (d : str) :
  first_keyword holds kws = Some d -> In d (map snd kws).
Proof.
  induction kws as [|[kw display] rest IH]; simpl; [discriminate|].
  destruct (holds kw); [|auto]. intros H. injection H as <-. now left.
Qed.

Lemma equip_patterns_capture : forallb (always_captures 1) equip_patterns = true.
Proof. reflexivity. Qed.

Lemma equipment_result (text text_lower : str) :
  yields (filled 50) (equipment_of text text_lower).
Proof.
  unfold equipment_of.
  eapply yields_and_then;
    [apply (returns_any _ _ (scan_result text _ equip_patterns_capture))|].
  intros val _. apply yields_return.
  pose proof (usable_filled 50 val) as Hu.
  destruct (usable val); [apply Hu; lia|].
  intros v Hv. apply first_keyword_in in Hv.
  assert (Hall : Forall (fun d => d <> [] /\ len d <= 50) (map snd equip_kws)).
  { repeat constructor; try discriminate; vm_compute; discriminate. }
  rewrite Forall_forall in Hall. now apply Hall.
Qed.

Lemma mode_patterns_capture : forallb (always_captures 1) mode_patterns = true.
Proof. reflexivity. Qed.

Lemma mode_result (text : str) (text_upper : list N) :
  yields (filled 150) (mode_of text text_upper).
Proof.
  unfold mode_of.
  eapply yields_and_then; [apply (scan_result text _ mode_patterns_capture)|].
  intros val Hval. apply yields_return.
  pose proof (usable_stripped val Hval) as Hs.
  destruct (usable val); [exact Hs|].
  intros v Hv. apply first_keyword_in in Hv.
  assert (Hall : Forall (fun d => d <> [] /\ len d <= 150) (map snd mode_kws)).
  { repeat constructor; try discriminate; vm_compute; discriminate. }
  rewrite Forall_forall in Hall. now apply Hall.
Qed.

(** *** Rate and currency *)

Lemma py_float_nonempty (s : str) (x : float) : py_float s = Some x -> s <> [].
Proof. intros H ->. vm_compute in H. discriminate. Qed.

Lemma format_fixed_nonempty (x : float) (ndigits : nat) :
  format_fixed x ndigits <> [].
Proof.
  unfold format_fixed. destruct (Prim2SF x) as [s|s| |s m e].
  - destruct s; discriminate.
  - destruct s; discriminate.
  - discriminate.
  - destruct s; simpl; [discriminate|].
    intros H. apply app_eq_nil in H as [_ H]. discriminate.
Qed.

Lemma rate_result (text : str) :
  yields nonempty (lift (_extract_with_regex_rate text)).
Proof.
  unfold _extract_with_regex_rate.
  destruct (labelled_rate_first text rate_patterns rate_patterns_capture)
    as [r [-> Hr]].
  simpl. destruct r as [rate_val|].
  - apply yields_return. intros v Hv. injection Hv as <-.
    destruct Hr as [before [p [after [_ [_ [_ Ha]]]]]]. unfold accepted_rate in Ha.
    destruct (py_float rate_val) as [x|] eqn:E; [|discriminate].
    eapply py_float_nonempty; eauto.
  - destruct (dollar_amounts text) as [|first others]; simpl.
    + apply yields_return. intros v Hv. discriminate.
    + apply yields_return. intros v Hv. injection Hv as <-.
      apply format_fixed_nonempty.
Qed.

Lemma currency_result (text : str) :
  forall v, _extract_with_regex_currency text = Some v -> known_currency v.
Proof.
  intros v. unfold _extract_with_regex_currency, known_currency. cbv zeta.
  repeat match goal with
         | |- (if ?b then _ else _) = Some v -> _ => destruct b
         end;
    intros H; try discriminate; injection H as <-; simpl; auto.
Qed.

(** *** Weight *)

Lemma strip_starts (s r : str) (c : ascii) : strip s = c :: r -> isspace c = false.
Proof.
  unfold strip. intros H.
  destruct (rstrip_prefix (lstrip s)) as [suf [Hs _]]. rewrite H in Hs.
  eapply lstrip_head. exact Hs.
Qed.

Lemma group_stripped_at (fl : flags) (pattern : regex) (i : nat) (text : str)
    (m : match_obj) :
  always_captures i pattern = true -> search fl pattern text = Some m ->
  exists g, group m i = Some g /\ group_stripped m i = Return (strip g).
Proof.
  intros Hc Hm. pose proof (search_captures _ _ _ _ _ Hc Hm) as Hg.
  unfold group_stripped. destruct (group m i) as [g|]; [|congruence]. eauto.
Qed.

Lemma weight_patterns_capture :
  forallb (fun p => always_captures 1 p && always_captures 2 p) weight_patterns
  = true.
Proof. reflexivity. Qed.

Lemma weight_result (patterns : list regex) (text : str) :
  forallb (fun p => always_captures 1 p && always_captures 2 p) patterns = true ->
  yields nonempty (weight_of patterns text).
Proof.
  induction patterns as [|p rest IH]; intros Hc.
  - apply yields_return. intros v Hv. discriminate.
  - simpl in Hc. apply andb_prop in Hc as [Hp Hrest]. specialize (IH Hrest).
    apply andb_prop in Hp as [H1 H2]. cbn [weight_of].
    destruct (search IGNORECASE p text) as [m|] eqn:Em; [|exact IH].
    destruct (group_stripped_at _ _ _ _ _ H1 Em) as [g1 [Hg1 ->]].
    destruct (group_stripped_at _ _ _ _ _ H2 Em) as [g2 [Hg2 Hs2]].
    cbn [and_then].
    assert (Hunit : exists weight_unit,
              match lastindex m with
              | Some last =>
                  if 2 <=? last then group_stripped m 2 else Return (lit "lbs")
              | None =>
                  Fail (TypeError
                          "'>=' not supported between instances of 'NoneType' and 'int'")
              end = Return weight_unit).
    { unfold lastindex. unfold group in Hg1.
      destruct (m_groups m) as [|[i g] caps]; [discriminate|].
      destruct (2 <=? Z.of_nat i); [rewrite Hs2|]; eauto. }
    destruct Hunit as [weight_unit ->]. cbn [and_then].
    destruct (py_float (without_commas (strip g1))) as [wn|] eqn:Ef; [|exact IH].
    destruct (heavy_enough wn); [|exact IH].
    apply yields_return. intros v Hv. injection Hv as <-.
    destruct (strip g1) as [|c r] eqn:Es.
    + vm_compute in Ef. discriminate.
    + simpl app. apply strip_head_nonblank. eapply strip_starts; eauto.
Qed.

(** *** Carrier name *)

Lemma parse_carrier_returns (raw_line : str) :
  returns (_parse_carrier_from_row raw_line).
Proof.
  unfold _parse_carrier_from_row.
  destruct (negb (truthy raw_line) || _is_junk_value raw_line);
    [now apply yields_return|].
  eapply (yields_and_then (fun _ => True)).
  - destruct (pmatch NOFLAGS COMPANY_BEFORE raw_line) as [m|] eqn:Em;
      [|now apply yields_return].
    eapply yields_and_then.
    + apply (group_stripped_returns NOFLAGS COMPANY_BEFORE 1 m); [reflexivity|].
      right. eauto.
    + intros name _. now apply yields_return.
  - intros by_number _. destruct by_number as [name|]; [now apply yields_return|].
    destruct (Re.split NOFLAGS WIDE_GAP raw_line) as [|first parts].
    + destruct ((len (split_ws raw_line) <=? 6) && negb (_is_junk_value raw_line));
        now apply yields_return.
    + destruct ((2 <? len (strip first)) && negb (_is_junk_value (strip first)));
        [now apply yields_return|].
      destruct ((len (split_ws raw_line) <=? 6) && negb (_is_junk_value raw_line));
        now apply yields_return.
Qed.

Lemma present_filled (n : Z) (parsed : option str) :
  0 < n ->
  filled n (if absent parsed then None else option_map (upto n) parsed).
Proof.
  intros Hn v Hv. destruct parsed as [s|]; simpl in Hv; [|discriminate].
  destruct s as [|c s]; simpl in Hv; [discriminate|].
  injection Hv as <-. split; [apply upto_nonempty; [lia | discriminate]|].
  apply upto_len. lia.
Qed.

Lemma carrier_row_result (lines : list str) (js : list Z) :
  Forall (fun j => 0 <= j < len lines) js ->
  yields (filled 100) (carrier_row lines js).
Proof.
  induction 1 as [|j js Hj _ IH].
  - apply yields_return. intros v Hv. discriminate.
  - cbn [carrier_row]. destruct (getitem_in_range lines j Hj) as [line ->].
    cbv zeta. destruct (negb (truthy (strip line))); [exact IH|].
    destruct (_is_junk_value (strip line)); [exact IH|].
    eapply yields_and_then; [apply parse_carrier_returns|].
    intros parsed _. apply yields_return. apply present_filled. lia.
Qed.

Lemma carrier_below_header_result (lines : list str) (i : Z) :
  0 <= i -> yields (filled 100) (carrier_below_header lines i).
Proof.
  intros Hi. unfold carrier_below_header.
  destruct (range_lines lines i 5 Hi) as [js [-> Hjs]]. simpl.
  now apply carrier_row_result.
Qed.

Lemma carrier_next_line_result (lines : list str) (i : Z) :
  0 <= i -> yields (filled 100) (carrier_next_line lines i).
Proof.
  intros Hi. unfold carrier_next_line.
  destruct (i + 1 <? len lines) eqn:E.
  2:{ apply yields_return. intros v Hv. discriminate. }
  apply Z.ltb_lt in E.
  destruct (getitem_in_range lines (i + 1)) as [line ->]; [lia|].
  cbv zeta. apply yields_return. intros v Hv.
  destruct (strip line) as [|c r]; simpl in Hv; [discriminate|].
  match type of Hv with (if ?b then _ else _) = _ => destruct b end;
    [|discriminate].
  injection Hv as <-. split; [apply upto_nonempty; [lia | discriminate]|].
  apply upto_len. lia.
Qed.

Lemma carrier_patterns_capture :
  forallb (always_captures 1) carrier_patterns = true.
Proof. reflexivity. Qed.

Lemma none_filled (n : Z) : filled n None.
Proof. intros v Hv. discriminate. Qed.

Lemma carrier_result (text : str) (lines : list str) :
  yields (filled 100) (carrier_of text lines).
Proof.
  unfold carrier_of.
  eapply yields_and_then;
    [apply (returns_any _ _ (scan_result text _ carrier_patterns_capture))|].
  intros val _.
  pose proof (usable_filled 100 val) as Hu.
  destruct (usable val) eqn:Eu.
  - simpl andb.
    destruct (match val with Some v => len (split_ws v) <=? 8 | None => false end).
    + apply yields_return. apply Hu. lia.
    + eapply (yields_and_then (filled 100)).
      * apply at_first_yields; [|apply none_filled].
        intros i Hi. apply carrier_below_header_result. lia.
      * intros found Hfound. destruct found as [name|];
          [now apply yields_return|].
        apply at_first_yields; [|apply none_filled].
        intros i Hi. apply carrier_next_line_result. lia.
  - simpl andb.
    eapply (yields_and_then (filled 100)).
    + apply at_first_yields; [|apply none_filled].
      intros i Hi. apply carrier_below_header_result. lia.
    + intros found Hfound. destruct found as [name|];
        [now apply yields_return|].
      apply at_first_yields; [|apply none_filled].
      intros i Hi. apply carrier_next_line_result. lia.
Qed.

End ExtractionFacts.

(** ** What the regex fallback returns *)

Module ExtractionSpec.
Import Py Re PyFloat DocumentProcessor Extractor ExtractorFields RegexExtraction.
Import ReSpans Notions ExtractionNotions FloatFacts ReSound ExtractionFacts.
Import stdpp.base stdpp.gmap stdpp.strings.
Local Open Scope Z_scope.

(** *** The dictionary *)

Lemma lookup_store (key : string) (value : option str) (result : fields)
    (f : string) :
  store key value result !! f
  = if String.eqb key f
    then match value with Some v => Some v | None => result !! f end
    else result !! f.
Proof.
  unfold store, fields in *. destruct (String.eqb_spec key f) as [->|Hne].
  - destruct value as [v|]; [|reflexivity].
    rewrite (lookup_insert result f f v). now destruct (decide (f = f)).
  - destruct value as [v|]; [|reflexivity]. now apply lookup_insert_ne.
Qed.

Lemma lookup_store_cases (key : string) (value : option str) (result : fields)
    (f : string) (v : str) :
  store key value result !! f = Some v ->
  (f = key /\ value = Some v) \/ result !! f = Some v.
Proof.
  rewrite lookup_store. destruct (String.eqb_spec key f) as [->|Hne]; [|auto].
  destruct value as [x|]; [|auto]. intros H. injection H as <-. auto.
Qed.

Lemma lookup_store_ne (key : string) (value : option str) (result : fields)
    (f : string) :
  String.eqb key f = false -> store key value result !! f = result !! f.
Proof. intros H. now rewrite lookup_store, H. Qed.

Lemma lookup_store_here (key : string) (value : option str) (result : fields) :
  store key value result !! key
  = match value with Some v => Some v | None => result !! key end.
Proof. now rewrite lookup_store, String.eqb_refl. Qed.

Lemma same_option {A} (a : option A) :
  match a with Some v => Some v | None => None end = a.
Proof. now destruct a. Qed.

(** Every field of the dictionary is the value it was given. *)
Lemma collect_fields (a1 a2 a3 a4 a5 a6 a7 a8 a9 a10 a11 : option str) :
  map (fun f => collect a1 a2 a3 a4 a5 a6 a7 a8 a9 a10 a11 !! f) all_fields
  = [a1; a2; a3; a4; a5; a6; a7; a8; a9; a10; a11].
Proof.
  unfold collect, all_fields. cbn [map].
  repeat first [ rewrite lookup_store_ne by reflexivity
               | rewrite lookup_store_here ].
  unfold fields. rewrite !lookup_empty, !same_option. reflexivity.
Qed.

(** The dictionary holds nothing under other keys. *)
Lemma collect_keys (a1 a2 a3 a4 a5 a6 a7 a8 a9 a10 a11 : option str)
    (f : string) (v : str) :
  collect a1 a2 a3 a4 a5 a6 a7 a8 a9 a10 a11 !! f = Some v ->
  In (f, Some v)
    (combine all_fields [a1; a2; a3; a4; a5; a6; a7; a8; a9; a10; a11]).
Proof.
  unfold collect. intros H.
  repeat (apply lookup_store_cases in H as [[-> ->]|H]; [simpl; tauto|]).
  unfold fields in H. rewrite lookup_empty in H. discriminate.
Qed.

(** *** The parts together *)

Lemma extract_with_regex_parts (text : str) :
  exists a1 a2 a3 a4 a5 a6 a7 a8 a10 a11,
    filled 150 a1 /\ filled 100 a2 /\ filled 100 a3 /\ nonempty a4
    /\ nonempty a5 /\ filled 50 a6 /\ filled 150 a7 /\ nonempty a8
    /\ nonempty a10 /\ filled 100 a11
    /\ _extract_with_regex text
       = Return
           (collect a1 a2 a3 a4 a5 a6 a7 a8 (_extract_with_regex_currency text)
              a10 a11,
            notes_of
              (collect a1 a2 a3 a4 a5 a6 a7 a8
                 (_extract_with_regex_currency text) a10 a11)).
Proof.
  unfold _extract_with_regex. cbv zeta.
  destruct (shipment_id_result text (clean text)) as [a1 [-> H1]].
  destruct (shipper_result text (split_on NL text) (split_on NL (clean text)))
    as [a2 [-> H2]].
  destruct (consignee_result text (split_on NL text)) as [a3 [-> H3]].
  destruct (date_result pickup_patterns PICKUP_CONTEXT (clean text)
              (split_on NL text) pickup_patterns_capture) as [a4 [-> H4]].
  destruct (date_result delivery_patterns DELIVERY_CONTEXT (clean text)
              (split_on NL text) delivery_patterns_capture) as [a5 [-> H5]].
  destruct (equipment_result text (lower text)) as [a6 [-> H6]].
  destruct (mode_result text (upper text)) as [a7 [-> H7]].
  destruct (rate_result text) as [a8 [-> H8]].
  destruct (weight_result weight_patterns text weight_patterns_capture)
    as [a10 [-> H10]].
  destruct (carrier_result text (split_on NL text)) as [a11 [-> H11]].
  cbn [and_then]. exists a1, a2, a3, a4, a5, a6, a7, a8, a10, a11.
  repeat (split; [assumption|]). reflexivity.
Qed.

Lemma filled_nonempty (n : Z) (value : option str) : filled n value -> nonempty value.
Proof. intros H v Hv. now destruct (H v Hv). Qed.

Lemma currency_nonempty (text : str) :
  nonempty (_extract_with_regex_currency text).
Proof.
  intros v Hv. apply currency_result in Hv. unfold known_currency in Hv.
  simpl in Hv. destruct Hv as [<-|[<-|[<-|[<-|[]]]]]; discriminate.
Qed.

(** The dictionary returned, with no empty value in it. *)
Lemma extract_with_regex_returns_parts (text : str) :
  exists result,
    _extract_with_regex text = Return (result, notes_of result)
    /\ (forall f v, result !! f = Some v -> In f all_fields)
    /\ (forall f v, result !! f = Some v -> v <> []).
Proof.
  destruct (extract_with_regex_parts text)
    as [a1 [a2 [a3 [a4 [a5 [a6 [a7 [a8 [a10 [a11
         [H1 [H2 [H3 [H4 [H5 [H6 [H7 [H8 [H10 [H11 ->]]]]]]]]]]]]]]]]]]]].
  eexists. split; [reflexivity|].
  pose proof (currency_nonempty text) as H9.
  apply filled_nonempty in H1, H2, H3, H6, H7, H11.
  split; intros f v Hf; apply collect_keys in Hf; simpl in Hf;
    repeat (destruct Hf as [Hf|Hf];
            [injection Hf as <- Hv; first [simpl; tauto | eauto]|]);
    contradiction.
Qed.

(** X17.  On every text [_extract_with_regex] returns: no group it reads is
    missing, no index is out of range, [lastindex] is never [None].  The
    dictionary it returns holds keys of [all_fields] only, and no value in it
    is the empty string; the notes are those of that dictionary. *)
Theorem extract_with_regex_returns (text : str) :
  exists result notes,
    _extract_with_regex text = Return (result, notes)
    /\ notes = notes_of result
    /\ forall f v, result !! f = Some v -> In f all_fields /\ v <> [].
Proof.
  destruct (extract_with_regex_returns_parts text) as [result [Hr [Hd Hv]]].
  exists result, (notes_of result). split; [exact Hr|]. split; [reflexivity|].
  intros f v Hf. split; [eapply Hd | eapply Hv]; eauto.
Qed.

(** X18.  In the dictionary [_extract_with_regex] returns, the shipper, the
    consignee and the carrier name have at most 100 characters, the
    equipment type at most 50, the shipment ID and the mode at most 150, and
    the currency is one of USD, CAD, EUR and GBP. *)
Theorem extracted_fields_bounded (text : str) (result : fields)
    (notes : list str) :
  _extract_with_regex text = Return (result, notes) ->
  (forall v, result !! "shipment_id"%string = Some v -> len v <= 150)
  /\ (forall v, result !! "shipper"%string = Some v -> len v <= 100)
  /\ (forall v, result !! "consignee"%string = Some v -> len v <= 100)
  /\ (forall v, result !! "equipment_type"%string = Some v -> len v <= 50)
  /\ (forall v, result !! "mode"%string = Some v -> len v <= 150)
  /\ (forall v, result !! "currency"%string = Some v -> known_currency v)
  /\ (forall v, result !! "carrier_name"%string = Some v -> len v <= 100).
Proof.
  destruct (extract_with_regex_parts text)
    as [a1 [a2 [a3 [a4 [a5 [a6 [a7 [a8 [a10 [a11
         [H1 [H2 [H3 [H4 [H5 [H6 [H7 [H8 [H10 [H11 ->]]]]]]]]]]]]]]]]]]]].
  intros H. injection H as <- _.
  pose proof (collect_fields a1 a2 a3 a4 a5 a6 a7 a8
                (_extract_with_regex_currency text) a10 a11) as Hf.
  unfold all_fields in Hf. cbn [map] in Hf.
  injection Hf as E1 E2 E3 E4 E5 E6 E7 E8 E9 E10 E11.
  repeat split; intros v Hv.
  - now destruct (H1 v (eq_trans (eq_sym E1) Hv)).
  - now destruct (H2 v (eq_trans (eq_sym E2) Hv)).
  - now destruct (H3 v (eq_trans (eq_sym E3) Hv)).
  - now destruct (H6 v (eq_trans (eq_sym E6) Hv)).
  - now destruct (H7 v (eq_trans (eq_sym E7) Hv)).
  - exact (currency_result text v (eq_trans (eq_sym E9) Hv)).
  - now destruct (H11 v (eq_trans (eq_sym E11) Hv)).
Qed.

Lemma extracted_fields_bounded_witness :
  exists result notes,
    _extract_with_regex (lit "5 USD")
    = Return (result, notes)
    /\ (forall v, result !! "shipment_id"%string = Some v -> len v <= 150)
    /\ (forall v, result !! "shipper"%string = Some v -> len v <= 100)
    /\ (forall v, result !! "consignee"%string = Some v -> len v <= 100)
    /\ (forall v, result !! "equipment_type"%string = Some v -> len v <= 50)
    /\ (forall v, result !! "mode"%string = Some v -> len v <= 150)
    /\ (forall v, result !! "currency"%string = Some v -> known_currency v)
    /\ (forall v, result !! "carrier_name"%string = Some v -> len v <= 100).
Proof.
  exists (<["currency"%string := lit "USD"]> ∅),
         (notes_of (<["currency"%string := lit "USD"]> ∅)).
  assert (E : _extract_with_regex (lit "5 USD")
              = Return (<["currency"%string := lit "USD"]> ∅,
                        notes_of (<["currency"%string := lit "USD"]> ∅)))
    by (vm_compute; reflexivity).
  split; [exact E|].
  exact (extracted_fields_bounded _ _ _ E).
Defined.

(** *** The pipeline *)

Lemma filter_partition {A} (f : A -> bool) (l : list A) :
  (length (List.filter f l) + length (List.filter (fun x => negb (f x)) l)
   = length l)%nat.
Proof.
  induction l as [|x l IH]; [reflexivity|]. simpl.
  destruct (f x); simpl; lia.
Qed.

Lemma filter_agree {A} (f g : A -> bool) (l : list A) :
  (forall x, In x l -> f x = g x) -> List.filter f l = List.filter g l.
Proof.
  induction l as [|x l IH]; intros H; [reflexivity|]. simpl.
  rewrite (H x) by now left. rewrite IH; [reflexivity|].
  intros y Hy. apply H. now right.
Qed.

Lemma filter_map_length {A B} (f : A -> B) (p : B -> bool) (l : list A) :
  length (List.filter p (map f l)) = length (List.filter (fun x => p (f x)) l).
Proof.
  induction l as [|x l IH]; [reflexivity|]. simpl.
  destruct (p (f x)); simpl; now rewrite IH.
Qed.

Lemma filter_length_le {A} (f : A -> bool) (l : list A) :
  (length (List.filter f l) <= length l)%nat.
Proof. pose proof (filter_partition f l). lia. Qed.

(** [round(k / 11, 4)] for the twelve counts. *)
Lemma elevenths (k : Z) :
  0 <= k <= 11 ->
  in_unit (py_round (int_truediv k 11) 4) = true
  /\ (py_round (int_truediv k 11) 4 = 1%float <-> k = 11).
Proof.
  intros Hk.
  assert (Hcases : k = 0 \/ k = 1 \/ k = 2 \/ k = 3 \/ k = 4 \/ k = 5 \/ k = 6
                   \/ k = 7 \/ k = 8 \/ k = 9 \/ k = 10 \/ k = 11) by lia.
  repeat (destruct Hcases as [->|Hcases]); try subst k;
    (split; [vm_compute; reflexivity|]);
    (split; [|intros H; try lia; reflexivity]);
    intros H; try reflexivity;
    apply (f_equal Prim2SF) in H; vm_compute in H; discriminate.
Qed.

(** X19.  [_extract_with_regex_pipeline] returns on every text.  With [k]
    the number of fields that are there, the confidence score is
    [round(k / 11, 4)], lies between 0 and 1 and is 1.0 exactly when all 11
    are there; the second note reports the same [k], and a third note, on the
    missing fields, is there exactly when [k < 11]. *)
Theorem pipeline_confidence (doc_id text : str) :
  exists r,
    _extract_with_regex_pipeline doc_id text = Return r
    /\ document_id r = doc_id
    /\ let k := len (List.filter is_some (model_dump (shipment_data r))) in
       0 <= k <= 11
       /\ confidence_score r = py_round (int_truediv k 11) 4
       /\ in_unit (confidence_score r) = true
       /\ (confidence_score r = 1%float <-> k = 11)
       /\ nth 1 (extraction_notes r) []
          = lit "Fields found: " ++ digits_of k ++ lit "/11"
       /\ length (extraction_notes r) = if k <? 11 then 3%nat else 2%nat.
Proof.
  destruct (extract_with_regex_returns_parts text) as [result [Hr [Hd Hv]]].
  unfold _extract_with_regex_pipeline. rewrite Hr. cbn [and_then].
  eexists. split; [reflexivity|]. split; [reflexivity|].
  cbn [shipment_data confidence_score extraction_notes]. cbv zeta.
  change (model_dump _) with (map (fun f => result !! f) all_fields).
  set (k := len (List.filter is_some (map (fun f => result !! f) all_fields))).
  assert (Hk : 0 <= k <= 11).
  { unfold k, len. pose proof (filter_length_le is_some
                                 (map (fun f => result !! f) all_fields)) as Hl.
    rewrite length_map in Hl. change (length all_fields) with 11%nat in Hl.
    lia. }
  assert (Hfound : len (List.filter (is_found result) all_fields) = k).
  { unfold k, len. rewrite filter_map_length. f_equal. f_equal.
    apply filter_agree. intros f _. unfold is_found.
    destruct (result !! f) as [v|] eqn:E; [|reflexivity].
    specialize (Hv f v E). destruct v; [congruence | reflexivity]. }
  destruct (elevenths k Hk) as [Hu H1].
  split; [exact Hk|]. split; [reflexivity|]. split; [exact Hu|].
  split; [exact H1|].
  unfold notes_of. cbv zeta. rewrite Hfound. split; [reflexivity|].
  pose proof (filter_partition (is_found result) all_fields) as Hp.
  unfold len in Hfound. change (length all_fields) with 11%nat in Hp.
  destruct (List.filter (fun f => negb (is_found result f)) all_fields)
    as [|m ms] eqn:Em; cbn [length] in Hp; cbn [truthy app length].
  - destruct (k <? 11) eqn:E; [apply Z.ltb_lt in E; lia | reflexivity].
  - destruct (k <? 11) eqn:E; [reflexivity | apply Z.ltb_ge in E; lia].
Qed.

(** *** The weight *)

(** X20.  A weight is reported only for a number of at least 50, and it is
    that of the earliest pattern that is accepted: the patterns before it are
    all passed over (no match, a number that does not parse, or one below
    50), the value is the trimmed number of its match, a space and the
    trimmed unit of group 2, and the number, its commas removed, parses to a
    float that compares at least 50. *)
Theorem weight_at_least_fifty (text v : str) :
  weight_of weight_patterns text = Return (Some v) ->
  exists before pattern after m weight_num weight_unit wn,
    weight_patterns = before ++ pattern :: after
    /\ Forall (weight_rejected text) before
    /\ search IGNORECASE pattern text = Some m
    /\ option_map strip (group m 1) = Some weight_num
    /\ option_map strip (group m 2) = Some weight_unit
    /\ py_float (without_commas weight_num) = Some wn
    /\ (50 <=? wn)%float = true
    /\ v = strip (weight_num ++ lit " " ++ weight_unit).
Proof.
  assert (Hc : forallb (fun p => always_captures 1 p && always_captures 2 p
                                && ends_with_group 2 p) weight_patterns = true)
    by reflexivity.
  revert Hc. generalize weight_patterns as patterns.
  induction patterns as [|p rest IH]; intros Hc H; [discriminate|].
  simpl in Hc. apply andb_prop in Hc as [Hp Hrest].
  apply andb_prop in Hp as [Hp H3]. apply andb_prop in Hp as [H1 H2].
  cbn [weight_of] in H.
  assert (Hnext : weight_rejected text p ->
                  weight_of rest text = Return (Some v) ->
                  exists before pattern after m weight_num weight_unit wn,
                    p :: rest = before ++ pattern :: after
                    /\ Forall (weight_rejected text) before
                    /\ search IGNORECASE pattern text = Some m
                    /\ option_map strip (group m 1) = Some weight_num
                    /\ option_map strip (group m 2) = Some weight_unit
                    /\ py_float (without_commas weight_num) = Some wn
                    /\ (50 <=? wn)%float = true
                    /\ v = strip (weight_num ++ lit " " ++ weight_unit)).
  { intros Hrej H'.
    destruct (IH Hrest H') as [before [q [after [m [n [u [wn [Hq [Hb Hs]]]]]]]]].
    exists (p :: before), q, after, m, n, u, wn.
    split; [now rewrite Hq|]. split; [now constructor | exact Hs]. }
  destruct (search IGNORECASE p text) as [m|] eqn:Em;
    [|apply Hnext; [left; exact Em | exact H]].
  destruct (group_stripped_at _ _ _ _ _ H1 Em) as [g1 [Hg1 Hs1]].
  destruct (group_stripped_at _ _ _ _ _ H2 Em) as [g2 [Hg2 Hs2]].
  rewrite Hs1 in H. cbn [and_then] in H.
  destruct (search_last_group _ _ _ _ _ H3 Em) as [g [caps Hl]].
  unfold lastindex in H. rewrite Hl in H.
  change (2 <=? Z.of_nat 2) with true in H. cbv iota in H.
  rewrite Hs2 in H. cbn [and_then] in H.
  assert (Hrej : match py_float (without_commas (strip g1)) with
                 | Some wn => heavy_enough wn = false
                 | None => True
                 end -> weight_rejected text p).
  { intros Hw. right. exists m, (strip g1).
    split; [exact Em|]. split; [now rewrite Hg1 | exact Hw]. }
  destruct (py_float (without_commas (strip g1))) as [wn|] eqn:Ef;
    [|apply Hnext; [apply Hrej; exact I | exact H]].
  destruct (heavy_enough wn) eqn:Eh;
    [|apply Hnext; [apply Hrej; reflexivity | exact H]].
  injection H as <-. exists [], p, rest, m, (strip g1), (strip g2), wn.
  rewrite Hg1, Hg2. split; [reflexivity|]. split; [constructor|].
  split; [exact Em|].
  split; [reflexivity|]. split; [reflexivity|]. split; [exact Ef|].
  split; [exact Eh | reflexivity].
Qed.

Lemma weight_at_least_fifty_witness :
  exists before pattern after m weight_num weight_unit wn,
    weight_patterns = before ++ pattern :: after
    /\ Forall (weight_rejected (lit "Weight: 40 lbs, 42,500 lbs")) before
    /\ search IGNORECASE pattern (lit "Weight: 40 lbs, 42,500 lbs") = Some m
    /\ option_map strip (group m 1) = Some weight_num
    /\ option_map strip (group m 2) = Some weight_unit
    /\ py_float (without_commas weight_num) = Some wn
    /\ (50 <=? wn)%float = true
    /\ lit "42,500 lbs" = strip (weight_num ++ lit " " ++ weight_unit).
Proof.
  apply (weight_at_least_fifty (lit "Weight: 40 lbs, 42,500 lbs")
           (lit "42,500 lbs")).
  vm_compute. reflexivity.
Defined.

End ExtractionSpec.
